(** * treefs: a shallow embedding of the tree renderer and its properties

    The development follows [treefs.go]: the [TreeFS] accumulator, the
    option setters, the filter [allow], the line formatter [append], the
    recursive walk [treeFSWithPrefix] / [addDir], the constructors [New] and
    [NewMulti] and the three stringers.  The two library functions the walk
    leans on, [path.Join] (with [path.Clean]) and [fs.ReadDir], are modelled
    next to it. *)

From Stdlib Require Import ZArith List String Ascii Bool Lia DecimalString.
Import ListNotations.

Local Open Scope list_scope.
Local Open Scope string_scope.
Local Open Scope Z_scope.

(** ** Go's [int]

    A Go [int] is a 64-bit two's complement integer on the platforms the
    package targets; arithmetic wraps around silently. *)
Module GoInt.

Definition wrap (x : Z) : Z := (x + 2 ^ 63) mod 2 ^ 64 - 2 ^ 63.

Definition add (a b : Z) : Z := wrap (a + b).
Definition sub (a b : Z) : Z := wrap (a - b).

Definition in_range (x : Z) : Prop := - 2 ^ 63 <= x < 2 ^ 63.

End GoInt.

(** [len] of a slice, as an [int]. *)
Definition len {A : Type} (l : list A) : Z := Z.of_nat (List.length l).

(** [%d] of [fmt.Sprintf]: signed decimal, no padding. *)
Definition itoa (z : Z) : string := NilZero.string_of_int (Z.to_int z).

(** The line feed of the Go literals ["\n"]. *)
Definition nl : string := String (ascii_of_nat 10) EmptyString.

(** ** strings.HasPrefix, strings.Contains, strings.Join *)

Definition HasPrefix (s pre : string) : bool := String.prefix pre s.

Fixpoint Contains (s substr : string) : bool :=
  String.prefix substr s ||
  match s with
  | EmptyString => false
  | String _ s' => Contains s' substr
  end.

Definition strings_Join (elems : list string) (sep : string) : string :=
  String.concat sep elems.

(** ** path.Clean and path.Join

    [Clean] is the byte-level loop of Go's [path] package.  The output
    buffer [out] is kept reversed (its head is the last byte written), the
    read index [r] is represented by the unread suffix [rest] of the path,
    and [dotdot] is the buffer length below which [..] cannot backtrack. *)
Module path.

Definition isSlash (c : ascii) : bool := (c =? "/")%char.
Definition isDot (c : ascii) : bool := (c =? ".")%char.

(** [r == n || path[r] == '/'] *)
Definition endOrSlash (rest : string) : bool :=
  match rest with
  | EmptyString => true
  | String c _ => isSlash c
  end.

(** [path[r] == '.'] on the unread suffix, and the suffix one byte on. *)
Definition startsDot (rest : string) : bool :=
  match rest with
  | EmptyString => false
  | String c _ => isDot c
  end.

Definition advance (rest : string) : string :=
  match rest with
  | EmptyString => EmptyString
  | String _ r => r
  end.

(** [for out.w > dotdot && out.index(out.w) != '/' { out.w-- }]: [c] is the
    byte at index [out.w], [buf] the bytes below it. *)
Fixpoint dropToSlash (dotdot : nat) (c : ascii) (buf : list ascii) : list ascii :=
  match buf with
  | [] => []
  | c' :: buf' =>
      if (dotdot <? List.length buf)%nat && negb (isSlash c)
      then dropToSlash dotdot c' buf'
      else buf
  end.

(** [out.w--] followed by the loop above. *)
Definition backtrack (dotdot : nat) (out : list ascii) : list ascii :=
  match out with
  | [] => []
  | c :: buf => dropToSlash dotdot c buf
  end.

(** [for ; r < n && path[r] != '/'; r++ { out.append(path[r]) }] *)
Fixpoint copyElem (rest : string) (out : list ascii) : string * list ascii :=
  match rest with
  | EmptyString => (rest, out)
  | String c r => if isSlash c then (rest, out) else copyElem r (c :: out)
  end.

Fixpoint cleanLoop (fuel : nat) (rooted : bool) (rest : string)
         (out : list ascii) (dotdot : nat) : list ascii :=
  match fuel with
  | O => out
  | S fuel' =>
      match rest with
      | EmptyString => out
      | String c r1 =>
          if isSlash c then
            (* empty path element *)
            cleanLoop fuel' rooted r1 out dotdot
          else if isDot c && endOrSlash r1 then
            (* . element *)
            cleanLoop fuel' rooted r1 out dotdot
          else if isDot c && startsDot r1 && endOrSlash (advance r1) then
            (* .. element: remove to last / *)
            let r2 := advance r1 in
            if (dotdot <? List.length out)%nat then
              (* can backtrack *)
              cleanLoop fuel' rooted r2 (backtrack dotdot out) dotdot
            else if negb rooted then
              (* cannot backtrack, but not rooted, so append .. element *)
              let out1 := if (0 <? List.length out)%nat then "/"%char :: out else out in
              let out2 := "."%char :: "."%char :: out1 in
              cleanLoop fuel' rooted r2 out2 (List.length out2)
            else cleanLoop fuel' rooted r2 out dotdot
          else
            (* real path element: add slash if needed, copy element *)
            let out1 :=
              if (rooted && negb (List.length out =? 1)%nat)
                 || (negb rooted && negb (List.length out =? 0)%nat)
              then "/"%char :: out else out in
            let (rest', out2) := copyElem rest out1 in
            cleanLoop fuel' rooted rest' out2 dotdot
      end
  end.

Definition Clean (p : string) : string :=
  match p with
  | EmptyString => "."
  | String c r1 =>
      let rooted := isSlash c in
      let out :=
        if rooted
        then cleanLoop (S (String.length p)) true r1 ["/"%char] 1
        else cleanLoop (S (String.length p)) false p [] 0 in
      match out with
      | [] => "."
      | _ => string_of_list_ascii (List.rev out)
      end
  end.

(** [Join(elem ...string)]: the non-empty elements separated by slashes,
    then cleaned; the empty string when every element is empty. *)
Definition Join (elem : list string) : string :=
  let size := fold_left (fun n e => (n + String.length e)%nat) elem 0%nat in
  if (size =? 0)%nat then ""
  else
    let buf :=
      fold_left
        (fun buf e =>
           if (0 <? String.length buf)%nat || negb (e =? "")%string
           then (if (0 <? String.length buf)%nat then buf ++ "/" else buf) ++ e
           else buf)
        elem "" in
    Clean buf.

End path.

(** ** The filesystem seen by the walk

    Of an [fs.DirEntry] the walk reads [Name()] and [IsDir()] only.  Of an
    [fs.FS] it uses [fs.ReadDir] only, which yields the listing of a path or
    an error; a listing that comes with an error is dropped by the caller. *)
Record DirEntry : Type := mkEntry { Name : string; IsDir : bool }.

(** Go's [error] values, identified by their [Error()] text. *)
Record error : Type := mkError { Error : string }.

Definition FS : Type := string -> list DirEntry + error.

Definition ReadDir (fsys : FS) (name : string) : list DirEntry + error :=
  fsys name.

(** ** Constants *)

Definition elbowConnector : string := "└──".
Definition teeConnector : string := "├──".

Definition pipePrefix : string := "│   ".
Definition spacePrefix : string := "    ".

(** ** TreeFS

    [fsys] is [None] for the nil interface of a zero-valued [TreeFS]. *)
Record TreeFS : Type := mkTreeFS {
  fsys : option FS;
  tree : list string;
  pathPrefix : string;
  NDirs : Z;
  NFiles : Z;
  hidden : bool;
  dirOnly : bool;
  fullPathPrefix : bool;
  level : Z
}.

(** The zero value [var tfs TreeFS]. *)
Definition zeroTreeFS : TreeFS :=
  mkTreeFS None [] "" 0 0 false false false 0.

Definition set_tree (t : TreeFS) (v : list string) : TreeFS :=
  mkTreeFS (fsys t) v (pathPrefix t) (NDirs t) (NFiles t)
           (hidden t) (dirOnly t) (fullPathPrefix t) (level t).
Definition set_pathPrefix (t : TreeFS) (v : string) : TreeFS :=
  mkTreeFS (fsys t) (tree t) v (NDirs t) (NFiles t)
           (hidden t) (dirOnly t) (fullPathPrefix t) (level t).
Definition set_NDirs (t : TreeFS) (v : Z) : TreeFS :=
  mkTreeFS (fsys t) (tree t) (pathPrefix t) v (NFiles t)
           (hidden t) (dirOnly t) (fullPathPrefix t) (level t).
Definition set_NFiles (t : TreeFS) (v : Z) : TreeFS :=
  mkTreeFS (fsys t) (tree t) (pathPrefix t) (NDirs t) v
           (hidden t) (dirOnly t) (fullPathPrefix t) (level t).
Definition set_hidden (t : TreeFS) (v : bool) : TreeFS :=
  mkTreeFS (fsys t) (tree t) (pathPrefix t) (NDirs t) (NFiles t)
           v (dirOnly t) (fullPathPrefix t) (level t).
Definition set_dirOnly (t : TreeFS) (v : bool) : TreeFS :=
  mkTreeFS (fsys t) (tree t) (pathPrefix t) (NDirs t) (NFiles t)
           (hidden t) v (fullPathPrefix t) (level t).
Definition set_fullPathPrefix (t : TreeFS) (v : bool) : TreeFS :=
  mkTreeFS (fsys t) (tree t) (pathPrefix t) (NDirs t) (NFiles t)
           (hidden t) (dirOnly t) v (level t).
Definition set_level (t : TreeFS) (v : Z) : TreeFS :=
  mkTreeFS (fsys t) (tree t) (pathPrefix t) (NDirs t) (NFiles t)
           (hidden t) (dirOnly t) (fullPathPrefix t) v.

(** ** Options: an [Opt] is a function mutating the [TreeFS] it is given *)

Definition Opt : Type := TreeFS -> TreeFS.

Definition Hidden : Opt := fun t => set_hidden t true.
Definition DirOnly : Opt := fun t => set_dirOnly t true.
Definition FullPathPrefix : Opt := fun t => set_fullPathPrefix t true.

Definition Level (lvl : Z) : Opt :=
  fun tfs =>
    (* Ignore if lvl <= 0. *)
    if lvl <=? 0 then tfs else set_level tfs lvl.

(** The options the package exports; the argument of [Level] is a Go [int]. *)
Inductive package_opt : Opt -> Prop :=
| opt_Hidden : package_opt Hidden
| opt_DirOnly : package_opt DirOnly
| opt_FullPathPrefix : package_opt FullPathPrefix
| opt_Level (lvl : Z) : GoInt.in_range lvl -> package_opt (Level lvl).

(** ** Stringers *)

Definition TreeFS_Graph (t : TreeFS) : string := strings_Join (tree t) nl.

Definition TreeFS_Meta (t : TreeFS) : string :=
  let dirs := if NDirs t =? 1 then "directory" else "directories" in
  if dirOnly t then itoa (NDirs t) ++ " " ++ dirs
  else
    let files := if NFiles t =? 1 then "file" else "files" in
    itoa (NDirs t) ++ " " ++ dirs ++ ", " ++ itoa (NFiles t) ++ " " ++ files.

Definition TreeFS_String (t : TreeFS) : string :=
  TreeFS_Graph t ++ nl ++ nl ++ TreeFS_Meta t.

(** ** Filter and line formatting *)

Definition allow (t : TreeFS) (entry : DirEntry) : bool :=
  let name := Name entry in
  let isHidden :=
    HasPrefix name "." && negb (name =? ".")%string && negb (name =? "...")%string in
  if isHidden && negb (hidden t) then false
  else if dirOnly t && negb (IsDir entry) then false
  else true.

Definition append (t : TreeFS) (prefix connector dirPath name : string) : TreeFS :=
  if negb (fullPathPrefix t) then
    let line := prefix ++ connector ++ " " ++ name in
    set_tree t (tree t ++ [line])%list
  else if negb (pathPrefix t =? "")%string then
    let line := prefix ++ connector ++ " " ++ pathPrefix t ++ "/"
                       ++ path.Join [dirPath; name] in
    set_tree t (tree t ++ [line])%list
  else
    let line := prefix ++ connector ++ " " ++ path.Join [dirPath; name] in
    set_tree t (tree t ++ [line])%list.

(** ** The walk

    A call yields [None] when it does not return (the recursion budget
    [fuel] is exhausted, or the nil filesystem is dereferenced); otherwise
    the mutated [TreeFS] and Go's [err] ([None] for [nil]). *)
Definition outcome : Type := option (TreeFS * option error).

Module addDirArgs.
Record t : Type := mk {
  path : string; name : string;
  idx : Z; numFiles : Z; lvl : Z;
  prefix : string; connector : string
}.
End addDirArgs.

Definition walker : Type := TreeFS -> string -> string -> Z -> outcome.

Definition addDir (treeFSWithPrefix : walker) (tfs : TreeFS)
           (args : addDirArgs.t) : outcome :=
  let tfs := append tfs (addDirArgs.prefix args) (addDirArgs.connector args)
                    (addDirArgs.path args) (addDirArgs.name args) in
  let prefix :=
    if negb (addDirArgs.idx args =? GoInt.sub (addDirArgs.numFiles args) 1)
    then addDirArgs.prefix args ++ pipePrefix
    else addDirArgs.prefix args ++ spacePrefix in
  treeFSWithPrefix tfs
    (path.Join [addDirArgs.path args; addDirArgs.name args])
    prefix (GoInt.add (addDirArgs.lvl args) 1).

(** [for i, entry := range entries { ... }], from index [i] on. *)
Fixpoint rangeEntries (treeFSWithPrefix : walker) (name prefix : string)
         (lvl numEntries : Z) (i : Z) (entries : list DirEntry)
         (tfs : TreeFS) : outcome :=
  match entries with
  | [] => Some (tfs, None)
  | entry :: rest =>
      if negb (allow tfs entry) then
        rangeEntries treeFSWithPrefix name prefix lvl numEntries (i + 1) rest tfs
      else
        let connector :=
          if i =? GoInt.sub numEntries 1 then elbowConnector else teeConnector in
        if IsDir entry then
          let tfs := set_NDirs tfs (GoInt.add (NDirs tfs) 1) in
          match addDir treeFSWithPrefix tfs
                  (addDirArgs.mk name (Name entry) i numEntries lvl prefix connector)
          with
          | None => None
          | Some (tfs, Some err) => Some (tfs, Some err)
          | Some (tfs, None) =>
              rangeEntries treeFSWithPrefix name prefix lvl numEntries (i + 1) rest tfs
          end
        else
          let tfs := set_NFiles tfs (GoInt.add (NFiles tfs) 1) in
          rangeEntries treeFSWithPrefix name prefix lvl numEntries (i + 1) rest
                       (append tfs prefix connector name (Name entry))
  end.

Definition treeFSWithPrefix_body (self : walker) : walker :=
  fun tfs name prefix lvl =>
    (* Return if max level has been set and reached. *)
    if (0 <? level tfs) && (lvl =? level tfs) then Some (tfs, None)
    else
      match fsys tfs with
      | None => None
      | Some fsys =>
          match ReadDir fsys name with
          | inr err => Some (tfs, Some err)
          | inl entries =>
              rangeEntries self name prefix lvl (len entries) 0 entries tfs
          end
      end.

Fixpoint treeFSWithPrefix (fuel : nat) : walker :=
  match fuel with
  | O => fun _ _ _ _ => None
  | S fuel' => treeFSWithPrefix_body (treeFSWithPrefix fuel')
  end.

(** ** Constructors *)

(** [for _, opt := range opts { opt(&tfs) }] *)
Definition applyOpts (opts : list Opt) (tfs : TreeFS) : TreeFS :=
  fold_left (fun t (opt : Opt) => opt t) opts tfs.

Definition New (fuel : nat) (fsys : FS) (name : string) (opts : list Opt) : outcome :=
  let tfs := mkTreeFS (Some fsys) [name] "" 0 0 false false false 0 in
  let tfs := applyOpts opts tfs in
  let '(tfs, name) :=
    if Contains name "../" || (name =? ".")%string
    then (set_pathPrefix tfs name, ".")
    else (tfs, name) in
  treeFSWithPrefix fuel tfs name "" 0.

Record Arg : Type := mkArg { Fsys : FS; Arg_Name : string; Opts : list Opt }.

(** [for _, arg := range args { ... }] with the aggregate [tfs] so far. *)
Fixpoint NewMulti_loop (fuel : nat) (args : list Arg) (tfs : TreeFS) : outcome :=
  match args with
  | [] => Some (tfs, None)
  | arg :: rest =>
      match New fuel (Fsys arg) (Arg_Name arg) (Opts arg) with
      | None => None
      | Some (_, Some err) => Some (tfs, Some err)
      | Some (tfs2, None) =>
          let tfs := set_tree tfs (tree tfs ++ tree tfs2)%list in
          let tfs := set_NDirs tfs (GoInt.add (NDirs tfs) (NDirs tfs2)) in
          let tfs := set_NFiles tfs (GoInt.add (NFiles tfs) (NFiles tfs2)) in
          NewMulti_loop fuel rest tfs
      end
  end.

Definition NewMulti (fuel : nat) (args : list Arg) : outcome :=
  NewMulti_loop fuel args zeroTreeFS.

(** ** Package-level entry points: a string and Go's [err] *)




(** ** The command of examples/multi/main.go

    The parsed flags, the operands ([flag.Args()]) and [os.DirFS] are the
    inputs; the result is how the process ended and what it wrote. *)
Module multi.

(** The package-level variables the flags are parsed into:
    [-a], [-d], [-f] and [-L] (default [-1]). *)
Record flags : Type := mkFlags {
  hidden : bool;
  dirOnly : bool;
  fullFilePath : bool;
  maxDepthLevel : Z
}.

Inductive process : Type :=
| Panicked
| Exited (code : Z) (stdout stderr : string).

(** [var opts []treefs.Opt] and the appends that follow it. *)
Definition options (fl : flags) : list Opt :=
  let opts := [] in
  let opts := if hidden fl then (opts ++ [Hidden])%list else opts in
  let opts := if dirOnly fl then (opts ++ [DirOnly])%list else opts in
  let opts := if fullFilePath fl then (opts ++ [FullPathPrefix])%list else opts in
  (* Level is idempotent if maxDepthLevel is less than zero (default). *)
  (opts ++ [Level (maxDepthLevel fl)])%list.

Definition main (fuel : nat) (DirFS : string -> FS) (fl : flags)
           (args : list string) : option process :=
  if len args <? 1 then
    (* the argument [args[0]] of [Fprintf] is evaluated first *)
    match nth_error args 0 with
    | None => Some Panicked
    | Some a0 => Some (Exited 1 "" (a0 ++ " [-adfL] [directory ...]" ++ nl))
    end
  else
    let opts := options fl in
    let tfsArgs := map (fun d => mkArg (DirFS d) d opts) args in
    match NewMulti fuel tfsArgs with
    | None => None
    | Some (_, Some err) => Some (Exited 1 "" (Error err ++ nl))
    | Some (tfs, None) => Some (Exited 0 (TreeFS_String tfs ++ nl) "")
    end.

End multi.

(** * Vocabulary of the properties *)

(** ** Counters *)

(** [n] successive [x++]. *)
Definition bumpN (n : nat) (x : Z) : Z := Nat.iter n (fun y => GoInt.add y 1) x.

Definition sumZ (l : list Z) : Z := fold_right Z.add 0 l.

(** ** What one displayed entry does to the accumulator *)

(** The configuration fields, which the walk never writes. *)
Definition same_cfg (t t' : TreeFS) : Prop :=
  fsys t' = fsys t /\ pathPrefix t' = pathPrefix t /\ hidden t' = hidden t /\
  dirOnly t' = dirOnly t /\ fullPathPrefix t' = fullPathPrefix t /\
  level t' = level t.

(** The name shown for entry [name] of directory [dirPath]. *)
Definition displayed (t : TreeFS) (dirPath name : string) : string :=
  if negb (fullPathPrefix t) then name
  else if negb (pathPrefix t =? "")%string
       then pathPrefix t ++ "/" ++ path.Join [dirPath; name]
       else path.Join [dirPath; name].

(** [fmt.Sprintf("%s%s %s", prefix, connector, shown)] *)
Definition entryLine (t : TreeFS) (prefix connector dirPath name : string) : string :=
  prefix ++ connector ++ " " ++ displayed t dirPath name.

(** The counter increment of a displayed entry. *)
Definition bump (t : TreeFS) (e : DirEntry) : TreeFS :=
  if IsDir e then set_NDirs t (GoInt.add (NDirs t) 1)
  else set_NFiles t (GoInt.add (NFiles t) 1).

(** ** Displayed items

    An item records one displayed entry: the prefix and connector it was
    drawn with, the directory it was listed in, how many directories below
    the walk root that directory lies, the index of the entry in the
    listing of that directory, and the entry itself. *)
Record item : Type := mkItem {
  it_prefix : string; it_connector : string;
  it_dir : string; it_depth : nat; it_index : nat; it_entry : DirEntry
}.

(** The connector of the entry at index [i] of a listing of [n] entries,
    and the segment its children's prefix is extended with. *)
Definition connectorAt (i n : Z) : string :=
  if i =? GoInt.sub n 1 then elbowConnector else teeConnector.

Definition continuationAt (i n : Z) : string :=
  if negb (i =? GoInt.sub n 1) then pipePrefix else spacePrefix.

Definition line (t : TreeFS) (it : item) : string :=
  entryLine t (it_prefix it) (it_connector it) (it_dir it) (Name (it_entry it)).

(** The path of the entry itself, as the walk passes it to [fs.ReadDir]. *)
Definition it_path (it : item) : string :=
  path.Join [it_dir it; Name (it_entry it)].

Definition ndirs (items : list item) : nat :=
  List.length (filter (fun it => IsDir (it_entry it)) items).
Definition nfiles (items : list item) : nat :=
  List.length (filter (fun it => negb (IsDir (it_entry it))) items).

(** [reaches f t root k dir prefix]: [dir] is obtained from [root] by
    joining the names of [k] directory entries, each listed by [f] in the
    directory before it and each passing the filter of [t]; [prefix] is the
    prefix its entries are drawn with, one segment per directory passed,
    chosen by the index of that directory in its listing. *)
Inductive reaches (f : FS) (t : TreeFS) (root : string)
  : nat -> string -> string -> Prop :=
| reaches_root : reaches f t root 0 root ""
| reaches_child k dir prefix entries i e :
    reaches f t root k dir prefix ->
    ReadDir f dir = inl entries -> nth_error entries i = Some e ->
    IsDir e = true -> allow t e = true ->
    reaches f t root (S k) (path.Join [dir; Name e])
            (prefix ++ continuationAt (Z.of_nat i) (len entries)).

(** The same descent read from its start: from the directory [d], [k]
    below the root and drawn with the prefix [pf], down to [d']. *)
Inductive descent (f : FS) (t : TreeFS)
  : nat -> string -> string -> nat -> string -> string -> Prop :=
| descent_here k d pf : descent f t k d pf k d pf
| descent_into k d pf entries i e k' d' pf' :
    ReadDir f d = inl entries -> nth_error entries i = Some e ->
    IsDir e = true -> allow t e = true ->
    descent f t (S k) (path.Join [d; Name e])
            (pf ++ continuationAt (Z.of_nat i) (len entries)) k' d' pf' ->
    descent f t k d pf k' d' pf'.

(** The walk lists the contents of a displayed entry when it is a directory
    that is not at the depth limit. *)
Definition descends (t : TreeFS) (it : item) : Prop :=
  IsDir (it_entry it) = true /\
  ~ (0 < level t /\ Z.of_nat (S (it_depth it)) = level t).

(** Listing [p] succeeds, or fails with the very error [err]. *)
Definition listed (f : FS) (err : option error) (p : string) : Prop :=
  match ReadDir f p with
  | inl _ => True
  | inr e => err = Some e
  end.

Definition item_ok (f : FS) (root : string) (err : option error)
           (t : TreeFS) (it : item) : Prop :=
  allow t (it_entry it) = true /\
  reaches f t root (it_depth it) (it_dir it) (it_prefix it) /\
  (exists entries,
      ReadDir f (it_dir it) = inl entries /\
      nth_error entries (it_index it) = Some (it_entry it) /\
      it_connector it = connectorAt (Z.of_nat (it_index it)) (len entries)) /\
  (0 < level t -> Z.of_nat (it_depth it) < level t) /\
  (descends t it -> listed f err (it_path it)).

(** [renders f root err t t']: [t'] is [t] after displaying some items, one
    line and one counter increment each, in a walk that returned [err]. *)
Definition renders (f : FS) (root : string) (err : option error)
           (t t' : TreeFS) : Prop :=
  same_cfg t t' /\
  exists items,
    tree t' = (tree t ++ map (line t) items)%list /\
    NDirs t' = bumpN (ndirs items) (NDirs t) /\
    NFiles t' = bumpN (nfiles items) (NFiles t) /\
    Forall (item_ok f root err t) items.

(** ** What the walk guarantees *)

Definition err_origin (f : FS) (t : TreeFS) (root : string)
           (err : option error) : Prop :=
  forall e, err = Some e ->
    exists k p pf, reaches f t root k p pf /\ ReadDir f p = inr e.

(** With the depth limit enabled the counter [lvl] is the depth [k], it has
    not passed the limit, and the limit is a Go [int]. *)
Definition depth_ok (L : Z) (k : nat) (lvl : Z) : Prop :=
  0 < L -> lvl = Z.of_nat k /\ lvl <= L /\ L < 2 ^ 63.

Definition walker_ok (f : FS) (root : string) (self : walker) : Prop :=
  forall t name prefix lvl k t' err,
    fsys t = Some f -> reaches f t root k name prefix ->
    depth_ok (level t) k lvl ->
    self t name prefix lvl = Some (t', err) ->
    renders f root err t t' /\ err_origin f t root err /\
    (~ (0 < level t /\ lvl = level t) -> listed f err name).

(** [bounded f t h p]: the directories below [p] that pass the filter of
    [t] nest fewer than [h] deep (a directory that fails to list ends the
    nesting).  These are the paths on which Go's recursion comes back. *)
Inductive bounded (f : FS) (t : TreeFS) : nat -> string -> Prop :=
| bounded_fail h p e :
    ReadDir f p = inr e -> bounded f t (S h) p
| bounded_list h p entries :
    ReadDir f p = inl entries ->
    (forall e, In e entries -> IsDir e = true -> allow t e = true ->
               bounded f t h (path.Join [p; Name e])) ->
    bounded f t (S h) p.

(** ** What [New] hands to the walk *)

(** Whether [New] replaces the root name by ["."]. *)
Definition substituted (name : string) : bool :=
  Contains name "../" || (name =? ".")%string.

(** The name [New] lists first. *)
Definition walkRoot (name : string) : string :=
  if substituted name then "." else name.

(** The accumulator [New] starts the walk with. *)
Definition New_init (f : FS) (name : string) (opts : list Opt) : TreeFS :=
  let tfs := applyOpts opts (mkTreeFS (Some f) [name] "" 0 0 false false false 0) in
  if substituted name then set_pathPrefix tfs name else tfs.

(** The exported options write the option fields only and keep the limit a
    non-negative [int]. *)
Definition opts_frame (t t' : TreeFS) : Prop :=
  fsys t' = fsys t /\ tree t' = tree t /\ pathPrefix t' = pathPrefix t /\
  NDirs t' = NDirs t /\ NFiles t' = NFiles t /\
  (0 <= level t < 2 ^ 63 -> 0 <= level t' < 2 ^ 63) /\
  (dirOnly t = true -> dirOnly t' = true).

(** Argument [a] renders successfully, with report [r]. *)
Definition renders_to (fuel : nat) (a : Arg) (r : TreeFS) : Prop :=
  New fuel (Fsys a) (Arg_Name a) (Opts a) = Some (r, None).

(** ** Names *)

(** A name without a slash. *)
Fixpoint noSlash (n : string) : bool :=
  match n with
  | EmptyString => true
  | String c r => negb (path.isSlash c) && noSlash r
  end.

(** An entry name proper: not empty, no slash, neither marker. *)
Definition plainName (n : string) : bool :=
  negb (n =? "")%string && negb (n =? ".")%string && negb (n =? "..")%string
  && noSlash n.

(** The slash-separated path of the names [segs]. *)
Definition joined (segs : list string) : string := String.concat "/" segs.

(** The path [segs] leads to from the current directory. *)
Definition pathOf (segs : list string) : string :=
  match segs with
  | [] => "."
  | _ => joined segs
  end.

(** The reading of "contains a parent-reference segment": split at the
    slashes, the name has a [..] segment. *)
Fixpoint splitSlash (s cur : string) : list string :=
  match s with
  | EmptyString => [cur]
  | String c r =>
      if path.isSlash c then cur :: splitSlash r ""
      else splitSlash r (cur ++ String c "")
  end.

Definition hasParentSegment (name : string) : bool :=
  existsb (String.eqb "..") (splitSlash name "").

(** ** File systems for examples

    A file system given by the table of its directory listings, in the
    manner of the map-backed file systems of [treefs_test.go]; a path that
    is not in the table fails to list. *)

Fixpoint lookupDir (tbl : list (string * list DirEntry)) (p : string)
  : option (list DirEntry) :=
  match tbl with
  | [] => None
  | (k, v) :: tbl' => if (k =? p)%string then Some v else lookupDir tbl' p
  end.

Definition listingFS (tbl : list (string * list DirEntry)) : FS :=
  fun p =>
    match lookupDir tbl p with
    | Some entries => inl entries
    | None => inr (mkError ("open " ++ p ++ ": file does not exist"))
    end.

Definition file (n : string) : DirEntry := mkEntry n false.
Definition dir (n : string) : DirEntry := mkEntry n true.

(** The tree of [TestTreeFSWithMapFS], case ["."]. *)
Definition mapfs_plain : FS :=
  listingFS
    [ (".", [file "a1.test"; file "a2.test"; file "a3.test"; dir "b"; dir "c"]);
      ("b", [file "b1.test"; file "b2.test"; file "b3.test"; dir "d"]);
      ("b/d", [file "d1.test"]);
      ("c", [file "c1.test"; file "c2.test"]) ].

(** The tree of [TestTreeFSWithMapFS], case ["level=2"]. *)
Definition mapfs_deep : FS :=
  listingFS
    [ (".", [dir "a"]);
      ("a", [file "a1.test"; file "a2.test"; file "a3.test"; dir "b"]);
      ("a/b", [file "b1.test"; file "b2.test"; dir "d"]);
      ("a/b/d", [file "d1.test"; file "d2.test"]) ].

(** A root holding hidden files only. *)
Definition fs_hidden_only : FS :=
  listingFS [ (".", [file ".git"; file ".profile"]) ].

(** A directory [b] followed by a file [z]; [b] holds a directory [c]. *)
Definition fs_dir_then_file : FS :=
  listingFS [ (".", [dir "b"; file "z"]); ("b", [dir "c"]); ("b/c", []) ].


(** A listing that carries the markers themselves, as a remote or archive
    file system may. *)
Definition fs_with_markers : FS :=
  listingFS [ (".", [file "."; dir ".."; file "..."; file "a"]);
              ("..", [file "up"]) ].

(** Different listings for ["."] and [".."]. *)
Definition fs_parent : FS :=
  listingFS [ (".", [file "here"]); ("..", [file "up"]) ].

(** The report of a returned render, or the zero value. *)
Definition report (o : outcome) : TreeFS :=
  match o with
  | Some (t, _) => t
  | None => zeroTreeFS
  end.

(** ** Runs compared

    Two accumulators agree on what the walk reads: the file system, the
    filter flags, the limit, and, where full paths are drawn, the recorded
    root name. *)
Definition cfg_sim (t1 t2 : TreeFS) : Prop :=
  fsys t1 = fsys t2 /\ hidden t1 = hidden t2 /\ dirOnly t1 = dirOnly t2 /\
  fullPathPrefix t1 = fullPathPrefix t2 /\ level t1 = level t2 /\
  (fullPathPrefix t1 = true -> pathPrefix t1 = pathPrefix t2).

(** Two runs, from [t1] to [t1'] and from [t2] to [t2'], appended the same
    lines and made the same number of counter increments. *)
Definition same_delta (t1 t1' t2 t2' : TreeFS) : Prop :=
  exists (lines : list string) (d n : nat),
    tree t1' = (tree t1 ++ lines)%list /\ tree t2' = (tree t2 ++ lines)%list /\
    NDirs t1' = bumpN d (NDirs t1) /\ NDirs t2' = bumpN d (NDirs t2) /\
    NFiles t1' = bumpN n (NFiles t1) /\ NFiles t2' = bumpN n (NFiles t2).

(** Two outcomes agree: neither call returns, or both return the same error
    after the same additions. *)
Definition sim_outcome (t1 t2 : TreeFS) (o1 o2 : outcome) : Prop :=
  match o1, o2 with
  | Some (t1', e1), Some (t2', e2) =>
      e1 = e2 /\ same_cfg t1 t1' /\ same_cfg t2 t2' /\ same_delta t1 t1' t2 t2'
  | None, None => True
  | _, _ => False
  end.

(** A walker whose result does not depend on what was accumulated. *)
Definition walker_sim (self : walker) : Prop :=
  forall t1 t2 name prefix lvl,
    cfg_sim t1 t2 ->
    sim_outcome t1 t2 (self t1 name prefix lvl) (self t2 name prefix lvl).

(** The items of one listing: its entries that pass the filter, in listing
    order, each with its index in the listing, the connector of that index
    and the common prefix. *)
Fixpoint levelItems (t : TreeFS) (dir prefix : string) (depth : nat) (n : Z)
         (i : nat) (entries : list DirEntry) : list item :=
  match entries with
  | [] => []
  | e :: rest =>
      ((if allow t e
        then [mkItem prefix (connectorAt (Z.of_nat i) n) dir depth i e]
        else []) ++ levelItems t dir prefix depth n (S i) rest)%list
  end.

(** A file system that nests without end: every path lists one directory. *)
Definition fs_endless : FS := fun _ => inl [dir "again"].

(** [os.DirFS] of directories that each hold one file [readme]: every
    such file system lists ["."] and nothing else. *)
Definition dirfs_leaf : string -> FS :=
  fun _ => listingFS [ (".", [file "readme"]) ].

(** [os.DirFS] where the directory [lost] cannot be read. *)
Definition dirfs_lost : string -> FS :=
  fun d => if (d =? "../lost")%string
           then (fun p => inr (mkError ("open " ++ p ++ ": permission denied")))
           else mapfs_plain.

(** Two accumulators that differ in lines, counters and recorded name only. *)
Definition opt_fields_eq (t1 t2 : TreeFS) : Prop :=
  fsys t1 = fsys t2 /\ hidden t1 = hidden t2 /\ dirOnly t1 = dirOnly t2 /\
  fullPathPrefix t1 = fullPathPrefix t2 /\ level t1 = level t2.

(** The accumulator with its lines and counters reset. *)
Definition clearAcc (t : TreeFS) : TreeFS :=
  set_NFiles (set_NDirs (set_tree t []) 0) 0.

(** What the walk appends for the entry [e], the [i]-th of the [n] entries
    of the directory [name]: nothing when the filter drops it, its line when
    it is a file, its line and then the lines of its own walk when it is a
    directory. *)
Definition entryBlock (fuel : nat) (t : TreeFS) (name prefix : string) (lvl n : Z)
           (ie : nat * DirEntry) (block : list string) : Prop :=
  let (i, e) := ie in
  let own := entryLine t prefix (connectorAt (Z.of_nat i) n) name (Name e) in
  if allow t e then
    if IsDir e then
      exists d,
        treeFSWithPrefix fuel (clearAcc t) (path.Join [name; Name e])
                         (prefix ++ continuationAt (Z.of_nat i) n) (GoInt.add lvl 1)
        = Some (d, None) /\ block = own :: tree d
    else block = [own]
  else block = [].

(** ** The walk as a function of the file system

    [walkItems] is the traversal the specification describes, without the
    accumulator of the code: depth first, each listing in the order the
    file system returns it, the filter applied to every entry, no listing
    at the depth limit, and a stop at the first listing error.  From the
    file system and the options alone it gives the entries displayed, in
    the order they are displayed, and the error the traversal stops at;
    [None] when the recursion budget is exhausted.  The walk of the code is
    compared with it. *)
Definition itemsResult : Type := option (list item * option error).

(** The entries of one listing, from index [i] on; [sub] is the traversal of
    a subdirectory. *)
Fixpoint entriesItems (sub : string -> string -> itemsResult) (t : TreeFS)
         (dir prefix : string) (depth : nat) (n : Z) (i : nat)
         (entries : list DirEntry) : itemsResult :=
  match entries with
  | [] => Some ([], None)
  | e :: rest =>
      if allow t e then
        let it := mkItem prefix (connectorAt (Z.of_nat i) n) dir depth i e in
        let below :=
          if IsDir e
          then sub (path.Join [dir; Name e])
                   (prefix ++ continuationAt (Z.of_nat i) n)
          else Some ([], None) in
        match below with
        | None => None
        | Some (inside, Some err) => Some (it :: inside, Some err)
        | Some (inside, None) =>
            match entriesItems sub t dir prefix depth n (S i) rest with
            | None => None
            | Some (more, err) => Some (((it :: inside) ++ more)%list, err)
            end
        end
      else entriesItems sub t dir prefix depth n (S i) rest
  end.

Fixpoint walkItems (fuel : nat) (f : FS) (t : TreeFS) (dir prefix : string)
         (depth : nat) : itemsResult :=
  match fuel with
  | O => None
  | S fuel' =>
      if (0 <? level t) && (Z.of_nat depth =? level t) then Some ([], None)
      else
        match ReadDir f dir with
        | inr err => Some ([], Some err)
        | inl entries =>
            entriesItems (fun d p => walkItems fuel' f t d p (S depth))
                         t dir prefix depth (len entries) 0 entries
        end
  end.

(** [ta'] is [ta] after the lines and counter increments of [items]. *)
Definition appended (t ta ta' : TreeFS) (items : list item) : Prop :=
  tree ta' = (tree ta ++ map (line t) items)%list /\
  NDirs ta' = bumpN (ndirs items) (NDirs ta) /\
  NFiles ta' = bumpN (nfiles items) (NFiles ta).

(** The outcome [o] of the code, started on the accumulator [ta], is what
    the traversal [r] says: both do not return, or both return the same
    error and the code has appended the entries of [r]. *)
Definition refines (t ta : TreeFS) (o : outcome) (r : itemsResult) : Prop :=
  match o, r with
  | Some (ta', err), Some (items, err') =>
      err = err' /\ same_cfg ta ta' /\ appended t ta ta' items
  | None, None => True
  | _, _ => False
  end.

(** The entry of an item where the file system lists it: the directory of
    the item is reached from [root] through as many directories as the depth
    of the item says, with the prefix of the item; the entry passes the
    filter and stands at the index of the item in the listing of that
    directory, which also fixes its connector; under a limit the item lies
    above it. *)
Definition item_listed (f : FS) (root : string) (t : TreeFS) (it : item) : Prop :=
  allow t (it_entry it) = true /\
  reaches f t root (it_depth it) (it_dir it) (it_prefix it) /\
  (exists entries,
      ReadDir f (it_dir it) = inl entries /\
      nth_error entries (it_index it) = Some (it_entry it) /\
      it_connector it = connectorAt (Z.of_nat (it_index it)) (len entries)) /\
  (0 < level t -> Z.of_nat (it_depth it) < level t).

(** ** A render against the render with other options *)

(** The item lies fewer than [L] directories below the root. *)
Definition shallow (L : Z) (it : item) : bool := Z.of_nat (it_depth it) <? L.

(** The entry of the item passes the filter of [t2]. *)
Definition kept (t2 : TreeFS) (it : item) : bool := allow t2 (it_entry it).

(** The item is a directory. *)
Definition isDirItem (it : item) : bool := IsDir (it_entry it).

(** The names [segs] are directories nested in one another from the path
    [base] down: each is a directory entry in the listing of the path
    before it. *)
Fixpoint nested (f : FS) (base segs : list string) : Prop :=
  match segs with
  | [] => True
  | s :: rest =>
      (exists entries e,
          ReadDir f (pathOf base) = inl entries /\ In e entries /\
          Name e = s /\ IsDir e = true) /\
      nested f (base ++ [s]) rest
  end.

(** * Properties *)

(** ** Proof steps *)

(** Entering [addDir]: unfold it and read the fields of its argument. *)
Ltac step_addDir :=
  unfold addDir;
  cbn [addDirArgs.prefix addDirArgs.connector addDirArgs.path addDirArgs.name
       addDirArgs.idx addDirArgs.numFiles addDirArgs.lvl].

Ltac step_addDir_in H :=
  unfold addDir in H;
  cbn [addDirArgs.prefix addDirArgs.connector addDirArgs.path addDirArgs.name
       addDirArgs.idx addDirArgs.numFiles addDirArgs.lvl] in H.

(** ** Wrap-around arithmetic *)

Lemma wrap_in_range (x : Z) : GoInt.in_range (GoInt.wrap x).
Proof.
  unfold GoInt.in_range, GoInt.wrap.
  pose proof (Z.mod_pos_bound (x + 2 ^ 63) (2 ^ 64) ltac:(lia)). lia.
Qed.

Lemma wrap_small (x : Z) : GoInt.in_range x -> GoInt.wrap x = x.
Proof.
  unfold GoInt.in_range, GoInt.wrap. intros H.
  rewrite Z.mod_small; lia.
Qed.

Lemma wrap_add_l (a b : Z) : GoInt.wrap (GoInt.wrap a + b) = GoInt.wrap (a + b).
Proof.
  unfold GoInt.wrap.
  replace ((a + 2 ^ 63) mod 2 ^ 64 - 2 ^ 63 + b + 2 ^ 63)
    with ((a + 2 ^ 63) mod 2 ^ 64 + b) by lia.
  rewrite Zplus_mod_idemp_l. f_equal. f_equal. lia.
Qed.

Lemma bumpN_add (n m : nat) (x : Z) : bumpN (n + m) x = bumpN m (bumpN n x).
Proof.
  unfold bumpN. rewrite Nat.add_comm. apply Nat.iter_add.
Qed.

Lemma bumpN_S (n : nat) (x : Z) : bumpN (S n) x = bumpN n (GoInt.add x 1).
Proof.
  replace (S n) with (1 + n)%nat by lia. rewrite bumpN_add. reflexivity.
Qed.

Lemma bumpN_wrap (n : nat) (x : Z) :
  GoInt.in_range x -> bumpN n x = GoInt.wrap (x + Z.of_nat n).
Proof.
  revert x. induction n as [|n IH]; intros x Hx.
  - cbn [bumpN Nat.iter]. rewrite Z.add_0_r. symmetry. now apply wrap_small.
  - rewrite bumpN_S, IH by apply wrap_in_range.
    unfold GoInt.add. rewrite wrap_add_l. f_equal. lia.
Qed.

Lemma bumpN_exact (n : nat) (x : Z) :
  0 <= x -> x + Z.of_nat n < 2 ^ 63 -> bumpN n x = x + Z.of_nat n.
Proof.
  intros Hx Hn. rewrite bumpN_wrap by (unfold GoInt.in_range; lia).
  apply wrap_small. unfold GoInt.in_range. lia.
Qed.

(** ** What one displayed entry does to the accumulator *)

Lemma same_cfg_refl t : same_cfg t t.
Proof. repeat split. Qed.

Lemma same_cfg_sym a b : same_cfg a b -> same_cfg b a.
Proof. unfold same_cfg. intuition congruence. Qed.

Lemma same_cfg_trans a b c : same_cfg a b -> same_cfg b c -> same_cfg a c.
Proof. unfold same_cfg. intuition congruence. Qed.

Lemma same_cfg_allow t t' e : same_cfg t t' -> allow t' e = allow t e.
Proof.
  intros (_ & _ & Hh & Hd & _). unfold allow. now rewrite Hh, Hd.
Qed.

Lemma append_tree t prefix connector dirPath name :
  tree (append t prefix connector dirPath name) =
  (tree t ++ [entryLine t prefix connector dirPath name])%list.
Proof.
  unfold append, entryLine, displayed.
  destruct (negb (fullPathPrefix t)); [reflexivity|].
  destruct (negb (pathPrefix t =? "")%string); reflexivity.
Qed.

Lemma append_fields t prefix connector dirPath name :
  same_cfg t (append t prefix connector dirPath name) /\
  NDirs (append t prefix connector dirPath name) = NDirs t /\
  NFiles (append t prefix connector dirPath name) = NFiles t.
Proof.
  unfold append, same_cfg.
  destruct (negb (fullPathPrefix t)); [cbn; tauto|].
  destruct (negb (pathPrefix t =? "")%string); cbn; tauto.
Qed.

Lemma ndirs_nfiles items : (ndirs items + nfiles items = List.length items)%nat.
Proof.
  unfold ndirs, nfiles. induction items as [|it items IH]; [reflexivity|].
  cbn [filter]. destruct (IsDir (it_entry it)); cbn [negb List.length]; lia.
Qed.

Lemma ndirs_app a b : ndirs (a ++ b)%list = (ndirs a + ndirs b)%nat.
Proof. unfold ndirs. now rewrite filter_app, length_app. Qed.

Lemma nfiles_app a b : nfiles (a ++ b)%list = (nfiles a + nfiles b)%nat.
Proof. unfold nfiles. now rewrite filter_app, length_app. Qed.

Lemma reaches_same_cfg f t t' root k dir prefix :
  same_cfg t t' -> reaches f t' root k dir prefix -> reaches f t root k dir prefix.
Proof.
  intros Hc H. induction H as [|k dir prefix entries i e H IH Hl Hin Hd Ha].
  - constructor.
  - econstructor; eauto. now rewrite <- (same_cfg_allow _ _ _ Hc).
Qed.

Lemma line_same_cfg t t' it : same_cfg t t' -> line t' it = line t it.
Proof.
  intros (_ & Hp & _ & _ & Hf & _). unfold line, entryLine, displayed.
  now rewrite Hp, Hf.
Qed.

Lemma item_ok_same_cfg f root err t t' it :
  same_cfg t t' -> item_ok f root err t' it -> item_ok f root err t it.
Proof.
  intros Hc (Ha & Hr & He & Hl & Hd).
  pose proof Hc as (_ & _ & _ & _ & _ & Hlv).
  repeat split; auto.
  - now rewrite <- (same_cfg_allow _ _ _ Hc).
  - eapply reaches_same_cfg; eauto.
  - now rewrite <- Hlv.
  - intros (Hdir & Hlim). apply Hd. split; [assumption|]. now rewrite Hlv.
Qed.

(** An item of a walk that went on without error stays in order whatever
    the walk returns in the end. *)
Lemma item_ok_None f root err t it :
  item_ok f root None t it -> item_ok f root err t it.
Proof.
  intros (Ha & Hr & He & Hl & Hd). repeat split; auto.
  intros Hdesc. specialize (Hd Hdesc). unfold listed in *.
  destruct (ReadDir f (it_path it)); [exact I | discriminate].
Qed.

Lemma renders_refl f root err t : renders f root err t t.
Proof.
  split; [apply same_cfg_refl|]. exists []. cbn.
  rewrite app_nil_r. auto.
Qed.

Lemma renders_trans f root err a b c :
  renders f root err a b -> renders f root err b c -> renders f root err a c.
Proof.
  intros (Hab & i1 & Ht1 & Hd1 & Hf1 & Ho1) (Hbc & i2 & Ht2 & Hd2 & Hf2 & Ho2).
  split; [eapply same_cfg_trans; eauto|].
  exists (i1 ++ i2)%list. repeat split.
  - rewrite Ht2, Ht1, map_app, <- app_assoc. do 2 f_equal.
    apply map_ext. intros it. now apply line_same_cfg.
  - now rewrite ndirs_app, bumpN_add, <- Hd1.
  - now rewrite nfiles_app, bumpN_add, <- Hf1.
  - apply Forall_app. split.
    + exact Ho1.
    + eapply Forall_impl; [|exact Ho2]. intros it. now apply item_ok_same_cfg.
Qed.

Lemma renders_None f root err a b :
  renders f root None a b -> renders f root err a b.
Proof.
  intros (Hab & items & Ht & Hd & Hf & Ho). split; [assumption|].
  exists items. repeat split; auto.
  eapply Forall_impl; [|exact Ho]. intros it. apply item_ok_None.
Qed.

Lemma bump_fields t e :
  same_cfg t (bump t e) /\ tree (bump t e) = tree t /\
  NDirs (bump t e) = (if IsDir e then GoInt.add (NDirs t) 1 else NDirs t) /\
  NFiles (bump t e) = (if IsDir e then NFiles t else GoInt.add (NFiles t) 1).
Proof. unfold bump, same_cfg. destruct (IsDir e); cbn; tauto. Qed.

(** Displaying one entry: the counter of its kind, then its line. *)
Lemma renders_one f root err t it :
  item_ok f root err t it ->
  renders f root err t
    (append (bump t (it_entry it)) (it_prefix it) (it_connector it)
            (it_dir it) (Name (it_entry it))).
Proof.
  intros Hok.
  destruct (bump_fields t (it_entry it)) as (Hc & Ht & Hd & Hf).
  destruct (append_fields (bump t (it_entry it)) (it_prefix it) (it_connector it)
                          (it_dir it) (Name (it_entry it))) as (Hc' & Hd' & Hf').
  split; [eapply same_cfg_trans; eauto|].
  exists [it]. repeat split.
  - rewrite append_tree, Ht. cbn [map]. do 2 f_equal.
    change (line (bump t (it_entry it)) it = line t it). now apply line_same_cfg.
  - rewrite Hd', Hd. unfold ndirs. cbn [filter].
    destruct (IsDir (it_entry it)); reflexivity.
  - rewrite Hf', Hf. unfold nfiles. cbn [filter].
    destruct (IsDir (it_entry it)); reflexivity.
  - constructor; auto.
Qed.

Lemma skipn_cons_nth {A : Type} (l : list A) (i : nat) (x : A) (rest : list A) :
  skipn i l = x :: rest -> nth_error l i = Some x /\ skipn (S i) l = rest.
Proof.
  revert l. induction i as [|i IH]; intros [|y l] H; try discriminate.
  - cbn in H. injection H as -> ->. auto.
  - cbn [skipn] in H. destruct (IH l H) as (Hn & Hs). auto.
Qed.

Lemma continuation_prefix (prefix : string) (i n : Z) :
  (if negb (i =? GoInt.sub n 1) then prefix ++ pipePrefix else prefix ++ spacePrefix)
  = prefix ++ continuationAt i n.
Proof. unfold continuationAt. now destruct (i =? GoInt.sub n 1). Qed.

(** ** The walk displays items and reports listing errors

    The central lemma: a call of the walk that returns has displayed a
    sequence of items of listed directories; the error it returns, if any,
    is the error of listing one of the directories it reached; and every
    directory it had to list either listed or made it return that
    directory's error. *)

Section WalkInvariant.

Variable f : FS.
Variable root : string.

Lemma rangeEntries_ok self name prefix lvl k t0 all :
  walker_ok f root self ->
  fsys t0 = Some f ->
  reaches f t0 root k name prefix ->
  ReadDir f name = inl all ->
  depth_ok (level t0) k lvl -> (0 < level t0 -> lvl < level t0) ->
  forall entries i t t' err,
    skipn i all = entries -> same_cfg t0 t ->
    rangeEntries self name prefix lvl (len all) (Z.of_nat i) entries t
      = Some (t', err) ->
    renders f root err t t' /\ err_origin f t0 root err.
Proof.
  intros Hself Hfs0 Hreach Hlist Hdepth Hlt.
  induction entries as [|entry rest IH]; intros i t t' err Hskip Hcfg Hrun.
  - cbn in Hrun. injection Hrun as <- <-. split; [apply renders_refl|].
    intros e He. discriminate.
  - destruct (skipn_cons_nth _ _ _ _ Hskip) as (Hnth & Hrest).
    pose proof Hcfg as (Hfs & _ & _ & _ & _ & HL).
    cbn [rangeEntries] in Hrun.
    replace (Z.of_nat i + 1) with (Z.of_nat (S i)) in Hrun by lia.
    destruct (allow t entry) eqn:Hallow; cbn [negb] in Hrun;
      [|now apply (IH (S i) t)].
    fold (connectorAt (Z.of_nat i) (len all)) in Hrun.
    set (conn := connectorAt (Z.of_nat i) (len all)) in *.
    pose (it := mkItem prefix conn name k i entry).
    assert (Hok : forall e', (descends t it -> listed f e' (it_path it)) ->
                             item_ok f root e' t it).
    { intros e' Hdesc. repeat split; cbn; auto.
      - eapply reaches_same_cfg; [apply same_cfg_sym; exact Hcfg|exact Hreach].
      - exists all. auto.
      - rewrite HL. intros HposL. destruct (Hdepth HposL) as (-> & _). auto. }
    destruct (IsDir entry) eqn:Hdir.
    + step_addDir_in Hrun.
      rewrite continuation_prefix in Hrun.
      assert (Hone : forall e', (descends t it -> listed f e' (it_path it)) ->
                renders f root e' t
                  (append (set_NDirs t (GoInt.add (NDirs t) 1)) prefix conn name
                          (Name entry))).
      { intros e' Hdesc. pose proof (renders_one f root e' t it (Hok e' Hdesc)) as H.
        cbn in H. unfold bump in H. now rewrite Hdir in H. }
      match type of Hrun with
      | match self ?x ?nm ?pf ?lv with _ => _ end = _ =>
          set (t1 := x) in *; set (pf1 := pf) in *;
          assert (Hc1 : same_cfg t t1);
          [|assert (Hsub : forall t2 e, self t1 nm pf1 lv = Some (t2, e) ->
                       renders f root e t1 t2 /\ err_origin f t0 root e /\
                       (descends t it -> listed f e (it_path it)));
            [|destruct (self t1 nm pf1 lv) as [[t2 [e2|]]|] eqn:Hcall]]
      end; try discriminate.
      * subst t1. eapply same_cfg_trans; [|apply append_fields].
        unfold same_cfg. cbn. tauto.
      * intros t2 e Hcall.
        pose proof (same_cfg_trans _ _ _ Hcfg Hc1) as Hc01.
        pose proof Hc01 as (Hf1 & _ & _ & _ & _ & Hl1).
        assert (Hstep : 0 < level t0 ->
                  GoInt.add lvl 1 = Z.of_nat (S k) /\ GoInt.add lvl 1 <= level t0).
        { intros HposL.
          destruct (Hdepth HposL) as (Hk & _ & Hbig). specialize (Hlt HposL).
          unfold GoInt.add. rewrite wrap_small by (unfold GoInt.in_range; lia).
          lia. }
        destruct (Hself t1 (path.Join [name; Name entry]) pf1 (GoInt.add lvl 1)
                        (S k) t2 e) as (Hr & He & Hl); auto.
        -- congruence.
        -- eapply reaches_same_cfg; [apply same_cfg_sym; exact Hc01|].
           subst pf1. eapply reaches_child; eauto.
           now rewrite (same_cfg_allow _ _ _ Hcfg) in Hallow.
        -- rewrite Hl1. intros HposL. destruct (Hstep HposL) as (H1 & H2).
           destruct (Hdepth HposL) as (_ & _ & Hbig). auto.
        -- split; [exact Hr|]. split.
           ++ intros e0 He0. destruct (He e0 He0) as (k0 & p0 & pf0 & Hr0 & Hp0).
              exists k0, p0, pf0. split; [|exact Hp0].
              eapply reaches_same_cfg; eauto.
           ++ intros (_ & Hnlim). apply Hl. intros (Hpos1 & Heq1).
              rewrite Hl1 in Hpos1, Heq1. apply Hnlim. rewrite HL.
              split; [assumption|]. destruct (Hstep Hpos1) as (H1 & _).
              change (it_depth it) with k. congruence.
      * injection Hrun as <- <-.
        destruct (Hsub _ _ eq_refl) as (Hr & He & Hl).
        split; [|exact He].
        eapply renders_trans; [apply Hone; exact Hl | exact Hr].
      * destruct (Hsub _ _ eq_refl) as (Hr & _ & Hl).
        pose proof Hr as (Hc12 & _).
        destruct (IH (S i) t2 t' err) as (Hr' & He'); auto.
        { eapply same_cfg_trans; [exact Hcfg|]. eapply same_cfg_trans; eauto. }
        split; [|exact He'].
        eapply renders_trans; [apply renders_None, Hone; exact Hl|].
        eapply renders_trans; [apply renders_None; exact Hr | exact Hr'].
    + assert (Hnd : forall e', descends t it -> listed f e' (it_path it)).
      { intros e' (Hd & _). cbn in Hd. congruence. }
      pose proof (renders_one f root err t it (Hok err (Hnd err))) as Hone.
      cbn in Hone. unfold bump in Hone. rewrite Hdir in Hone.
      match type of Hrun with
      | rangeEntries _ _ _ _ _ _ _ ?x = _ => set (t1 := x) in *
      end.
      pose proof Hone as (Hc1 & _).
      destruct (IH (S i) t1 t' err) as (Hr' & He'); auto.
      { eapply same_cfg_trans; eauto. }
      split; [|exact He']. eapply renders_trans; eauto.
Qed.

Lemma treeFSWithPrefix_ok fuel : walker_ok f root (treeFSWithPrefix fuel).
Proof.
  induction fuel as [|fuel IH]; intros t name prefix lvl k t' err Hfs Hreach Hdepth Hrun.
  - discriminate.
  - cbn [treeFSWithPrefix] in Hrun. unfold treeFSWithPrefix_body in Hrun.
    destruct ((0 <? level t) && (lvl =? level t)) eqn:Hguard.
    + injection Hrun as <- <-. split; [apply renders_refl|]. split.
      * intros e He. discriminate.
      * intros Hn. exfalso. apply Hn.
        apply andb_true_iff in Hguard. destruct Hguard as (H1 & H2).
        apply Z.ltb_lt in H1. apply Z.eqb_eq in H2. auto.
    + rewrite Hfs in Hrun. unfold listed.
      destruct (ReadDir f name) as [entries|e] eqn:Hlist.
      * destruct (rangeEntries_ok (treeFSWithPrefix fuel) name prefix lvl k t
                    entries IH Hfs Hreach Hlist Hdepth) with
            (entries := entries) (i := 0%nat) (t := t) (t' := t')
            (err := err) as (Hr & He); auto.
        -- intros Hpos. destruct (Hdepth Hpos) as (_ & Hle & _).
           apply andb_false_iff in Hguard. destruct Hguard as [H|H].
           ++ apply Z.ltb_ge in H. lia.
           ++ apply Z.eqb_neq in H. lia.
        -- apply same_cfg_refl.
      * injection Hrun as <- <-. split; [apply renders_refl|]. split; [|reflexivity].
        intros e' He'. injection He' as <-. eauto.
Qed.

End WalkInvariant.

(** ** What [New] hands to the walk *)

Lemma New_unfold fuel f name opts :
  New fuel f name opts =
  treeFSWithPrefix fuel (New_init f name opts) (walkRoot name) "" 0.
Proof.
  unfold New, New_init, walkRoot, substituted.
  destruct (Contains name "../" || (name =? ".")%string); reflexivity.
Qed.

Lemma package_opt_frame o t : package_opt o -> opts_frame t (o t).
Proof.
  intros [| | |lvl Hr]; unfold opts_frame; cbn; try tauto.
  unfold Level. destruct (lvl <=? 0) eqn:Hl; cbn; try tauto.
  apply Z.leb_gt in Hl. unfold GoInt.in_range in Hr. repeat split; auto; lia.
Qed.

Lemma applyOpts_frame opts t : Forall package_opt opts -> opts_frame t (applyOpts opts t).
Proof.
  intros H. revert t. induction H as [|o opts Ho _ IH]; intros t.
  - unfold opts_frame. cbn. tauto.
  - cbn [applyOpts fold_left]. specialize (IH (o t)).
    pose proof (package_opt_frame o t Ho) as Hf.
    unfold applyOpts in IH. unfold opts_frame in *. intuition congruence.
Qed.

Lemma New_init_fields f name opts :
  Forall package_opt opts ->
  fsys (New_init f name opts) = Some f /\
  tree (New_init f name opts) = [name] /\
  pathPrefix (New_init f name opts) = (if substituted name then name else "") /\
  NDirs (New_init f name opts) = 0 /\ NFiles (New_init f name opts) = 0 /\
  0 <= level (New_init f name opts) < 2 ^ 63.
Proof.
  intros H. unfold New_init.
  pose proof (applyOpts_frame opts (mkTreeFS (Some f) [name] "" 0 0 false false false 0) H)
    as (H1 & H2 & H3 & H4 & H5 & H6 & _).
  cbn in H1, H2, H3, H4, H5, H6. specialize (H6 ltac:(lia)).
  destruct (substituted name); cbn; auto 10.
Qed.

Lemma New_renders fuel f name opts t err :
  Forall package_opt opts ->
  New fuel f name opts = Some (t, err) ->
  renders f (walkRoot name) err (New_init f name opts) t /\
  err_origin f (New_init f name opts) (walkRoot name) err /\
  listed f err (walkRoot name).
Proof.
  intros Hopts Hrun. rewrite New_unfold in Hrun.
  destruct (New_init_fields f name opts Hopts) as (Hfs & _ & _ & _ & _ & Hlv).
  assert (Hd : depth_ok (level (New_init f name opts)) 0 0).
  { intros Hpos. cbn. lia. }
  destruct (treeFSWithPrefix_ok f (walkRoot name) fuel (New_init f name opts)
              (walkRoot name) "" 0 0%nat t err Hfs (reaches_root _ _ _) Hd Hrun)
    as (Hr & He & Hl).
  split; [exact Hr|]. split; [exact He|]. apply Hl. lia.
Qed.

(** The report of a render: the root line, then one line per displayed
    item; the counters count the items by kind. *)
Lemma New_items fuel f name opts t err :
  Forall package_opt opts ->
  New fuel f name opts = Some (t, err) ->
  same_cfg (New_init f name opts) t /\
  exists items,
    tree t = name :: map (line t) items /\
    NDirs t = bumpN (ndirs items) 0 /\
    NFiles t = bumpN (nfiles items) 0 /\
    Forall (item_ok f (walkRoot name) err t) items.
Proof.
  intros Hopts Hrun.
  destruct (New_renders _ _ _ _ _ _ Hopts Hrun) as ((Hc & items & Ht & Hd & Hf & Ho) & _).
  destruct (New_init_fields f name opts Hopts) as (_ & Htree & _ & Hnd & Hnf & _).
  split; [assumption|]. exists items.
  rewrite Htree in Ht. rewrite Hnd in Hd. rewrite Hnf in Hf.
  repeat split; auto.
  - rewrite Ht. cbn. f_equal. apply map_ext. intros it.
    symmetry. now apply line_same_cfg.
  - eapply Forall_impl; [|exact Ho]. intros it.
    apply item_ok_same_cfg. now apply same_cfg_sym.
Qed.

(** The counters of a render are exact as long as the report has fewer than
    2^63 lines, which the length of a Go slice cannot exceed. *)
Lemma New_counts fuel f name opts t err :
  Forall package_opt opts ->
  New fuel f name opts = Some (t, err) ->
  len (tree t) < 2 ^ 63 ->
  0 <= NDirs t /\ 0 <= NFiles t /\ NDirs t + NFiles t = len (tree t) - 1.
Proof.
  intros Hopts Hrun Hlen.
  destruct (New_items _ _ _ _ _ _ Hopts Hrun) as (_ & items & Ht & Hd & Hf & _).
  pose proof (ndirs_nfiles items) as Hsum.
  unfold len in *. rewrite Ht in *. cbn [List.length] in *.
  rewrite length_map in *.
  rewrite Hd, Hf, !bumpN_exact by lia. lia.
Qed.

(** ** Fuel: the walk returns, and the budget does not matter *)

Lemma rangeEntries_same_cfg (self : walker) name prefix lvl n :
  (forall t nm pf lv t' err, self t nm pf lv = Some (t', err) -> same_cfg t t') ->
  forall entries i t t' err,
    rangeEntries self name prefix lvl n i entries t = Some (t', err) ->
    same_cfg t t'.
Proof.
  intros Hself. induction entries as [|entry rest IH]; intros i t t' err Hrun.
  - injection Hrun as <- _. apply same_cfg_refl.
  - cbn [rangeEntries] in Hrun.
    destruct (allow t entry); cbn [negb] in Hrun; [|now apply IH in Hrun].
    destruct (IsDir entry).
    + step_addDir_in Hrun.
      match type of Hrun with
      | match self ?x ?nm ?pf ?lv with _ => _ end = _ =>
          assert (Hc1 : same_cfg t x)
            by (eapply same_cfg_trans; [|apply append_fields];
                unfold same_cfg; cbn; tauto);
          destruct (self x nm pf lv) as [[t2 [e2|]]|] eqn:Hcall
      end; try discriminate.
      * injection Hrun as <- _. eapply same_cfg_trans; eauto.
      * eapply same_cfg_trans; [exact Hc1|].
        eapply same_cfg_trans; [eapply Hself; eauto|]. eapply IH; eauto.
    + apply IH in Hrun. eapply same_cfg_trans; [|exact Hrun].
      eapply same_cfg_trans; [|apply append_fields]. unfold same_cfg; cbn; tauto.
Qed.

(** The walk writes the lines and the two counters only. *)
Lemma treeFSWithPrefix_same_cfg fuel :
  forall t name prefix lvl t' err,
    treeFSWithPrefix fuel t name prefix lvl = Some (t', err) -> same_cfg t t'.
Proof.
  induction fuel as [|fuel IH]; intros t name prefix lvl t' err Hrun; [discriminate|].
  cbn [treeFSWithPrefix] in Hrun. unfold treeFSWithPrefix_body in Hrun.
  destruct ((0 <? level t) && (lvl =? level t)).
  - injection Hrun as <- _. apply same_cfg_refl.
  - destruct (fsys t) as [f|]; [|discriminate].
    destruct (ReadDir f name) as [entries|e].
    + eapply rangeEntries_same_cfg; eauto.
    + injection Hrun as <- _. apply same_cfg_refl.
Qed.

Lemma rangeEntries_mono (self self' : walker) name prefix lvl n :
  (forall t nm pf lv r, self t nm pf lv = Some r -> self' t nm pf lv = Some r) ->
  forall entries i t r,
    rangeEntries self name prefix lvl n i entries t = Some r ->
    rangeEntries self' name prefix lvl n i entries t = Some r.
Proof.
  intros Hself. induction entries as [|entry rest IH]; intros i t r Hrun; [exact Hrun|].
  cbn [rangeEntries] in *.
  destruct (allow t entry); cbn [negb] in *; [|now apply IH].
  destruct (IsDir entry); [|now apply IH].
  unfold addDir in *.
  match type of Hrun with
  | match self ?x ?nm ?pf ?lv with _ => _ end = _ =>
      destruct (self x nm pf lv) as [[t2 e2]|] eqn:Hcall; [|discriminate];
      rewrite (Hself _ _ _ _ _ Hcall)
  end.
  destruct e2; [exact Hrun | now apply IH].
Qed.

(** A call that returns with some budget returns the same with any larger
    one. *)
Lemma treeFSWithPrefix_mono fuel :
  forall fuel' t name prefix lvl r,
    (fuel <= fuel')%nat ->
    treeFSWithPrefix fuel t name prefix lvl = Some r ->
    treeFSWithPrefix fuel' t name prefix lvl = Some r.
Proof.
  induction fuel as [|fuel IH]; intros fuel' t name prefix lvl r Hle Hrun;
    [discriminate|].
  destruct fuel' as [|fuel']; [lia|].
  cbn [treeFSWithPrefix] in *. unfold treeFSWithPrefix_body in *.
  destruct ((0 <? level t) && (lvl =? level t)); [exact Hrun|].
  destruct (fsys t) as [f|]; [|discriminate].
  destruct (ReadDir f name) as [entries|e]; [|exact Hrun].
  eapply rangeEntries_mono; [|exact Hrun].
  intros t0 nm pf lv r0. apply IH. lia.
Qed.

Lemma New_mono fuel fuel' f name opts r :
  (fuel <= fuel')%nat ->
  New fuel f name opts = Some r -> New fuel' f name opts = Some r.
Proof.
  intros Hle. rewrite !New_unfold. now apply treeFSWithPrefix_mono.
Qed.

Lemma bounded_same_cfg f t t' h p :
  same_cfg t t' -> bounded f t h p -> bounded f t' h p.
Proof.
  intros Hc H. induction H as [h p e He|h p entries Hl _ IH].
  - eapply bounded_fail; eauto.
  - eapply bounded_list; eauto. intros e Hin Hd Ha. apply IH; auto.
    now rewrite <- (same_cfg_allow _ _ _ Hc).
Qed.


(** ** The package's tests, replayed *)

Example test_mapfs_dot :
  TreeFS_String (report (New 4 mapfs_plain "." [])) =
".
├── a1.test
├── a2.test
├── a3.test
├── b
│   ├── b1.test
│   ├── b2.test
│   ├── b3.test
│   └── d
│       └── d1.test
└── c
    ├── c1.test
    └── c2.test

3 directories, 9 files".
Proof. vm_compute. reflexivity. Qed.

Example test_mapfs_level_2 :
  TreeFS_String (report (New 4 mapfs_deep "." [Level 2])) =
".
└── a
    ├── a1.test
    ├── a2.test
    ├── a3.test
    └── b

2 directories, 3 files".
Proof. vm_compute. reflexivity. Qed.

Example test_mapfs_full_path_prefix :
  TreeFS_String (report (New 4 mapfs_plain "." [FullPathPrefix])) =
".
├── ./a1.test
├── ./a2.test
├── ./a3.test
├── ./b
│   ├── ./b/b1.test
│   ├── ./b/b2.test
│   ├── ./b/b3.test
│   └── ./b/d
│       └── ./b/d/d1.test
└── ./c
    ├── ./c/c1.test
    └── ./c/c2.test

3 directories, 9 files".
Proof. vm_compute. reflexivity. Qed.

Example test_mapfs_dir_only :
  TreeFS_String (report (New 4 mapfs_plain "." [DirOnly])) =
".
├── b
│   └── d
└── c

3 directories".
Proof. vm_compute. reflexivity. Qed.

(** ** Counts and lines *)

(** The depth guard never fires on the first call, where [lvl] is 0. *)
Lemma guard_at_root (L : Z) : (0 <? L) && (0 =? L) = false.
Proof.
  destruct (Z.eqb_spec 0 L) as [<-|]; [reflexivity | apply andb_false_r].
Qed.

Lemma rangeEntries_none_allowed self name prefix lvl n entries :
  forall i t,
    (forall e, In e entries -> allow t e = false) ->
    rangeEntries self name prefix lvl n i entries t = Some (t, None).
Proof.
  induction entries as [|entry rest IH]; intros i t Hall; [reflexivity|].
  cbn [rangeEntries]. rewrite (Hall entry) by now left. cbn [negb].
  apply IH. intros e He. apply Hall. now right.
Qed.

Lemma allow_dirOnly t e : dirOnly t = true -> allow t e = true -> IsDir e = true.
Proof.
  unfold allow. intros ->.
  destruct (_ && negb (hidden t)); [discriminate|].
  destruct (IsDir e); [reflexivity | discriminate].
Qed.

Lemma applyOpts_DirOnly opts t :
  Forall package_opt opts -> In DirOnly opts -> dirOnly (applyOpts opts t) = true.
Proof.
  intros H. revert t. induction H as [|o opts Ho Hopts IH]; intros t Hin.
  - destruct Hin.
  - cbn [applyOpts fold_left]. destruct Hin as [->|Hin].
    + apply (applyOpts_frame opts (DirOnly t) Hopts). reflexivity.
    + apply IH, Hin.
Qed.

(** ** The aggregator *)

Lemma len_app {A : Type} (l m : list A) : len (l ++ m)%list = len l + len m.
Proof. unfold len. rewrite length_app. lia. Qed.

Lemma len_nonneg {A : Type} (l : list A) : 0 <= len l.
Proof. unfold len. lia. Qed.

Lemma NewMulti_loop_ok fuel args reports :
  Forall (fun a => Forall package_opt (Opts a)) args ->
  Forall2 (renders_to fuel) args reports ->
  forall acc,
    0 <= NDirs acc -> 0 <= NFiles acc ->
    NDirs acc + NFiles acc <= len (tree acc) ->
    len (tree acc) + len (List.concat (map tree reports)) < 2 ^ 63 ->
    exists t,
      (forall more,
          NewMulti_loop fuel (args ++ more)%list acc = NewMulti_loop fuel more t) /\
      tree t = (tree acc ++ List.concat (map tree reports))%list /\
      NDirs t = NDirs acc + sumZ (map NDirs reports) /\
      NFiles t = NFiles acc + sumZ (map NFiles reports).
Proof.
  intros Hopts Hall. revert Hopts.
  induction Hall as [|a r args reports Hr Hrest IH]; intros Hopts acc Hd Hf Hsum Hlen.
  - exists acc. cbn. rewrite app_nil_r, !Z.add_0_r. auto.
  - inversion Hopts as [|? ? Ha Hargs]; subst.
    cbn [map List.concat] in Hlen. rewrite len_app in Hlen.
    pose proof (len_nonneg (tree acc)). pose proof (len_nonneg (tree r)).
    pose proof (len_nonneg (List.concat (map tree reports))).
    destruct (New_counts _ _ _ _ _ _ Ha Hr ltac:(lia)) as (Hrd & Hrf & Hrsum).
    unfold renders_to in Hr.
    set (acc' := set_NFiles
                   (set_NDirs (set_tree acc (tree acc ++ tree r)%list)
                              (GoInt.add (NDirs acc) (NDirs r)))
                   (GoInt.add (NFiles acc) (NFiles r))).
    assert (Hd' : NDirs acc' = NDirs acc + NDirs r).
    { subst acc'. cbn. unfold GoInt.add. apply wrap_small.
      unfold GoInt.in_range. lia. }
    assert (Hf' : NFiles acc' = NFiles acc + NFiles r).
    { subst acc'. cbn. unfold GoInt.add. apply wrap_small.
      unfold GoInt.in_range. lia. }
    assert (Ht' : tree acc' = (tree acc ++ tree r)%list) by reflexivity.
    destruct (IH Hargs acc') as (t & Hrun & Ht & Hnd & Hnf).
    + lia.
    + lia.
    + rewrite Ht', len_app. lia.
    + rewrite Ht', len_app. lia.
    + exists t. split.
      * intros more. rewrite <- Hrun. cbn [app NewMulti_loop]. now rewrite Hr.
      * cbn [map List.concat sumZ fold_right].
        rewrite Ht, Ht', <- app_assoc. repeat split; auto.
        -- rewrite Hnd, Hd'. unfold sumZ. lia.
        -- rewrite Hnf, Hf'. unfold sumZ. lia.
Qed.

(** Renders that each succeed with some budget all succeed with a common
    one. *)
Lemma common_fuel args reports :
  Forall2 (fun a r => exists fuel, renders_to fuel a r) args reports ->
  exists fuel, Forall2 (renders_to fuel) args reports.
Proof.
  induction 1 as [|a r args reports (n & Hn) _ (m & Hm)].
  - exists 0%nat. constructor.
  - exists (Nat.max n m). constructor.
    + unfold renders_to in *. eapply New_mono; [|exact Hn]. lia.
    + eapply Forall2_impl; [|exact Hm]. intros a' r' H.
      unfold renders_to in *. eapply New_mono; [|exact H]. lia.
Qed.

(** The aggregate keeps the option fields of the zero value it starts
    from: whatever the options of the renders, its [dirOnly] is off and its
    summary carries the file clause. *)
Lemma NewMulti_loop_cfg fuel args :
  forall acc t err,
    NewMulti_loop fuel args acc = Some (t, err) -> same_cfg acc t.
Proof.
  induction args as [|a args IH]; intros acc t err Hrun.
  - injection Hrun as <- _. apply same_cfg_refl.
  - cbn [NewMulti_loop] in Hrun.
    destruct (New fuel (Fsys a) (Arg_Name a) (Opts a)) as [[t2 [e2|]]|];
      try discriminate.
    + injection Hrun as <- _. apply same_cfg_refl.
    + apply IH in Hrun. eapply same_cfg_trans; [|exact Hrun].
      unfold same_cfg. cbn. tauto.
Qed.

Lemma NewMulti_dirOnly_off fuel args t err :
  NewMulti fuel args = Some (t, err) -> dirOnly t = false.
Proof.
  intros H. now destruct (NewMulti_loop_cfg _ _ _ _ _ H) as (_ & _ & _ & Hd & _).
Qed.

(** ** The depth limit *)

Lemma append_level t prefix connector dirPath name :
  level (append t prefix connector dirPath name) = level t.
Proof. now destruct (append_fields t prefix connector dirPath name) as ((_ & _ & _ & _ & _ & H) & _). Qed.

(** A call at the limit returns at once, listing nothing. *)
Lemma treeFSWithPrefix_at_limit fuel t name prefix :
  0 < level t ->
  treeFSWithPrefix (S fuel) t name prefix (level t) = Some (t, None).
Proof.
  intros Hpos. cbn [treeFSWithPrefix]. unfold treeFSWithPrefix_body.
  apply Z.ltb_lt in Hpos. rewrite Hpos, Z.eqb_refl. reflexivity.
Qed.

(** A surviving directory one level above the limit gets its counter
    increment and its line, and the loop moves on to the next entry. *)
Lemma rangeEntries_boundary_dir fuel t name prefix lvl n i entry rest :
  0 < level t -> GoInt.add lvl 1 = level t ->
  allow t entry = true -> IsDir entry = true ->
  rangeEntries (treeFSWithPrefix (S fuel)) name prefix lvl n i (entry :: rest) t =
  rangeEntries (treeFSWithPrefix (S fuel)) name prefix lvl n (i + 1) rest
    (append (set_NDirs t (GoInt.add (NDirs t) 1)) prefix
            (if i =? GoInt.sub n 1 then elbowConnector else teeConnector)
            name (Name entry)).
Proof.
  intros Hpos Hlvl Hallow Hdir.
  cbn [rangeEntries]. rewrite Hallow, Hdir. cbn [negb].
  step_addDir.
  match goal with
  | |- match treeFSWithPrefix _ ?x _ _ _ with _ => _ end = _ => set (t1 := x)
  end.
  assert (Hl1 : level t1 = level t) by (subst t1; now rewrite append_level).
  rewrite Hlvl, <- Hl1, treeFSWithPrefix_at_limit by lia. reflexivity.
Qed.

(** Without a limit the counter [lvl] has no bearing on the walk. *)
Lemma treeFSWithPrefix_unlimited fuel :
  forall t name prefix lvl lvl',
    level t <= 0 ->
    treeFSWithPrefix fuel t name prefix lvl = treeFSWithPrefix fuel t name prefix lvl'.
Proof.
  induction fuel as [|fuel IHf]; intros t name prefix lvl lvl' Hle; [reflexivity|].
  cbn [treeFSWithPrefix]. unfold treeFSWithPrefix_body.
  pose proof Hle as Hle'. apply Z.ltb_ge in Hle'. rewrite Hle'. cbn [andb].
  destruct (fsys t) as [f|]; [|reflexivity].
  destruct (ReadDir f name) as [entries|e]; [|reflexivity].
  generalize (len entries) as n. generalize 0 as i. revert t Hle Hle'.
  induction entries as [|entry rest IHe]; intros t Hle _ i n; [reflexivity|].
  cbn [rangeEntries].
  destruct (allow t entry); cbn [negb]; [|apply IHe; auto; now apply Z.ltb_ge].
  destruct (IsDir entry).
  - step_addDir.
    match goal with
    | |- match treeFSWithPrefix _ ?x _ _ _ with _ => _ end = _ => set (t1 := x)
    end.
    assert (Hl1 : level t1 <= 0) by (subst t1; now rewrite append_level).
    rewrite (IHf t1 _ _ (GoInt.add lvl 1) (GoInt.add lvl' 1) Hl1).
    destruct (treeFSWithPrefix fuel t1 _ _ (GoInt.add lvl' 1))
      as [[t2 [e2|]]|] eqn:Hcall; try reflexivity.
    pose proof (treeFSWithPrefix_same_cfg _ _ _ _ _ _ _ Hcall)
      as (_ & _ & _ & _ & _ & Hl2).
    apply IHe; [lia | apply Z.ltb_ge; lia].
  - apply IHe; [now rewrite append_level | apply Z.ltb_ge; now rewrite append_level].
Qed.

(** ** Full-path rendering *)

Lemma applyOpts_FullPathPrefix opts t :
  Forall package_opt opts -> In FullPathPrefix opts ->
  fullPathPrefix (applyOpts opts t) = true.
Proof.
  intros H. revert t. induction H as [|o opts Ho Hopts IH]; intros t Hin.
  - destruct Hin.
  - cbn [applyOpts fold_left]. destruct Hin as [->|Hin]; [|apply IH, Hin].
    clear IH Ho. generalize (FullPathPrefix t), (eq_refl : fullPathPrefix (FullPathPrefix t) = true).
    induction Hopts as [|o opts Ho Hopts IH]; intros t' Ht'; [exact Ht'|].
    cbn [fold_left]. apply IH. destruct Ho; cbn; auto.
    unfold Level. destruct (_ <=? 0); cbn; auto.
Qed.

Lemma string_app_assoc (a b c : string) : (a ++ b) ++ c = a ++ b ++ c.
Proof. induction a as [|x a IH]; cbn; [reflexivity | now rewrite IH]. Qed.

Lemma copyElem_noSlash n out :
  noSlash n = true ->
  path.copyElem n out = (EmptyString, (List.rev (list_ascii_of_string n) ++ out)%list).
Proof.
  revert out. induction n as [|c r IH]; intros out H; [reflexivity|].
  cbn [noSlash] in H. apply andb_true_iff in H. destruct H as (Hc & Hr).
  cbn [path.copyElem list_ascii_of_string List.rev].
  apply negb_true_iff in Hc. rewrite Hc, IH by exact Hr.
  now rewrite <- app_assoc.
Qed.

Lemma endOrSlash_noSlash r :
  noSlash r = true -> r <> EmptyString -> path.endOrSlash r = false.
Proof.
  destruct r as [|c r]; [congruence|]. cbn. intros H _.
  apply andb_true_iff in H. destruct H as (Hc & _). now apply negb_true_iff in Hc.
Qed.

(** Joining the current-location marker with an entry name leaves the name:
    the marker does not show in a joined path. *)
Lemma Join_dot_plain n : plainName n = true -> path.Join ["."; n] = n.
Proof.
  unfold plainName. intros H.
  apply andb_true_iff in H. destruct H as (H & Hns).
  apply andb_true_iff in H. destruct H as (H & Hdd).
  apply andb_true_iff in H. destruct H as (Hne & Hd).
  apply negb_true_iff, String.eqb_neq in Hne, Hd, Hdd.
  destruct n as [|c r]; [congruence|].
  pose proof Hns as Hns'. cbn [noSlash] in Hns'.
  apply andb_true_iff in Hns'. destruct Hns' as (Hc & Hr).
  apply negb_true_iff in Hc.
  assert (Hfirst : path.isDot c && path.endOrSlash r = false).
  { destruct (path.isDot c) eqn:Hdot; [|reflexivity]. cbn [andb].
    apply endOrSlash_noSlash; [exact Hr|]. intros ->.
    unfold path.isDot in Hdot. apply Ascii.eqb_eq in Hdot. congruence. }
  assert (Hsecond : path.isDot c && path.startsDot r
                    && path.endOrSlash (path.advance r) = false).
  { destruct (path.isDot c) eqn:Hdot; [|reflexivity]. cbn [andb].
    destruct r as [|c1 r2]; [reflexivity|]. cbn [path.startsDot path.advance].
    destruct (path.isDot c1) eqn:Hdot1; [|reflexivity]. cbn [andb].
    cbn [noSlash] in Hr. apply andb_true_iff in Hr. destruct Hr as (_ & Hr2).
    apply endOrSlash_noSlash; [exact Hr2|]. intros ->.
    unfold path.isDot in Hdot, Hdot1.
    apply Ascii.eqb_eq in Hdot, Hdot1. congruence. }
  unfold path.Join. cbn [fold_left String.length Nat.add Nat.eqb Nat.ltb Nat.leb
    orb negb String.eqb Ascii.eqb Bool.eqb String.append].
  unfold path.Clean. cbn [path.isSlash Ascii.eqb Bool.eqb String.length].
  cbn [path.cleanLoop path.isSlash path.isDot Ascii.eqb Bool.eqb path.endOrSlash andb].
  fold (path.isSlash c). fold (path.isDot c). rewrite Hc, Hfirst, Hsecond.
  cbn [andb negb orb List.length Nat.eqb].
  rewrite (copyElem_noSlash (String c r) [] Hns). rewrite app_nil_r.
  destruct (List.rev (list_ascii_of_string (String c r))) as [|x l] eqn:Hrev.
  - apply (f_equal (@List.length ascii)) in Hrev.
    rewrite length_rev in Hrev. discriminate.
  - rewrite <- Hrev, rev_involutive. apply string_of_list_ascii_of_string.
Qed.

(** ** The filter *)

(** What [allow] decides: an entry is dropped exactly when its name starts
    with a dot, is neither ["."] nor ["..."], and [hidden] is off; or when
    [dirOnly] is on and the entry is a file. *)
Lemma allow_false_iff t e :
  allow t e = false <->
  (HasPrefix (Name e) "." = true /\ Name e <> "." /\ Name e <> "..." /\
   hidden t = false) \/
  (dirOnly t = true /\ IsDir e = false).
Proof.
  unfold allow.
  destruct (HasPrefix (Name e) ".") eqn:Hp;
    destruct (String.eqb_spec (Name e) ".") as [Hd|Hd];
    destruct (String.eqb_spec (Name e) "...") as [Ht|Ht];
    destruct (hidden t); destruct (dirOnly t); destruct (IsDir e); cbn;
    split; intros H; try discriminate; try tauto;
    try (destruct H as [(H1 & H2 & H3 & H4)|(H1 & H2)]; congruence).
Qed.

(** ** Connectors and prefixes *)

(** The layout of a render: every line below the root is drawn with the
    prefix accumulated along the directories passed, one segment per
    directory, and with the connector of its own position; both are chosen
    by the index the entry has in the listing as [fs.ReadDir] returned it,
    before the filter is applied. *)
Lemma New_layout fuel f name opts t err :
  Forall package_opt opts ->
  New fuel f name opts = Some (t, err) ->
  exists items,
    tree t = name :: map (line t) items /\
    Forall (fun it =>
              allow t (it_entry it) = true /\
              reaches f t (walkRoot name) (it_depth it) (it_dir it) (it_prefix it) /\
              exists entries,
                ReadDir f (it_dir it) = inl entries /\
                nth_error entries (it_index it) = Some (it_entry it) /\
                it_connector it =
                  connectorAt (Z.of_nat (it_index it)) (len entries)) items.
Proof.
  intros Hopts Hrun.
  destruct (New_items _ _ _ _ _ _ Hopts Hrun) as (_ & items & Ht & _ & _ & Hok).
  exists items. split; [exact Ht|].
  eapply Forall_impl; [|exact Hok]. intros it (Ha & Hr & He & _). auto.
Qed.

(** In a listing of fewer than 2^63 entries the elbow goes to the entry at
    the last index, whether or not it passes the filter, and the space
    segment to the children of that entry. *)
Lemma connectorAt_last (i : nat) (entries : list DirEntry) :
  len entries < 2 ^ 63 ->
  (i < List.length entries)%nat ->
  (connectorAt (Z.of_nat i) (len entries) = elbowConnector <->
   S i = List.length entries) /\
  (continuationAt (Z.of_nat i) (len entries) = spacePrefix <->
   S i = List.length entries).
Proof.
  intros Hlen Hi. unfold connectorAt, continuationAt, GoInt.sub, len in *.
  rewrite wrap_small by (unfold GoInt.in_range; lia).
  destruct (Z.eqb_spec (Z.of_nat i) (Z.of_nat (List.length entries) - 1)) as [H|H];
    cbn [negb]; split; split; intros H'; try reflexivity; try lia;
    try discriminate H'.
Qed.

(** ** The walk as a function of the file system *)

(** ** Nothing is left out *)

Lemma entryLine_same_cfg t t' p c d n :
  same_cfg t t' -> entryLine t' p c d n = entryLine t p c d n.
Proof.
  intros (_ & Hp & _ & _ & Hf & _). unfold entryLine, displayed. now rewrite Hp, Hf.
Qed.

Lemma appended_nil t ta : appended t ta ta [].
Proof. unfold appended. cbn. now rewrite app_nil_r. Qed.

Lemma appended_app t a b c i1 i2 :
  appended t a b i1 -> appended t b c i2 -> appended t a c (i1 ++ i2).
Proof.
  intros (T1 & D1 & F1) (T2 & D2 & F2). unfold appended.
  rewrite T2, T1, D2, D1, F2, F1, map_app, ndirs_app, nfiles_app, !bumpN_add.
  now rewrite <- app_assoc.
Qed.

Lemma appended_entry t ta prefix conn name k i e :
  same_cfg t ta ->
  appended t ta (append (bump ta e) prefix conn name (Name e))
           [mkItem prefix conn name k i e].
Proof.
  intros Hc. unfold appended. rewrite append_tree.
  destruct (append_fields (bump ta e) prefix conn name (Name e)) as (_ & Hd & Hf).
  destruct (bump_fields ta e) as (Hcb & Htb & Hdb & Hfb).
  rewrite Hd, Hf, Htb, Hdb, Hfb. cbn [map]. unfold line, ndirs, nfiles.
  cbn [filter it_prefix it_connector it_dir it_entry].
  rewrite (entryLine_same_cfg t (bump ta e)) by (eapply same_cfg_trans; eauto).
  destruct (IsDir e); cbn; auto.
Qed.

Lemma descent_depth f t k d pf k' d' pf' :
  descent f t k d pf k' d' pf' -> (k <= k')%nat.
Proof. induction 1; lia. Qed.

Lemma descent_same_cfg f t t' k d pf k' d' pf' :
  same_cfg t t' -> descent f t k d pf k' d' pf' -> descent f t' k d pf k' d' pf'.
Proof.
  intros Hc. induction 1 as [|k d pf entries i e k' d' pf' Hl Hn Hd Ha _ IH].
  - constructor.
  - eapply descent_into; eauto. now rewrite (same_cfg_allow _ _ _ Hc).
Qed.

Lemma descent_snoc f t k d pf k' d' pf' entries i e :
  descent f t k d pf k' d' pf' ->
  ReadDir f d' = inl entries -> nth_error entries i = Some e ->
  IsDir e = true -> allow t e = true ->
  descent f t k d pf (S k') (path.Join [d'; Name e])
          (pf' ++ continuationAt (Z.of_nat i) (len entries)).
Proof.
  induction 1 as [|k d pf entries0 i0 e0 k' d' pf' Hl Hn Hd Ha _ IH];
    intros Hl' Hn' Hd' Ha'.
  - eapply descent_into; eauto. constructor.
  - eapply descent_into; eauto.
Qed.

Lemma reaches_descent f t root k d pf :
  reaches f t root k d pf -> descent f t 0 root "" k d pf.
Proof.
  induction 1 as [|k d pf entries i e _ IH Hl Hn Hd Ha].
  - constructor.
  - eapply descent_snoc; eauto.
Qed.

Lemma refines_nil t ta : same_cfg t ta -> refines t ta (Some (ta, None)) (Some ([], None)).
Proof.
  intros _. cbn. split; [reflexivity|]. split; [apply same_cfg_refl | apply appended_nil].
Qed.

(** One listing: the loop of the code against the traversal. *)
Lemma rangeEntries_entriesItems t (self : walker)
      (sub : string -> string -> itemsResult) name prefix lvl (k : nat) n :
  (forall ta d p,
      same_cfg t ta -> refines t ta (self ta d p (GoInt.add lvl 1)) (sub d p)) ->
  forall entries i ta,
    same_cfg t ta ->
    refines t ta (rangeEntries self name prefix lvl n (Z.of_nat i) entries ta)
            (entriesItems sub t name prefix k n i entries).
Proof.
  intros Hself. induction entries as [|entry rest IH]; intros i ta Hca.
  - now apply refines_nil.
  - cbn [rangeEntries entriesItems].
    replace (Z.of_nat i + 1) with (Z.of_nat (S i)) by lia.
    rewrite (same_cfg_allow _ _ _ Hca).
    destruct (allow t entry) eqn:Hallow; cbn [negb]; [|now apply IH].
    fold (connectorAt (Z.of_nat i) n).
    set (conn := connectorAt (Z.of_nat i) n).
    set (it := mkItem prefix conn name k i entry).
    assert (Hstep : same_cfg ta (append (bump ta entry) prefix conn name (Name entry))).
    { eapply same_cfg_trans; [apply bump_fields | apply append_fields]. }
    assert (Hone : appended t ta (append (bump ta entry) prefix conn name (Name entry))
                            [it]) by (apply appended_entry; exact Hca).
    unfold bump in Hstep, Hone.
    destruct (IsDir entry) eqn:Hdir.
    + step_addDir. rewrite continuation_prefix.
      set (ta1 := append (set_NDirs ta (GoInt.add (NDirs ta) 1)) prefix conn name
                         (Name entry)) in *.
      pose proof (Hself ta1 (path.Join [name; Name entry])
                        (prefix ++ continuationAt (Z.of_nat i) n)
                        (same_cfg_trans _ _ _ Hca Hstep)) as Hsub.
      destruct (self ta1 (path.Join [name; Name entry])
                     (prefix ++ continuationAt (Z.of_nat i) n) (GoInt.add lvl 1))
        as [[ta2 e2]|];
        destruct (sub (path.Join [name; Name entry])
                      (prefix ++ continuationAt (Z.of_nat i) n)) as [[inside e2']|];
        cbn in Hsub; try contradiction; [|exact I].
      destruct Hsub as (<- & Hc12 & Hins).
      destruct e2 as [e2|].
      * cbn. split; [reflexivity|].
        split; [eapply same_cfg_trans; eauto|].
        apply (appended_app t ta ta1 ta2 [it] inside Hone Hins).
      * specialize (IH (S i) ta2
                       (same_cfg_trans _ _ _ Hca (same_cfg_trans _ _ _ Hstep Hc12))).
        destruct (rangeEntries self name prefix lvl n (Z.of_nat (S i)) rest ta2)
          as [[ta' err]|];
          destruct (entriesItems sub t name prefix k n (S i) rest) as [[more err']|];
          cbn in IH |- *; try contradiction; [|exact I].
        destruct IH as (-> & Hc2 & Hmore). split; [reflexivity|].
        split; [eapply same_cfg_trans; [exact Hstep|]; eapply same_cfg_trans; eauto|].
        apply (appended_app t ta ta1 ta' [it] (inside ++ more) Hone).
        apply (appended_app t ta1 ta2 ta' inside more Hins Hmore).
    + set (ta1 := append (set_NFiles ta (GoInt.add (NFiles ta) 1)) prefix conn name
                         (Name entry)) in *.
      specialize (IH (S i) ta1 (same_cfg_trans _ _ _ Hca Hstep)).
      destruct (rangeEntries self name prefix lvl n (Z.of_nat (S i)) rest ta1)
        as [[ta' err]|];
        destruct (entriesItems sub t name prefix k n (S i) rest) as [[more err']|];
        cbn in IH |- *; try contradiction; [|exact I].
      destruct IH as (-> & Hc2 & Hmore). split; [reflexivity|].
      split; [eapply same_cfg_trans; eauto|].
      apply (appended_app t ta ta1 ta' [it] more Hone Hmore).
Qed.

(** The walk of the code is the traversal: on every accumulator it returns
    when the traversal does, with the same error, having appended the lines
    and counted the entries of the traversal. *)
Lemma treeFSWithPrefix_walkItems f t :
  fsys t = Some f ->
  forall fuel ta dir prefix lvl k,
    same_cfg t ta -> depth_ok (level t) k lvl ->
    refines t ta (treeFSWithPrefix fuel ta dir prefix lvl)
            (walkItems fuel f t dir prefix k).
Proof.
  intros Hfs. induction fuel as [|fuel IH]; intros ta dir prefix lvl k Hca Hdepth;
    [exact I|].
  cbn [treeFSWithPrefix walkItems]. unfold treeFSWithPrefix_body.
  pose proof Hca as (Hfa & _ & _ & _ & _ & Hla).
  rewrite Hla, Hfa, Hfs.
  assert (Hg : (0 <? level t) && (lvl =? level t)
               = (0 <? level t) && (Z.of_nat k =? level t)).
  { destruct (Z.ltb_spec 0 (level t)) as [Hpos|_]; [|reflexivity].
    destruct (Hdepth Hpos) as (-> & _). reflexivity. }
  rewrite Hg.
  destruct ((0 <? level t) && (Z.of_nat k =? level t)) eqn:Hguard;
    [now apply refines_nil|].
  destruct (ReadDir f dir) as [entries|er].
  - apply (rangeEntries_entriesItems t (treeFSWithPrefix fuel)
             (fun d p => walkItems fuel f t d p (S k)) dir prefix lvl k (len entries))
      with (i := 0%nat); [|exact Hca].
    intros tb d p Hcb. apply IH; [exact Hcb|].
    intros Hpos. destruct (Hdepth Hpos) as (Hk & Hle & Hbig).
    assert (Hlt : lvl < level t).
    { apply andb_false_iff in Hguard. destruct Hguard as [H|H].
      - apply Z.ltb_ge in H. lia.
      - apply Z.eqb_neq in H. lia. }
    unfold GoInt.add. rewrite wrap_small by (unfold GoInt.in_range; lia). lia.
  - cbn. split; [reflexivity|]. split; [apply same_cfg_refl | apply appended_nil].
Qed.

(** The traversal reads the filter flags and the limit only. *)
Lemma entriesItems_ext sub sub' t t' dir prefix depth n :
  (forall d p, sub d p = sub' d p) ->
  hidden t' = hidden t -> dirOnly t' = dirOnly t ->
  forall entries i,
    entriesItems sub' t' dir prefix depth n i entries
    = entriesItems sub t dir prefix depth n i entries.
Proof.
  intros Hs Hh Hd. induction entries as [|e rest IH]; intros i; [reflexivity|].
  cbn [entriesItems]. unfold allow. rewrite Hh, Hd, Hs, !IH. reflexivity.
Qed.

Lemma walkItems_ext f t t' :
  hidden t' = hidden t -> dirOnly t' = dirOnly t -> level t' = level t ->
  forall fuel dir prefix depth,
    walkItems fuel f t' dir prefix depth = walkItems fuel f t dir prefix depth.
Proof.
  intros Hh Hd Hl. induction fuel as [|fuel IH]; intros dir prefix depth;
    [reflexivity|].
  cbn [walkItems]. rewrite Hl.
  destruct ((0 <? level t) && (Z.of_nat depth =? level t)); [reflexivity|].
  destruct (ReadDir f dir) as [entries|er]; [|reflexivity].
  apply entriesItems_ext; auto.
Qed.

Lemma walkItems_same_cfg f t t' fuel dir prefix depth :
  same_cfg t t' ->
  walkItems fuel f t' dir prefix depth = walkItems fuel f t dir prefix depth.
Proof.
  intros (_ & _ & Hh & Hd & _ & Hl). now apply walkItems_ext.
Qed.

(** [New] is the traversal from the walk root. *)
Lemma New_walkItems fuel f name opts :
  Forall package_opt opts ->
  refines (New_init f name opts) (New_init f name opts) (New fuel f name opts)
          (walkItems fuel f (New_init f name opts) (walkRoot name) "" 0).
Proof.
  intros Hopts. rewrite New_unfold.
  destruct (New_init_fields f name opts Hopts) as (Hfs & _ & _ & _ & _ & Hlv).
  apply treeFSWithPrefix_walkItems; [exact Hfs | apply same_cfg_refl|].
  intros Hpos. cbn. lia.
Qed.

Lemma New_traversal fuel f name opts t err :
  Forall package_opt opts ->
  New fuel f name opts = Some (t, err) ->
  same_cfg (New_init f name opts) t /\
  exists items,
    walkItems fuel f t (walkRoot name) "" 0 = Some (items, err) /\
    tree t = name :: map (line t) items /\
    NDirs t = bumpN (ndirs items) 0 /\
    NFiles t = bumpN (nfiles items) 0.
Proof.
  intros Hopts Hrun. pose proof (New_walkItems fuel f name opts Hopts) as H.
  rewrite Hrun in H.
  destruct (walkItems fuel f (New_init f name opts) (walkRoot name) "" 0)
    as [[items err']|] eqn:Hw; cbn in H; [|contradiction].
  destruct H as (<- & Hc & Ht & Hd & Hf).
  destruct (New_init_fields f name opts Hopts) as (_ & Htree & _ & Hnd & Hnf & _).
  split; [exact Hc|]. exists items.
  rewrite (walkItems_same_cfg _ _ _ _ _ _ _ Hc), Hw.
  rewrite Htree in Ht. rewrite Hnd in Hd. rewrite Hnf in Hf.
  split; [reflexivity|]. split; [|auto].
  rewrite Ht. cbn [app]. f_equal. apply map_ext. intros it.
  symmetry. now apply line_same_cfg.
Qed.

Lemma New_of_traversal fuel f name opts items err :
  Forall package_opt opts ->
  walkItems fuel f (New_init f name opts) (walkRoot name) "" 0 = Some (items, err) ->
  exists t,
    New fuel f name opts = Some (t, err) /\
    same_cfg (New_init f name opts) t /\
    tree t = name :: map (line t) items /\
    NDirs t = bumpN (ndirs items) 0 /\
    NFiles t = bumpN (nfiles items) 0.
Proof.
  intros Hopts Hw. pose proof (New_walkItems fuel f name opts Hopts) as H.
  rewrite Hw in H.
  destruct (New fuel f name opts) as [[t err']|] eqn:Hrun; cbn in H; [|contradiction].
  destruct H as (-> & _).
  destruct (New_traversal _ _ _ _ _ _ Hopts Hrun) as (Hc & items' & Hw' & Ht & Hd & Hf).
  rewrite (walkItems_same_cfg _ _ _ _ _ _ _ Hc), Hw in Hw'.
  injection Hw' as <-. exists t. auto.
Qed.

(** The entries of the traversal are entries of the listings. *)
Lemma entriesItems_listed f t root (sub : string -> string -> itemsResult)
      dir prefix k all :
  reaches f t root k dir prefix ->
  ReadDir f dir = inl all ->
  (0 < level t -> Z.of_nat k < level t) ->
  (forall d p items err,
      reaches f t root (S k) d p -> sub d p = Some (items, err) ->
      Forall (item_listed f root t) items) ->
  forall entries i items err,
    skipn i all = entries ->
    entriesItems sub t dir prefix k (len all) i entries = Some (items, err) ->
    Forall (item_listed f root t) items.
Proof.
  intros Hreach Hlist Hlim Hsub.
  induction entries as [|entry rest IH]; intros i items err Hskip Hrun.
  - cbn in Hrun. injection Hrun as <- _. constructor.
  - destruct (skipn_cons_nth _ _ _ _ Hskip) as (Hnth & Hrest).
    cbn [entriesItems] in Hrun.
    destruct (allow t entry) eqn:Hallow; [|now apply (IH (S i) items err)].
    assert (Hit : item_listed f root t
                    (mkItem prefix (connectorAt (Z.of_nat i) (len all)) dir k i entry)).
    { unfold item_listed. cbn.
      refine (conj Hallow (conj Hreach (conj _ Hlim))). exists all. auto. }
    destruct (IsDir entry) eqn:Hdir.
    + destruct (sub (path.Join [dir; Name entry])
                    (prefix ++ continuationAt (Z.of_nat i) (len all)))
        as [[inside [e|]]|] eqn:Hs; try discriminate.
      * injection Hrun as <- <-. constructor; [exact Hit|].
        eapply Hsub; [|exact Hs]. eapply reaches_child; eauto.
      * destruct (entriesItems sub t dir prefix k (len all) (S i) rest)
          as [[more err']|] eqn:Hm; [|discriminate].
        injection Hrun as <- <-. cbn [app]. constructor; [exact Hit|].
        apply Forall_app. split.
        -- eapply Hsub; [|exact Hs]. eapply reaches_child; eauto.
        -- eapply IH; eauto.
    + destruct (entriesItems sub t dir prefix k (len all) (S i) rest)
        as [[more err']|] eqn:Hm; [|discriminate].
      injection Hrun as <- <-. cbn [app]. constructor; [exact Hit|].
      eapply IH; eauto.
Qed.

Lemma walkItems_listed f t root fuel :
  forall dir prefix k items err,
    reaches f t root k dir prefix ->
    (0 < level t -> Z.of_nat k <= level t) ->
    walkItems fuel f t dir prefix k = Some (items, err) ->
    Forall (item_listed f root t) items.
Proof.
  induction fuel as [|fuel IH]; intros dir prefix k items err Hreach Hle Hrun;
    [discriminate|].
  cbn [walkItems] in Hrun.
  destruct ((0 <? level t) && (Z.of_nat k =? level t)) eqn:Hguard.
  - injection Hrun as <- _. constructor.
  - destruct (ReadDir f dir) as [entries|er] eqn:Hlist.
    + assert (Hlt : 0 < level t -> Z.of_nat k < level t).
      { intros Hpos. specialize (Hle Hpos).
        apply andb_false_iff in Hguard. destruct Hguard as [H|H].
        - apply Z.ltb_ge in H. lia.
        - apply Z.eqb_neq in H. lia. }
      eapply (entriesItems_listed f t root _ dir prefix k entries Hreach Hlist Hlt);
        [|reflexivity | exact Hrun].
      intros d p its e Hr Hs. eapply (IH d p (S k)); [exact Hr | | exact Hs].
      intros Hpos. specialize (Hlt Hpos). lia.
    + injection Hrun as <- _. constructor.
Qed.

(** A successful traversal leaves out no entry that passes the filter. *)
Lemma entriesItems_complete t (sub : string -> string -> itemsResult)
      dir prefix k all :
  forall entries i items,
    skipn i all = entries ->
    entriesItems sub t dir prefix k (len all) i entries = Some (items, None) ->
    forall j e,
      (i <= j)%nat -> nth_error all j = Some e -> allow t e = true ->
      In (mkItem prefix (connectorAt (Z.of_nat j) (len all)) dir k j e) items /\
      (IsDir e = true ->
       exists inside,
         sub (path.Join [dir; Name e])
             (prefix ++ continuationAt (Z.of_nat j) (len all))
         = Some (inside, None) /\
         incl inside items).
Proof.
  induction entries as [|entry rest IH]; intros i items Hskip Hrun j e Hij Hj Ha.
  - exfalso.
    assert (Hlt : (j < List.length all)%nat) by (apply nth_error_Some; congruence).
    apply (f_equal (@List.length DirEntry)) in Hskip.
    rewrite length_skipn in Hskip. cbn in Hskip. lia.
  - destruct (skipn_cons_nth _ _ _ _ Hskip) as (Hnth & Hrest).
    cbn [entriesItems] in Hrun.
    destruct (allow t entry) eqn:Hallow.
    2:{ destruct (Nat.eq_dec j i) as [->|Hne]; [congruence|].
        apply (IH (S i) items Hrest Hrun); [lia | assumption | assumption]. }
    destruct (IsDir entry) eqn:Hdir.
    + destruct (sub (path.Join [dir; Name entry])
                    (prefix ++ continuationAt (Z.of_nat i) (len all)))
        as [[inside [er|]]|] eqn:Hs; try discriminate.
      destruct (entriesItems sub t dir prefix k (len all) (S i) rest)
        as [[more err']|] eqn:Hm; [|discriminate].
      injection Hrun as <- ->.
      destruct (Nat.eq_dec j i) as [->|Hne].
      * assert (e = entry) by congruence. subst e. split; [now left|].
        intros _. exists inside. split; [exact Hs|].
        intros x Hx. right. apply in_or_app. now left.
      * destruct (IH (S i) more Hrest Hm j e) as (Hin & Hsubdir); auto; [lia|].
        split.
        -- right. apply in_or_app. now right.
        -- intros Hd. destruct (Hsubdir Hd) as (ins & Hi1 & Hi2).
           exists ins. split; [exact Hi1|].
           intros x Hx. right. apply in_or_app. right. now apply Hi2.
    + destruct (entriesItems sub t dir prefix k (len all) (S i) rest)
        as [[more err']|] eqn:Hm; [|discriminate].
      injection Hrun as <- ->.
      destruct (Nat.eq_dec j i) as [->|Hne].
      * assert (e = entry) by congruence. subst e. split; [now left|]. congruence.
      * destruct (IH (S i) more Hrest Hm j e) as (Hin & Hsubdir); auto; [lia|].
        split.
        -- right. exact Hin.
        -- intros Hd. destruct (Hsubdir Hd) as (ins & Hi1 & Hi2).
           exists ins. split; [exact Hi1|].
           intros x Hx. right. now apply Hi2.
Qed.

Lemma walkItems_complete f t fuel :
  forall dir prefix k items,
    walkItems fuel f t dir prefix k = Some (items, None) ->
    forall k' d' pf' entries j e,
      descent f t k dir prefix k' d' pf' ->
      (0 < level t -> Z.of_nat k' < level t) ->
      ReadDir f d' = inl entries -> nth_error entries j = Some e ->
      allow t e = true ->
      In (mkItem pf' (connectorAt (Z.of_nat j) (len entries)) d' k' j e) items.
Proof.
  induction fuel as [|fuel IH];
    intros dir prefix k items Hrun k' d' pf' entries j e Hdesc Hlim Hread Hnth Hallow;
    [discriminate|].
  cbn [walkItems] in Hrun.
  pose proof (descent_depth _ _ _ _ _ _ _ _ Hdesc) as Hkk.
  destruct ((0 <? level t) && (Z.of_nat k =? level t)) eqn:Hguard.
  { exfalso. apply andb_true_iff in Hguard. destruct Hguard as (H1 & H2).
    apply Z.ltb_lt in H1. apply Z.eqb_eq in H2. specialize (Hlim H1). lia. }
  destruct (ReadDir f dir) as [all|er] eqn:Hlist; [|discriminate].
  pose proof (entriesItems_complete t _ dir prefix k all all 0%nat items eq_refl Hrun)
    as Hall.
  inversion Hdesc
    as [k0 d0 pf0|k0 d0 pf0 entries0 i0 e0 k1 d1 pf1 Hl0 Hn0 Hd0 Ha0 Hrest]; subst.
  - rewrite Hlist in Hread. injection Hread as <-.
    apply Hall; [lia | assumption | assumption].
  - rewrite Hlist in Hl0. injection Hl0 as <-.
    destruct (Hall i0 e0 ltac:(lia) Hn0 Ha0) as (_ & Hsub).
    destruct (Hsub Hd0) as (inside & Hcall & Hincl).
    apply Hincl. eapply IH; eauto.
Qed.

(** ** Options in sequence *)

Lemma applyOpts_cons o opts t : applyOpts (o :: opts) t = applyOpts opts (o t).
Proof. reflexivity. Qed.

Lemma applyOpts_app a b t : applyOpts (a ++ b)%list t = applyOpts b (applyOpts a t).
Proof. unfold applyOpts. apply fold_left_app. Qed.

Lemma applyOpts_no_positive_Level post :
  Forall package_opt post ->
  (forall l', In (Level l') post -> l' <= 0) ->
  forall t, level (applyOpts post t) = level t.
Proof.
  induction 1 as [|o post Ho _ IH]; intros Hnp t; [reflexivity|].
  rewrite applyOpts_cons, IH by (intros l' Hin; apply Hnp; now right).
  destruct Ho as [| | |l Hl]; try reflexivity.
  unfold Level. assert (Hle : l <= 0) by (apply Hnp; now left).
  apply Z.leb_le in Hle. now rewrite Hle.
Qed.

(** * The specification, property by property *)

(** C1, the failing input.  The connector and the continuation segment are
    chosen by the position of the entry in the unfiltered listing.  With
    [DirOnly], in a root that lists the directory [b] and then the file [z],
    [b] is the last (and only) surviving entry, yet it is drawn with the
    tee connector and its child [c] inherits the pipe segment. *)
Theorem connector_counts_filtered_entries :
  let t := report (New 3 fs_dir_then_file "." [DirOnly]) in
  allow t (dir "b") = true /\ allow t (file "z") = false /\
  New 3 fs_dir_then_file "." [DirOnly] = Some (t, None) /\
  tree t = ["."; teeConnector ++ " b"; pipePrefix ++ elbowConnector ++ " c"].
Proof. repeat split. Qed.

(** C2, the failing input.  An entry named [..] starts with a dot and is not
    one of the two names the code exempts (["."] and ["..."]), so without
    [Hidden] the filter drops it, although [..] is on the list of the claim:
    in this listing of a file [.], a directory [..], a file [...] and a file
    [a], the directory [..] is neither displayed nor counted nor entered. *)
Theorem allow_drops_dotdot :
  allow zeroTreeFS (dir "..") = false /\
  allow zeroTreeFS (file ".") = true /\
  allow zeroTreeFS (file "...") = true /\
  (let t := report (New 2 fs_with_markers "." []) in
   tree t = ["."; "├── ."; "├── ..."; "└── a"] /\ NDirs t = 0 /\ NFiles t = 3).
Proof. repeat split. Qed.







(** C5. When every argument renders successfully, the aggregate succeeds;
    its lines are the concatenation, in argument order, of the lines of the
    individual reports, and its counters are the sums of theirs.  The bound
    on the number of lines is the one Go puts on the length of a slice. *)
Theorem NewMulti_concatenates
        (args : list Arg) (reports : list TreeFS)
        (Hopts : Forall (fun a => Forall package_opt (Opts a)) args)
        (Hall : Forall2 (fun a r => exists fuel, renders_to fuel a r) args reports)
        (Hlen : len (List.concat (map tree reports)) < 2 ^ 63) :
  exists fuel,
    Forall2 (renders_to fuel) args reports /\
    exists t,
      NewMulti fuel args = Some (t, None) /\
      tree t = List.concat (map tree reports) /\
      NDirs t = sumZ (map NDirs reports) /\
      NFiles t = sumZ (map NFiles reports).
Proof.
  destruct (common_fuel args reports Hall) as (fuel & Hcommon).
  exists fuel. split; [exact Hcommon|].
  destruct (NewMulti_loop_ok fuel args reports Hopts Hcommon zeroTreeFS)
    as (t & Hrun & Ht & Hd & Hf); cbn; try lia.
  exists t. cbn in Ht, Hd, Hf. repeat split; auto.
  unfold NewMulti. specialize (Hrun []). now rewrite app_nil_r in Hrun.
Qed.

(** Two roots, one of them rendered with [DirOnly]. *)
Lemma NewMulti_concatenates_witness :
  let args := [mkArg mapfs_plain "." [DirOnly]; mkArg fs_dir_then_file "." []] in
  let reports := [report (New 4 mapfs_plain "." [DirOnly]);
                  report (New 3 fs_dir_then_file "." [])] in
  exists fuel,
    Forall2 (renders_to fuel) args reports /\
    exists t,
      NewMulti fuel args = Some (t, None) /\
      tree t = List.concat (map tree reports) /\
      NDirs t = sumZ (map NDirs reports) /\
      NFiles t = sumZ (map NFiles reports).
Proof.
  apply NewMulti_concatenates.
  - repeat constructor.
  - constructor; [exists 4%nat; vm_compute; reflexivity|].
    constructor; [exists 3%nat; vm_compute; reflexivity|]. constructor.
  - vm_compute. reflexivity.
Defined.

(** C6, the failing input.  The aggregate of renders that were all given
    [DirOnly] still carries the file clause: [NewMulti] starts from the zero
    [TreeFS] and copies lines and counters only, so [dirOnly] is never set on
    the aggregate and [Meta] prints ", 0 files".  The report of [New] on
    the same tree with the same option leaves the clause out. *)
Theorem aggregate_summary_keeps_file_clause :
  let a := mkArg mapfs_plain "." [DirOnly] in
  let t := report (NewMulti 4 [a]) in
  NewMulti 4 [a] = Some (t, None) /\
  tree t = ["."; "├── b"; "│   └── d"; "└── c"] /\
  NDirs t = 3 /\ NFiles t = 0 /\ dirOnly t = false /\
  TreeFS_Meta t = "3 directories, 0 files" /\
  TreeFS_Meta (report (New 4 mapfs_plain "." [DirOnly])) = "3 directories".
Proof. vm_compute. repeat split. Qed.

(** C7. A successful render counts what it displays.  The entries displayed
    are those of the traversal [walkItems] of the file system: each is an
    entry of the listing of a directory reached from the root that passes
    the filter, and every such entry (above the limit) is among them.  The
    report is the root line followed by one line per displayed entry, in
    that order; [NDirs] is the number of the displayed entries that are
    directories and [NFiles] the number of those that are files, so
    [NDirs + NFiles] is the number of lines after the first.  This holds
    whatever the filter excluded; the bound on the number of lines is the
    one Go puts on the length of a slice. *)
Theorem New_counts_match_lines
        (fuel : nat) (f : FS) (name : string) (opts : list Opt) (t : TreeFS)
        (Hopts : Forall package_opt opts)
        (Hrun : New fuel f name opts = Some (t, None))
        (Hlen : len (tree t) < 2 ^ 63) :
  NDirs t + NFiles t = len (tree t) - 1 /\
  exists items,
    walkItems fuel f t (walkRoot name) "" 0 = Some (items, None) /\
    tree t = name :: map (line t) items /\
    NDirs t = Z.of_nat (ndirs items) /\
    NFiles t = Z.of_nat (nfiles items) /\
    Forall (item_listed f (walkRoot name) t) items /\
    (forall k d pf entries j e,
        reaches f t (walkRoot name) k d pf ->
        (0 < level t -> Z.of_nat k < level t) ->
        ReadDir f d = inl entries -> nth_error entries j = Some e ->
        allow t e = true ->
        In (mkItem pf (connectorAt (Z.of_nat j) (len entries)) d k j e) items).
Proof.
  split; [now apply (New_counts fuel f name opts t None)|].
  destruct (New_traversal _ _ _ _ _ _ Hopts Hrun) as (Hc & items & Hw & Ht & Hd & Hf).
  exists items. pose proof (ndirs_nfiles items) as Hsum.
  unfold len in Hlen. rewrite Ht in Hlen. cbn [List.length] in Hlen.
  rewrite length_map in Hlen.
  rewrite Hd, Hf, !bumpN_exact by lia.
  split; [exact Hw|]. split; [exact Ht|]. split; [reflexivity|].
  split; [reflexivity|]. split.
  - eapply (walkItems_listed f t (walkRoot name) fuel); [constructor | | exact Hw].
    intros Hpos. cbn. lia.
  - intros k d pf entries j e Hreach Hlim Hlist Hnth Hallow.
    eapply (walkItems_complete f t fuel); eauto.
    now apply reaches_descent.
Qed.

(** The package's plain tree rendered with [Hidden]: three directories and
    nine files. *)
Lemma New_counts_match_lines_witness :
  let t := report (New 4 mapfs_plain "." [Hidden]) in
  NDirs t = 3 /\ NFiles t = 9 /\
  NDirs t + NFiles t = len (tree t) - 1 /\
  exists items,
    walkItems 4 mapfs_plain t "." "" 0 = Some (items, None) /\
    tree t = "." :: map (line t) items /\
    NDirs t = Z.of_nat (ndirs items) /\
    NFiles t = Z.of_nat (nfiles items) /\
    Forall (item_listed mapfs_plain "." t) items.
Proof.
  cbv zeta. split; [reflexivity|]. split; [reflexivity|].
  destruct (New_counts_match_lines 4 mapfs_plain "." [Hidden]
              (report (New 4 mapfs_plain "." [Hidden])))
    as (Hsum & items & Hw & Ht & Hd & Hf & Hok & _).
  - repeat constructor.
  - vm_compute. reflexivity.
  - vm_compute. reflexivity.
  - split; [exact Hsum|]. exists items. auto.
Defined.

(** C8, the failing input.  The root name [..] is a parent-reference
    segment, a directory above the current one, yet [New] neither
    substitutes the walk root nor records the name: its test is for the
    substring ["../"].  On a file system that lists [up] under [..] and
    [here] under [.], the render of [..] lists [..] itself and leaves
    [pathPrefix] empty. *)
Lemma New_dotdot_root_not_substituted :
  ~ (forall fuel f name opts t err,
        Forall package_opt opts -> In FullPathPrefix opts ->
        hasParentSegment name = true \/ name = "." ->
        New fuel f name opts = Some (t, err) ->
        pathPrefix t = name) /\
  hasParentSegment ".." = true /\
  exists t,
    New 2 fs_parent ".." [FullPathPrefix] = Some (t, None) /\
    pathPrefix t = "" /\
    tree t = [".."; "└── ../up"].
Proof.
  split; [|split; [reflexivity|];
           eexists; split; [vm_compute; reflexivity|]; split; reflexivity].
  intros H.
  specialize (H 2%nat fs_parent ".." [FullPathPrefix]
                (report (New 2 fs_parent ".." [FullPathPrefix])) None).
  discriminate H.
  - repeat constructor.
  - now left.
  - now left.
  - reflexivity.
Qed.

(** C9. The first line of a successful render is the root name as it was
    supplied; the counters cover the lines below it only; and a root none of
    whose entries passes the filter gives the one-line report with both
    counters at 0. *)
Theorem New_root_line_uncounted
        (fuel : nat) (f : FS) (name : string) (opts : list Opt) (t : TreeFS)
        (Hopts : Forall package_opt opts)
        (Hrun : New fuel f name opts = Some (t, None)) :
  (exists rest,
      tree t = name :: rest /\
      (len (tree t) < 2 ^ 63 -> NDirs t + NFiles t = len rest)) /\
  ((forall entries e,
       ReadDir f (walkRoot name) = inl entries -> In e entries ->
       allow t e = false) ->
   tree t = [name] /\ NDirs t = 0 /\ NFiles t = 0).
Proof.
  destruct (New_items _ _ _ _ _ _ Hopts Hrun) as (Hc & items & Ht & Hd & Hf & _).
  split.
  - exists (map (line t) items). split; [assumption|]. intros Hlen.
    destruct (New_counts _ _ _ _ _ _ Hopts Hrun Hlen) as (_ & _ & Hsum).
    rewrite Hsum. unfold len. rewrite Ht. cbn [List.length]. lia.
  - intros Hnone.
    destruct (New_init_fields f name opts Hopts) as (Hfs & Htree & _ & Hnd & Hnf & Hlv).
    assert (Ht0 : t = New_init f name opts).
    { rewrite New_unfold in Hrun. destruct fuel as [|fuel]; [discriminate|].
      cbn [treeFSWithPrefix] in Hrun. unfold treeFSWithPrefix_body in Hrun.
      rewrite guard_at_root in Hrun.
      rewrite Hfs in Hrun.
      destruct (ReadDir f (walkRoot name)) as [entries|e] eqn:Hlist; [|discriminate].
      rewrite rangeEntries_none_allowed in Hrun; [congruence|].
      intros e He. rewrite <- (same_cfg_allow _ _ e Hc). now apply (Hnone entries). }
    subst t. auto.
Qed.

(** A root that holds hidden files only, rendered without [Hidden]. *)
Lemma New_root_line_uncounted_witness :
  let t := report (New 1 fs_hidden_only "." []) in
  tree t = ["."] /\ NDirs t = 0 /\ NFiles t = 0.
Proof.
  refine (proj2 (New_root_line_uncounted 1 fs_hidden_only "." [] _ _ _) _).
  - constructor.
  - vm_compute. reflexivity.
  - intros entries e Hl Hin. vm_compute in Hl. injection Hl as <-.
    destruct Hin as [<-|[<-|[]]]; reflexivity.
Defined.

(** C10. The aggregate of no render at all is the empty report: no line, an
    empty graph, both counters 0 and the summary "0 directories, 0 files". *)
Theorem NewMulti_empty (fuel : nat) :
  NewMulti fuel [] = Some (zeroTreeFS, None) /\
  tree zeroTreeFS = [] /\
  TreeFS_Graph zeroTreeFS = "" /\
  NDirs zeroTreeFS = 0 /\ NFiles zeroTreeFS = 0 /\
  TreeFS_Meta zeroTreeFS = "0 directories, 0 files".
Proof. repeat split. Qed.

(** * Further properties of the code *)

(** ** The walk does not read what it has accumulated *)

Lemma cfg_sim_step t1 t2 t1' t2' :
  cfg_sim t1 t2 -> same_cfg t1 t1' -> same_cfg t2 t2' -> cfg_sim t1' t2'.
Proof.
  intros (H1 & H2 & H3 & H4 & H5 & H6) (A1 & A2 & A3 & A4 & A5 & A6)
         (B1 & B2 & B3 & B4 & B5 & B6).
  repeat split; try congruence.
  intros Hx. rewrite A2, B2. apply H6. congruence.
Qed.

Lemma cfg_sim_allow t1 t2 e : cfg_sim t1 t2 -> allow t1 e = allow t2 e.
Proof. intros (_ & Hh & Hd & _). unfold allow. now rewrite Hh, Hd. Qed.

Lemma cfg_sim_entryLine t1 t2 prefix connector dirPath name :
  cfg_sim t1 t2 ->
  entryLine t1 prefix connector dirPath name = entryLine t2 prefix connector dirPath name.
Proof.
  intros (_ & _ & _ & Hf & _ & Hp). unfold entryLine, displayed. rewrite <- Hf.
  destruct (fullPathPrefix t1); cbn [negb]; [|reflexivity]. now rewrite (Hp eq_refl).
Qed.

Lemma sim_outcome_after t1 t2 ta1 ta2 o1 o2 :
  same_cfg t1 ta1 -> same_cfg t2 ta2 -> same_delta t1 ta1 t2 ta2 ->
  sim_outcome ta1 ta2 o1 o2 -> sim_outcome t1 t2 o1 o2.
Proof.
  intros Hc1 Hc2 (l & d & n & Ht1 & Ht2 & Hd1 & Hd2 & Hf1 & Hf2).
  destruct o1 as [[t1' e1]|], o2 as [[t2' e2]|]; cbn; auto.
  intros (He & Hc1' & Hc2' & (l' & d' & n' & Ht1' & Ht2' & Hd1' & Hd2' & Hf1' & Hf2')).
  split; [exact He|]. split; [eapply same_cfg_trans; eauto|].
  split; [eapply same_cfg_trans; eauto|].
  exists (l ++ l')%list, (d + d')%nat, (n + n')%nat.
  rewrite Ht1', Ht2', Ht1, Ht2, <- !app_assoc.
  rewrite Hd1', Hd2', Hf1', Hf2', Hd1, Hd2, Hf1, Hf2, !bumpN_add. auto 10.
Qed.

(** One displayed entry, done to both accumulators. *)
Lemma sim_one t1 t2 prefix connector dirPath e :
  cfg_sim t1 t2 ->
  let t1' := append (bump t1 e) prefix connector dirPath (Name e) in
  let t2' := append (bump t2 e) prefix connector dirPath (Name e) in
  same_cfg t1 t1' /\ same_cfg t2 t2' /\ same_delta t1 t1' t2 t2'.
Proof.
  intros Hsim t1' t2'.
  destruct (bump_fields t1 e) as (Hb1 & Hbt1 & Hbd1 & Hbf1).
  destruct (bump_fields t2 e) as (Hb2 & Hbt2 & Hbd2 & Hbf2).
  destruct (append_fields (bump t1 e) prefix connector dirPath (Name e))
    as (Ha1 & Had1 & Haf1).
  destruct (append_fields (bump t2 e) prefix connector dirPath (Name e))
    as (Ha2 & Had2 & Haf2).
  assert (Hc1 : same_cfg t1 t1') by (eapply same_cfg_trans; eauto).
  assert (Hc2 : same_cfg t2 t2') by (eapply same_cfg_trans; eauto).
  split; [exact Hc1|]. split; [exact Hc2|].
  exists [entryLine t1 prefix connector dirPath (Name e)],
         (if IsDir e then 1 else 0)%nat, (if IsDir e then 0 else 1)%nat.
  subst t1' t2'. rewrite !append_tree, Hbt1, Hbt2, Had1, Had2, Haf1, Haf2,
    Hbd1, Hbd2, Hbf1, Hbf2.
  rewrite (cfg_sim_entryLine (bump t1 e) t1) by
    (eapply cfg_sim_step; [| exact Hb1 | apply same_cfg_refl];
     unfold cfg_sim; tauto).
  rewrite (cfg_sim_entryLine (bump t2 e) t1) by
    (eapply cfg_sim_step; [| exact Hb2 | apply same_cfg_refl];
     destruct Hsim as (H1 & H2 & H3 & H4 & H5 & H6); unfold cfg_sim;
     repeat split; try congruence; intros Hx; symmetry; apply H6; congruence).
  destruct (IsDir e); cbn; auto 10.
Qed.

Lemma rangeEntries_sim self name prefix lvl n :
  walker_sim self ->
  forall entries i t1 t2,
    cfg_sim t1 t2 ->
    sim_outcome t1 t2
      (rangeEntries self name prefix lvl n i entries t1)
      (rangeEntries self name prefix lvl n i entries t2).
Proof.
  intros Hself. induction entries as [|entry rest IH]; intros i t1 t2 Hsim.
  - cbn. split; [reflexivity|]. split; [apply same_cfg_refl|].
    split; [apply same_cfg_refl|]. exists [], 0%nat, 0%nat.
    rewrite !app_nil_r. cbn. auto 10.
  - cbn [rangeEntries]. rewrite <- (cfg_sim_allow t1 t2 entry Hsim).
    destruct (allow t1 entry); cbn [negb]; [|now apply IH].
    set (conn := if i =? GoInt.sub n 1 then elbowConnector else teeConnector).
    destruct (sim_one t1 t2 prefix conn name entry Hsim) as (Hc1 & Hc2 & Hdelta).
    unfold bump in Hc1, Hc2, Hdelta.
    destruct (IsDir entry).
    + step_addDir.
      match goal with
      | |- sim_outcome _ _ (match self ?a ?nm ?pf ?lv with _ => _ end)
                           (match self ?b _ _ _ with _ => _ end) =>
          pose proof (Hself a b nm pf lv (cfg_sim_step _ _ _ _ Hsim Hc1 Hc2)) as Hcall;
          destruct (self a nm pf lv) as [[ta e1]|] eqn:Ha;
          destruct (self b nm pf lv) as [[tb e2]|] eqn:Hb
      end; cbn in Hcall; try contradiction; [|exact I].
      destruct Hcall as (-> & Hca & Hcb & Hd').
      eapply sim_outcome_after; [exact Hc1 | exact Hc2 | exact Hdelta |].
      destruct e2 as [e2|].
      * cbn. auto.
      * eapply sim_outcome_after; [exact Hca | exact Hcb | exact Hd' |].
        apply IH. eapply cfg_sim_step; [|exact Hca|exact Hcb].
        eapply cfg_sim_step; eauto.
    + eapply sim_outcome_after; [exact Hc1 | exact Hc2 | exact Hdelta |].
      apply IH. eapply cfg_sim_step; eauto.
Qed.

Lemma treeFSWithPrefix_sim fuel : walker_sim (treeFSWithPrefix fuel).
Proof.
  induction fuel as [|fuel IH]; intros t1 t2 name prefix lvl Hsim; [exact I|].
  cbn [treeFSWithPrefix]. unfold treeFSWithPrefix_body.
  pose proof Hsim as (Hfs & _ & _ & _ & Hl & _). rewrite <- Hl, <- Hfs.
  assert (Hnil : same_delta t1 t1 t2 t2).
  { exists [], 0%nat, 0%nat. rewrite !app_nil_r. cbn. auto 10. }
  destruct ((0 <? level t1) && (lvl =? level t1)).
  - cbn. auto using same_cfg_refl.
  - destruct (fsys t1) as [f|]; [|exact I].
    destruct (ReadDir f name) as [entries|e].
    + now apply rangeEntries_sim.
    + cbn. auto using same_cfg_refl.
Qed.

Lemma wrap_add_r (a b : Z) : GoInt.wrap (a + GoInt.wrap b) = GoInt.wrap (a + b).
Proof. rewrite Z.add_comm, wrap_add_l. f_equal. lia. Qed.

Lemma cfg_sim_clearAcc t : cfg_sim t (clearAcc t).
Proof. unfold cfg_sim, clearAcc. cbn. tauto. Qed.

(** X1. What a call of the walk appends and returns does not depend on the
    lines and counters the accumulator already holds: the call behaves as
    on the cleared accumulator, after which its lines are appended to the
    old ones and its counters added to the old ones, the way [NewMulti]
    merges a report; the option fields are not written.  The counters are
    Go [int]s. *)
Theorem walk_frame
        (fuel : nat) (t : TreeFS) (name prefix : string) (lvl : Z)
        (Hd : GoInt.in_range (NDirs t)) (Hf : GoInt.in_range (NFiles t)) :
  match treeFSWithPrefix fuel (clearAcc t) name prefix lvl with
  | None => treeFSWithPrefix fuel t name prefix lvl = None
  | Some (d, err) =>
      exists t',
        treeFSWithPrefix fuel t name prefix lvl = Some (t', err) /\
        same_cfg t t' /\
        tree t' = (tree t ++ tree d)%list /\
        NDirs t' = GoInt.add (NDirs t) (NDirs d) /\
        NFiles t' = GoInt.add (NFiles t) (NFiles d)
  end.
Proof.
  pose proof (treeFSWithPrefix_sim fuel t (clearAcc t) name prefix lvl
                (cfg_sim_clearAcc t)) as Hsim.
  destruct (treeFSWithPrefix fuel (clearAcc t) name prefix lvl) as [[d err]|];
    destruct (treeFSWithPrefix fuel t name prefix lvl) as [[t' err']|];
    cbn in Hsim; try contradiction; [|reflexivity].
  destruct Hsim as (-> & Hc & _ & (l & k & n & Ht & Htd & Hk & Hkd & Hn & Hnd)).
  exists t'. split; [reflexivity|]. split; [exact Hc|].
  cbn in Htd, Hkd, Hnd.
  assert (H0 : GoInt.in_range 0) by (unfold GoInt.in_range; lia).
  rewrite Htd, Hkd, Hnd, Ht, Hk, Hn. unfold GoInt.add.
  rewrite !bumpN_wrap by assumption. cbn [Z.add]. rewrite !wrap_add_r. auto.
Qed.

(** The directory [b] of the package's plain tree, walked into an
    accumulator that already holds a line and counts. *)
Lemma walk_frame_witness :
  let t := mkTreeFS (Some mapfs_plain) ["kept"] "" 7 2 false false false 0 in
  exists t',
    treeFSWithPrefix 3 t "b" "" 0 = Some (t', None) /\
    same_cfg t t' /\
    tree t' = ["kept"; "├── b1.test"; "├── b2.test"; "├── b3.test"; "└── d";
               "    └── d1.test"] /\
    NDirs t' = 8 /\ NFiles t' = 6.
Proof.
  intros t.
  assert (Hr : GoInt.in_range 7 /\ GoInt.in_range 2)
    by (unfold GoInt.in_range; lia).
  pose proof (walk_frame 3 t "b" "" 0 (proj1 Hr) (proj2 Hr)) as H.
  destruct (treeFSWithPrefix 3 (clearAcc t) "b" "" 0) as [[d err]|] eqn:E;
    vm_compute in E; [|discriminate E].
  injection E as <- <-.
  destruct H as (t' & Hrun & Hc & Ht & Hd & Hf).
  exists t'. split; [exact Hrun|]. split; [exact Hc|].
  split; [exact Ht|]. split; [exact Hd | exact Hf].
Defined.

(** ** Options *)

Lemma package_opt_fields o t :
  package_opt o ->
  (hidden (o t) = true <-> hidden t = true \/ o = Hidden) /\
  (dirOnly (o t) = true <-> dirOnly t = true \/ o = DirOnly) /\
  (fullPathPrefix (o t) = true <-> fullPathPrefix t = true \/ o = FullPathPrefix) /\
  (level (o t) = level t \/ exists l, o = Level l /\ 0 < l /\ level (o t) = l).
Proof.
  intros Ho.
  assert (Hkeep :
    (o = Hidden \/ hidden (o t) = hidden t) /\
    (o = DirOnly \/ dirOnly (o t) = dirOnly t) /\
    (o = FullPathPrefix \/ fullPathPrefix (o t) = fullPathPrefix t) /\
    (level (o t) = level t \/ exists l, o = Level l /\ 0 < l /\ level (o t) = l)).
  { destruct Ho as [| | |l Hl]; cbn; auto 10.
    unfold Level. destruct (l <=? 0) eqn:Hle; cbn; auto 10.
    apply Z.leb_gt in Hle. repeat split; auto. right. exists l.
    unfold Level. pose proof Hle as Hle'. apply Z.leb_gt in Hle'.
    rewrite Hle'. auto. }
  destruct Hkeep as (Hh & Hd & Hf & Hl).
  split; [|split; [|split; [|exact Hl]]].
  - split.
    + intros H. destruct Hh as [->|Hh]; [now right | left; congruence].
    + intros [H| ->]; [|reflexivity].
      destruct Hh as [->|Hh]; [reflexivity | congruence].
  - split.
    + intros H. destruct Hd as [->|Hd]; [now right | left; congruence].
    + intros [H| ->]; [|reflexivity].
      destruct Hd as [->|Hd]; [reflexivity | congruence].
  - split.
    + intros H. destruct Hf as [->|Hf]; [now right | left; congruence].
    + intros [H| ->]; [|reflexivity].
      destruct Hf as [->|Hf]; [reflexivity | congruence].
Qed.

Lemma applyOpts_flags opts :
  Forall package_opt opts ->
  forall t,
    (hidden (applyOpts opts t) = true <-> hidden t = true \/ In Hidden opts) /\
    (dirOnly (applyOpts opts t) = true <-> dirOnly t = true \/ In DirOnly opts) /\
    (fullPathPrefix (applyOpts opts t) = true <->
     fullPathPrefix t = true \/ In FullPathPrefix opts) /\
    (level (applyOpts opts t) = level t \/
     exists l, In (Level l) opts /\ 0 < l /\ level (applyOpts opts t) = l).
Proof.
  induction 1 as [|o opts Ho _ IH]; intros t.
  - cbn. tauto.
  - rewrite applyOpts_cons.
    destruct (IH (o t)) as (Hh & Hd & Hf & Hl).
    destruct (package_opt_fields o t Ho) as (Hh' & Hd' & Hf' & Hl').
    cbn [In]. repeat split.
    + intros H. apply Hh in H. destruct H as [H|H]; [|auto].
      apply Hh' in H. destruct H as [H| ->]; auto.
    + intros [H|[Heq|H]]; apply Hh;
        [left; apply Hh'; left; exact H | left; apply Hh'; right; exact Heq
        | right; exact H].
    + intros H. apply Hd in H. destruct H as [H|H]; [|auto].
      apply Hd' in H. destruct H as [H| ->]; auto.
    + intros [H|[Heq|H]]; apply Hd;
        [left; apply Hd'; left; exact H | left; apply Hd'; right; exact Heq
        | right; exact H].
    + intros H. apply Hf in H. destruct H as [H|H]; [|auto].
      apply Hf' in H. destruct H as [H| ->]; auto.
    + intros [H|[Heq|H]]; apply Hf;
        [left; apply Hf'; left; exact H | left; apply Hf'; right; exact Heq
        | right; exact H].
    + destruct Hl as [Hl|(l & Hin & Hpos & Hl)].
      * destruct Hl' as [Hl'|(l & -> & Hpos & Hl')].
        -- left. congruence.
        -- right. exists l. split; [now left|]. split; [exact Hpos|]. congruence.
      * right. exists l. auto.
Qed.

(** X6. The exported options compose by switching flags on: after any
    sequence of them a flag is set exactly when it was set before or its
    option occurs in the sequence; the limit is the one before or the
    positive argument of some [Level] in the sequence, namely that of the
    last [Level] with a positive argument; nothing else of the accumulator
    is written. *)
Theorem options_compose
        (opts : list Opt) (t : TreeFS) (Hopts : Forall package_opt opts) :
  (hidden (applyOpts opts t) = true <-> hidden t = true \/ In Hidden opts) /\
  (dirOnly (applyOpts opts t) = true <-> dirOnly t = true \/ In DirOnly opts) /\
  (fullPathPrefix (applyOpts opts t) = true <->
   fullPathPrefix t = true \/ In FullPathPrefix opts) /\
  (level (applyOpts opts t) = level t \/
   exists l, In (Level l) opts /\ 0 < l /\ level (applyOpts opts t) = l) /\
  (forall pre l post,
      opts = (pre ++ Level l :: post)%list -> 0 < l ->
      (forall l', In (Level l') post -> l' <= 0) ->
      level (applyOpts opts t) = l) /\
  fsys (applyOpts opts t) = fsys t /\ tree (applyOpts opts t) = tree t /\
  pathPrefix (applyOpts opts t) = pathPrefix t /\
  NDirs (applyOpts opts t) = NDirs t /\ NFiles (applyOpts opts t) = NFiles t.
Proof.
  destruct (applyOpts_flags opts Hopts t) as (Hh & Hd & Hf & Hl).
  destruct (applyOpts_frame opts t Hopts) as (F1 & F2 & F3 & F4 & F5 & _).
  split; [exact Hh|]. split; [exact Hd|]. split; [exact Hf|]. split; [exact Hl|].
  split; [|auto].
  intros pre l post -> Hpos Hnp.
  apply Forall_app in Hopts. destruct Hopts as (_ & Hpost).
  apply Forall_cons_iff in Hpost. destruct Hpost as (_ & Hpost).
  rewrite applyOpts_app, applyOpts_cons, applyOpts_no_positive_Level by assumption.
  unfold Level. apply Z.leb_gt in Hpos. now rewrite Hpos.
Qed.

(** Six options, two of them limits that count. *)
Lemma options_compose_witness :
  let opts := [Level 3; Hidden; Level 0; Level 2; DirOnly; Level (-1)] in
  let t' := applyOpts opts zeroTreeFS in
  hidden t' = true /\ dirOnly t' = true /\ fullPathPrefix t' <> true /\
  level t' = 2.
Proof.
  intros opts t'.
  assert (Hopts : Forall package_opt opts).
  { repeat constructor; unfold GoInt.in_range; lia. }
  destruct (options_compose opts zeroTreeFS Hopts)
    as (Hh & Hd & Hf & _ & Hlast & _).
  split; [apply Hh; right; cbn; auto|].
  split; [apply Hd; right; cbn; auto 10|].
  split.
  - intros H. apply Hf in H. destruct H as [H|H]; [discriminate H|].
    cbn in H. decompose [or] H; try contradiction;
      match goal with
      | E : _ = FullPathPrefix |- _ =>
          apply (f_equal (fun o : Opt => fullPathPrefix (o zeroTreeFS))) in E;
          discriminate E
      end.
  - apply (Hlast [Level 3; Hidden; Level 0] 2 [DirOnly; Level (-1)]);
      [reflexivity | lia |].
    intros l' [H|[H|[]]].
    + apply (f_equal (fun o : Opt => dirOnly (o zeroTreeFS))) in H.
      unfold Level in H. destruct (l' <=? 0); discriminate H.
    + apply (f_equal (fun o : Opt => level (o zeroTreeFS))) in H.
      unfold Level in H. destruct (Z.leb_spec l' 0) as [Hle|Hgt]; [assumption|].
      cbn in H. lia.
Defined.

(** ** The root name *)

Lemma package_opt_fields_eq o t1 t2 :
  package_opt o -> opt_fields_eq t1 t2 -> opt_fields_eq (o t1) (o t2).
Proof.
  intros [| | |l Hl] (H1 & H2 & H3 & H4 & H5); unfold opt_fields_eq; cbn; auto 10.
  unfold Level. destruct (l <=? 0); cbn; auto 10.
Qed.

Lemma applyOpts_fields_eq opts :
  Forall package_opt opts ->
  forall t1 t2, opt_fields_eq t1 t2 ->
                opt_fields_eq (applyOpts opts t1) (applyOpts opts t2).
Proof.
  induction 1 as [|o opts Ho _ IH]; intros t1 t2 H; [exact H|].
  rewrite !applyOpts_cons. apply IH. now apply package_opt_fields_eq.
Qed.

(** X2. Without [FullPathPrefix], a root name does no more than pick the
    directory to list and label the first line: two names that [New] walks
    from the same place (such as ["."] and any name containing ["../"])
    give renders that both fail to return, or return the same error, the
    same lines below the first and the same counts. *)
Theorem root_name_labels_first_line
        (fuel : nat) (f : FS) (n1 n2 : string) (opts : list Opt)
        (Hopts : Forall package_opt opts)
        (Hplain : ~ In FullPathPrefix opts)
        (Hroot : walkRoot n1 = walkRoot n2) :
  match New fuel f n1 opts, New fuel f n2 opts with
  | Some (t1, e1), Some (t2, e2) =>
      e1 = e2 /\
      (exists below, tree t1 = n1 :: below /\ tree t2 = n2 :: below) /\
      NDirs t1 = NDirs t2 /\ NFiles t1 = NFiles t2
  | None, None => True
  | _, _ => False
  end.
Proof.
  rewrite !New_unfold, <- Hroot.
  set (i1 := mkTreeFS (Some f) [n1] "" 0 0 false false false 0).
  set (i2 := mkTreeFS (Some f) [n2] "" 0 0 false false false 0).
  assert (Heq : opt_fields_eq (applyOpts opts i1) (applyOpts opts i2)).
  { apply applyOpts_fields_eq; [exact Hopts|]. unfold opt_fields_eq. cbn. auto. }
  assert (Hoff : fullPathPrefix (applyOpts opts i1) <> true).
  { intros H. apply (applyOpts_flags opts Hopts i1) in H.
    destruct H as [H|H]; [discriminate H | contradiction]. }
  assert (Hsim : cfg_sim (New_init f n1 opts) (New_init f n2 opts)).
  { unfold New_init. fold i1 i2.
    destruct Heq as (E1 & E2 & E3 & E4 & E5).
    destruct (substituted n1), (substituted n2); unfold cfg_sim; cbn;
      repeat split; auto; intros H; contradiction. }
  pose proof (treeFSWithPrefix_sim fuel _ _ (walkRoot n1) "" 0 Hsim) as H.
  destruct (New_init_fields f n1 opts Hopts) as (_ & T1 & _ & D1 & F1 & _).
  destruct (New_init_fields f n2 opts Hopts) as (_ & T2 & _ & D2 & F2 & _).
  destruct (treeFSWithPrefix fuel (New_init f n1 opts) (walkRoot n1) "" 0)
    as [[t1 e1]|];
    destruct (treeFSWithPrefix fuel (New_init f n2 opts) (walkRoot n1) "" 0)
      as [[t2 e2]|]; cbn in H; auto.
  destruct H as (He & _ & _ & (l & d & n & Ht1 & Ht2 & Hd1 & Hd2 & Hf1 & Hf2)).
  rewrite T1 in Ht1. rewrite T2 in Ht2.
  split; [exact He|]. split; [exists l; auto|]. split; congruence.
Qed.

(** The package's plain tree under the names [.] and [../../x]. *)
Lemma root_name_labels_first_line_witness :
  match New 4 mapfs_plain "." [Hidden], New 4 mapfs_plain "../../x" [Hidden] with
  | Some (t1, e1), Some (t2, e2) =>
      e1 = e2 /\
      (exists below, tree t1 = "." :: below /\ tree t2 = "../../x" :: below) /\
      NDirs t1 = NDirs t2 /\ NFiles t1 = NFiles t2
  | None, None => True
  | _, _ => False
  end.
Proof.
  apply root_name_labels_first_line.
  - repeat constructor.
  - intros [H|[]].
    apply (f_equal (fun o : Opt => hidden (o zeroTreeFS))) in H. discriminate H.
  - reflexivity.
Defined.

(** ** One level *)

Lemma levelItems_same_cfg t t' dir prefix depth n entries :
  same_cfg t t' ->
  forall i, levelItems t' dir prefix depth n i entries
            = levelItems t dir prefix depth n i entries.
Proof.
  intros Hc. induction entries as [|e rest IH]; intros i; [reflexivity|].
  cbn [levelItems]. now rewrite IH, (same_cfg_allow _ _ _ Hc).
Qed.

(** The loop over a listing none of whose surviving directories makes the
    walk list anything: it displays the surviving entries in order. *)
Lemma rangeEntries_flat (self : walker) t0 name prefix lvl n depth entries :
  (forall e t pf,
      same_cfg t0 t -> In e entries -> IsDir e = true -> allow t0 e = true ->
      self t (path.Join [name; Name e]) pf (GoInt.add lvl 1) = Some (t, None)) ->
  forall rest i t,
    same_cfg t0 t ->
    incl rest entries ->
    exists t',
      rangeEntries self name prefix lvl n (Z.of_nat i) rest t = Some (t', None) /\
      same_cfg t t' /\
      tree t' = (tree t ++ map (line t) (levelItems t name prefix depth n i rest))%list /\
      NDirs t' = bumpN (ndirs (levelItems t name prefix depth n i rest)) (NDirs t) /\
      NFiles t' = bumpN (nfiles (levelItems t name prefix depth n i rest)) (NFiles t).
Proof.
  intros Hself. induction rest as [|e rest IH]; intros i t Hc0 Hincl.
  - exists t. cbn. rewrite app_nil_r. auto using same_cfg_refl.
  - assert (Hin : In e entries) by (apply Hincl; now left).
    assert (Hrest : incl rest entries) by (intros x Hx; apply Hincl; now right).
    cbn [rangeEntries levelItems].
    replace (Z.of_nat i + 1) with (Z.of_nat (S i)) by lia.
    destruct (allow t e) eqn:Hallow; cbn [negb]; [|now apply IH].
    change (if Z.of_nat i =? GoInt.sub n 1 then elbowConnector else teeConnector)
      with (connectorAt (Z.of_nat i) n).
    set (conn := connectorAt (Z.of_nat i) n).
    assert (Hcommon : exists t',
      rangeEntries self name prefix lvl n (Z.of_nat (S i)) rest
                   (append (bump t e) prefix conn name (Name e)) = Some (t', None) /\
      same_cfg t t' /\
      tree t' = (tree t ++ map (line t)
                   ([mkItem prefix conn name depth i e]
                      ++ levelItems t name prefix depth n (S i) rest))%list /\
      NDirs t' = bumpN (ndirs ([mkItem prefix conn name depth i e]
                                 ++ levelItems t name prefix depth n (S i) rest)%list)
                       (NDirs t) /\
      NFiles t' = bumpN (nfiles ([mkItem prefix conn name depth i e]
                                   ++ levelItems t name prefix depth n (S i) rest)%list)
                        (NFiles t)).
    { set (t1 := append (bump t e) prefix conn name (Name e)).
      destruct (bump_fields t e) as (Hb & Hbt & Hbd & Hbf).
      destruct (append_fields (bump t e) prefix conn name (Name e))
        as (Ha & Had & Haf).
      assert (Hc1 : same_cfg t t1) by (subst t1; eapply same_cfg_trans; eauto).
      destruct (IH (S i) t1 (same_cfg_trans _ _ _ Hc0 Hc1) Hrest)
        as (t' & Hrun & Hc & Ht & Hd & Hf).
      exists t'. split; [exact Hrun|]. split; [eapply same_cfg_trans; eauto|].
      rewrite (levelItems_same_cfg t t1) in Ht, Hd, Hf by exact Hc1.
      rewrite ndirs_app, nfiles_app, !bumpN_add, map_app.
      repeat split.
      + rewrite Ht. subst t1. rewrite append_tree, Hbt, <- app_assoc. cbn [app map].
        do 2 f_equal.
        * unfold line. cbn. apply cfg_sim_entryLine.
          destruct Hb as (B1 & B2 & B3 & B4 & B5 & B6). unfold cfg_sim.
          repeat split; congruence.
        * apply map_ext. intros x. apply line_same_cfg. exact Hc1.
      + rewrite Hd. f_equal. subst t1. rewrite Had, Hbd. unfold ndirs. cbn.
        destruct (IsDir e); reflexivity.
      + rewrite Hf. f_equal. subst t1. rewrite Haf, Hbf. unfold nfiles. cbn.
        destruct (IsDir e); reflexivity. }
    unfold bump in Hcommon.
    destruct (IsDir e) eqn:Hdir.
    + step_addDir. rewrite Hself; [exact Hcommon | | assumption | assumption |].
      * eapply same_cfg_trans; [exact Hc0|].
        eapply same_cfg_trans; [|apply append_fields]. unfold same_cfg; cbn; tauto.
      * now rewrite <- (same_cfg_allow _ _ _ Hc0).
    + exact Hcommon.
Qed.

Lemma levelItems_length t dir prefix depth n entries :
  forall i, (List.length (levelItems t dir prefix depth n i entries)
             <= List.length entries)%nat.
Proof.
  induction entries as [|e rest IH]; intros i; [apply Nat.le_refl|].
  cbn [levelItems]. rewrite length_app. specialize (IH (S i)).
  destruct (allow t e); cbn [List.length]; lia.
Qed.

Lemma levelItems_files t dir prefix depth n entries :
  (forall e, In e entries -> allow t e = true -> IsDir e = false) ->
  forall i, ndirs (levelItems t dir prefix depth n i entries) = 0%nat /\
            nfiles (levelItems t dir prefix depth n i entries)
            = List.length (levelItems t dir prefix depth n i entries).
Proof.
  induction entries as [|e rest IH]; intros Hleaf i; [split; reflexivity|].
  cbn [levelItems]. rewrite ndirs_app, nfiles_app, length_app.
  destruct (IH (fun x Hx => Hleaf x (or_intror Hx)) (S i)) as (Hd & Hf).
  rewrite Hd, Hf. destruct (allow t e) eqn:Ha; [|split; reflexivity].
  unfold ndirs, nfiles. cbn. rewrite (Hleaf e (or_introl eq_refl) Ha).
  split; reflexivity.
Qed.

(** X4. With the limit set to 1 a render lists the root and nothing else:
    when the root lists, [New] returns without error a report that is the
    root line followed by one line for each entry of the root that passes
    the filter, in listing order, directories included and not entered;
    the counters count these lines by kind. *)
Theorem level_one_lists_root
        (fuel : nat) (f : FS) (name : string) (opts : list Opt)
        (entries : list DirEntry)
        (Hopts : Forall package_opt opts)
        (Hlevel : level (New_init f name opts) = 1)
        (Hlist : ReadDir f (walkRoot name) = inl entries)
        (Hlen : len entries < 2 ^ 63) :
  exists t,
    New (S (S fuel)) f name opts = Some (t, None) /\
    tree t = name :: map (line t)
                         (levelItems t (walkRoot name) "" 0 (len entries) 0 entries) /\
    NDirs t = Z.of_nat (ndirs (levelItems t (walkRoot name) "" 0 (len entries) 0 entries)) /\
    NFiles t = Z.of_nat (nfiles (levelItems t (walkRoot name) "" 0 (len entries) 0 entries)).
Proof.
  destruct (New_init_fields f name opts Hopts) as (Hfs & Htree & _ & Hnd & Hnf & _).
  set (t0 := New_init f name opts) in *.
  destruct (rangeEntries_flat (treeFSWithPrefix (S fuel)) t0 (walkRoot name) "" 0
              (len entries) 0%nat entries) with (rest := entries) (i := 0%nat) (t := t0)
    as (t & Hrun & Hc & Ht & Hd & Hf).
  - intros e t pf Hct _ _ _.
    replace (GoInt.add 0 1) with (level t)
      by (destruct Hct as (_ & _ & _ & _ & _ & ->); rewrite Hlevel; reflexivity).
    apply treeFSWithPrefix_at_limit.
    destruct Hct as (_ & _ & _ & _ & _ & ->). rewrite Hlevel. lia.
  - apply same_cfg_refl.
  - apply incl_refl.
  - exists t. split.
    + rewrite New_unfold. fold t0. cbn [treeFSWithPrefix].
      unfold treeFSWithPrefix_body. now rewrite guard_at_root, Hfs, Hlist.
    + rewrite (levelItems_same_cfg t0 t) by exact Hc.
      pose proof (levelItems_length t0 (walkRoot name) "" 0 (len entries) entries 0)
        as Hll.
      pose proof (ndirs_nfiles (levelItems t0 (walkRoot name) "" 0 (len entries) 0 entries))
        as Hsum.
      unfold len in Hlen.
      rewrite Ht, Hd, Hf, Htree, Hnd, Hnf, !bumpN_exact by lia.
      repeat split. cbn [app]. f_equal. apply map_ext. intros it.
      symmetry. now apply line_same_cfg.
Qed.

(** The package's level tree, limited to one level: the directory [a] alone. *)
Lemma level_one_lists_root_witness :
  exists t,
    New 2 mapfs_deep "." [Level 1] = Some (t, None) /\
    tree t = "." :: map (line t) (levelItems t "." "" 0 1 0 [dir "a"]) /\
    NDirs t = 1 /\ NFiles t = 0.
Proof.
  destruct (level_one_lists_root 0 mapfs_deep "." [Level 1] [dir "a"])
    as (t & Hrun & Ht & Hd & Hf).
  - repeat constructor; unfold GoInt.in_range; lia.
  - reflexivity.
  - reflexivity.
  - reflexivity.
  - exists t. split; [exact Hrun|]. split; [exact Ht|].
    assert (Ha : allow t (dir "a") = true).
    { vm_compute in Hrun. injection Hrun as <-. reflexivity. }
    cbn [levelItems] in Hd, Hf. rewrite Ha in Hd, Hf. split; [exact Hd | exact Hf].
Defined.

(** X5. A directory none of whose surviving entries is a directory is
    finished in one call: the walk returns without error, having appended
    one line for each entry that passes the filter, in listing order, and
    counted each as a file; it lists nothing further. *)
Theorem leaf_directory_lists_entries
        (fuel : nat) (t : TreeFS) (f : FS) (name prefix : string) (lvl : Z)
        (entries : list DirEntry)
        (Hfs : fsys t = Some f)
        (Hguard : ~ (0 < level t /\ lvl = level t))
        (Hlist : ReadDir f name = inl entries)
        (Hleaf : forall e, In e entries -> allow t e = true -> IsDir e = false) :
  exists t',
    treeFSWithPrefix (S fuel) t name prefix lvl = Some (t', None) /\
    same_cfg t t' /\
    tree t' = (tree t ++ map (line t)
                 (levelItems t name prefix 0 (len entries) 0 entries))%list /\
    NDirs t' = NDirs t /\
    NFiles t' = bumpN (List.length (levelItems t name prefix 0 (len entries) 0 entries))
                      (NFiles t).
Proof.
  destruct (rangeEntries_flat (treeFSWithPrefix fuel) t name prefix lvl
              (len entries) 0%nat entries) with (rest := entries) (i := 0%nat) (t := t)
    as (t' & Hrun & Hc & Ht & Hd & Hf).
  - intros e t1 pf _ Hin Hdir Ha. rewrite (Hleaf e Hin Ha) in Hdir. discriminate.
  - apply same_cfg_refl.
  - apply incl_refl.
  - destruct (levelItems_files t name prefix 0 (len entries) entries Hleaf 0)
      as (Hzero & Hall).
    rewrite Hzero in Hd. rewrite Hall in Hf.
    exists t'. split; [|auto].
    cbn [treeFSWithPrefix]. unfold treeFSWithPrefix_body.
    replace ((0 <? level t) && (lvl =? level t)) with false.
    + now rewrite Hfs, Hlist.
    + symmetry. apply andb_false_iff.
      destruct (Z.ltb_spec 0 (level t)); [|now left].
      right. apply Z.eqb_neq. intros Heq. apply Hguard. auto.
Qed.

(** The directory [c] of the package's plain tree: two files. *)
Lemma leaf_directory_lists_entries_witness :
  let t := mkTreeFS (Some mapfs_plain) ["."; "└── c"] "" 1 0 false false false 0 in
  exists t',
    treeFSWithPrefix 1 t "c" "    " 1 = Some (t', None) /\
    tree t' = ["."; "└── c"; "    ├── c1.test"; "    └── c2.test"] /\
    NDirs t' = 1 /\ NFiles t' = 2.
Proof.
  intros t.
  destruct (leaf_directory_lists_entries 0 t mapfs_plain "c" "    " 1
              [file "c1.test"; file "c2.test"])
    as (t' & Hrun & _ & Ht & Hd & Hf).
  - reflexivity.
  - cbn. lia.
  - reflexivity.
  - intros e [<-|[<-|[]]] _; reflexivity.
  - exists t'. split; [exact Hrun|]. split; [exact Ht|].
    split; [exact Hd | exact Hf].
Defined.

(** ** Returning, with and without a limit *)

Lemma treeFSWithPrefix_limited_returns fuel :
  forall t f name prefix lvl,
    fsys t = Some f ->
    0 < level t < 2 ^ 63 -> 0 <= lvl <= level t ->
    level t - lvl < Z.of_nat fuel ->
    exists r, treeFSWithPrefix fuel t name prefix lvl = Some r.
Proof.
  induction fuel as [|fuel IH]; intros t f name prefix lvl Hfs Hlv Hlvl Hfuel; [lia|].
  cbn [treeFSWithPrefix]. unfold treeFSWithPrefix_body.
  destruct ((0 <? level t) && (lvl =? level t)) eqn:Hguard; [eauto|].
  assert (Hlt : lvl < level t).
  { apply andb_false_iff in Hguard. destruct Hguard as [H|H].
    - apply Z.ltb_ge in H. lia.
    - apply Z.eqb_neq in H. lia. }
  rewrite Hfs. destruct (ReadDir f name) as [entries|e]; [|eauto].
  assert (Hadd : GoInt.add lvl 1 = lvl + 1).
  { unfold GoInt.add. apply wrap_small. unfold GoInt.in_range. lia. }
  assert (Hgen : forall es i n t1,
             same_cfg t t1 ->
             exists r, rangeEntries (treeFSWithPrefix fuel) name prefix lvl n i es t1
                       = Some r).
  { induction es as [|entry rest IHe]; intros i n t1 Hc1; [cbn; eauto|].
    cbn [rangeEntries].
    destruct (allow t1 entry); cbn [negb]; [|now apply IHe].
    assert (Hstep : forall conn,
               same_cfg t (append (bump t1 entry) prefix conn name (Name entry))).
    { intros conn. eapply same_cfg_trans; [exact Hc1|].
      eapply same_cfg_trans; [apply bump_fields | apply append_fields]. }
    unfold bump in Hstep.
    destruct (IsDir entry).
    - step_addDir.
      match goal with
      | |- exists r, match treeFSWithPrefix _ ?x ?nm ?pf ?lv with _ => _ end = _ =>
          set (t2 := x); set (pf1 := pf)
      end.
      assert (Hc2 : same_cfg t t2) by (subst t2; apply Hstep).
      pose proof Hc2 as (Hf2 & _ & _ & _ & _ & Hl2).
      destruct (IH t2 f (path.Join [name; Name entry]) pf1 (GoInt.add lvl 1))
        as ([t3 e3] & Hcall).
      + congruence.
      + rewrite Hl2. exact Hlv.
      + rewrite Hl2, Hadd. lia.
      + rewrite Hl2, Hadd. lia.
      + rewrite Hcall. destruct e3 as [e3|]; [eauto|].
        apply IHe. eapply same_cfg_trans; [exact Hc2|].
        exact (treeFSWithPrefix_same_cfg _ _ _ _ _ _ _ Hcall).
    - apply IHe, Hstep. }
  apply Hgen, same_cfg_refl.
Qed.

(** X7. A render with a limit returns whatever the file system: the walk
    descends at most [level] directories, so it comes back even where the
    directories nest without end (a link that loops, say).  In the model,
    a recursion budget of [level + 1] calls is enough. *)
Theorem limited_render_returns
        (f : FS) (name : string) (opts : list Opt)
        (Hopts : Forall package_opt opts)
        (Hlimit : 0 < level (New_init f name opts)) :
  exists t err,
    New (S (Z.to_nat (level (New_init f name opts)))) f name opts = Some (t, err).
Proof.
  destruct (New_init_fields f name opts Hopts) as (Hfs & _ & _ & _ & _ & Hlv).
  destruct (treeFSWithPrefix_limited_returns
              (S (Z.to_nat (level (New_init f name opts))))
              (New_init f name opts) f (walkRoot name) "" 0 Hfs)
    as ([t err] & Hrun); try lia.
  exists t, err. now rewrite New_unfold.
Qed.

(** The endless file system, two levels of it. *)
Lemma limited_render_returns_witness :
  exists t err, New 3 fs_endless "." [Level 2] = Some (t, err).
Proof.
  apply (limited_render_returns fs_endless "." [Level 2]).
  - repeat constructor; unfold GoInt.in_range; lia.
  - reflexivity.
Defined.

(** X8. The walk has no guard against endless nesting: without a limit, on
    a file system every directory of which lists a subdirectory that passes
    the filter, [New] does not return, whatever the recursion budget (the Go
    program recurses until its stack is exhausted). *)
Theorem unlimited_render_of_endless_nesting
        (fuel : nat) (f : FS) (name : string) (opts : list Opt)
        (Hopts : Forall package_opt opts)
        (Hunlimited : level (New_init f name opts) <= 0)
        (Hendless : forall p, exists entries e,
            ReadDir f p = inl entries /\ In e entries /\ IsDir e = true /\
            allow (New_init f name opts) e = true) :
  New fuel f name opts = None.
Proof.
  destruct (New_init_fields f name opts Hopts) as (Hfs & _).
  rewrite New_unfold. set (t0 := New_init f name opts) in *.
  assert (H : forall t nm pf lv,
             same_cfg t0 t -> treeFSWithPrefix fuel t nm pf lv = None).
  { induction fuel as [|fuel IH]; intros t nm pf lv Hc; [reflexivity|].
    cbn [treeFSWithPrefix]. unfold treeFSWithPrefix_body.
    pose proof Hc as (Hf & _ & _ & _ & _ & Hl).
    assert (Hle : (0 <? level t) = false) by (apply Z.ltb_ge; lia).
    rewrite Hle, Hf, Hfs. cbn [andb].
    destruct (Hendless nm) as (entries & e & Hlist & Hin & Hd & Ha).
    rewrite Hlist.
    assert (Hgen : forall es i t1,
               same_cfg t0 t1 ->
               (exists e, In e es /\ IsDir e = true /\ allow t1 e = true) ->
               rangeEntries (treeFSWithPrefix fuel) nm pf lv (len entries) i es t1
               = None).
    { induction es as [|entry rest IHe]; intros i t1 Hc1 (x & Hx & Hxd & Hxa).
      - destruct Hx.
      - cbn [rangeEntries]. destruct (allow t1 entry) eqn:Hallow; cbn [negb].
        + assert (Hstep : forall conn, same_cfg t0
                    (append (bump t1 entry) pf conn nm (Name entry))).
          { intros conn. eapply same_cfg_trans; [exact Hc1|].
            eapply same_cfg_trans; [apply bump_fields | apply append_fields]. }
          unfold bump in Hstep.
          destruct (IsDir entry) eqn:Hdir.
          * step_addDir. rewrite IH; [reflexivity | apply Hstep].
          * apply IHe; [apply Hstep|].
            destruct Hx as [<-|Hx]; [congruence|].
            exists x. repeat split; auto.
            rewrite <- Hxa. apply same_cfg_allow.
            eapply same_cfg_trans; [|apply append_fields].
            unfold same_cfg; cbn; tauto.
        + apply IHe; [exact Hc1|].
          destruct Hx as [<-|Hx]; [congruence|]. eauto. }
    apply Hgen; [exact Hc|]. exists e. repeat split; auto.
    now rewrite (same_cfg_allow _ _ _ Hc). }
  apply H, same_cfg_refl.
Qed.

(** The endless file system, without a limit. *)
Lemma unlimited_render_of_endless_nesting_witness :
  New 50 fs_endless "." [Hidden; Level 0] = None.
Proof.
  apply unlimited_render_of_endless_nesting.
  - repeat constructor; unfold GoInt.in_range; lia.
  - cbn. lia.
  - intros p. exists [dir "again"], (dir "again"). repeat split. now left.
Defined.

(** ** The drawing *)

Lemma concat_empty_snoc (l : list string) (c : string) :
  String.concat "" (l ++ [c])%list = String.concat "" l ++ c.
Proof.
  induction l as [|x l IH]; [reflexivity|].
  destruct l as [|y l].
  - reflexivity.
  - change (String.concat "" ((x :: y :: l) ++ [c])%list)
      with (x ++ String.concat "" ((y :: l) ++ [c])%list).
    rewrite IH.
    change (String.concat "" (x :: y :: l)) with (x ++ String.concat "" (y :: l)).
    now rewrite string_app_assoc.
Qed.

(** The prefix of a directory [k] levels down is [k] segments long. *)
Lemma reaches_segments f t root k d prefix :
  reaches f t root k d prefix ->
  exists segs,
    prefix = String.concat "" segs /\ List.length segs = k /\
    Forall (fun s => s = pipePrefix \/ s = spacePrefix) segs.
Proof.
  induction 1 as [|k d prefix entries i e _ (segs & Hp & Hk & Hs) _ _ _ _].
  - exists []. repeat split. constructor.
  - exists (segs ++ [continuationAt (Z.of_nat i) (len entries)])%list.
    rewrite concat_empty_snoc, length_app, Hp. cbn [List.length].
    split; [reflexivity|]. split; [lia|].
    apply Forall_app. split; [exact Hs|]. constructor; [|constructor].
    unfold continuationAt. destruct (negb _); auto.
Qed.

Lemma New_flags fuel f name opts t err :
  Forall package_opt opts ->
  New fuel f name opts = Some (t, err) ->
  (hidden t = true <-> In Hidden opts) /\
  (dirOnly t = true <-> In DirOnly opts) /\
  (fullPathPrefix t = true <-> In FullPathPrefix opts).
Proof.
  intros Hopts Hrun.
  destruct (New_items _ _ _ _ _ _ Hopts Hrun) as ((_ & _ & Hh & Hd & Hf & _) & _).
  rewrite Hh, Hd, Hf. unfold New_init.
  destruct (applyOpts_flags opts Hopts
              (mkTreeFS (Some f) [name] "" 0 0 false false false 0))
    as (Ah & Ad & Af & _).
  cbn in Ah, Ad, Af.
  destruct (substituted name); cbn [hidden dirOnly fullPathPrefix set_pathPrefix];
    (split; [|split]); intuition congruence.
Qed.

(** X3. How a report is drawn.  The entries displayed are those of the
    traversal [walkItems]; below the root line every line is a prefix, a
    connector, a space and the shown name.  The directory of an entry is
    reached from the walk root through as many directories as its depth
    says, and its prefix is the one built on the way: one segment, pipe or
    space, per directory passed.  The connector is the elbow exactly when
    the entry is the last one of the listing its directory returned,
    counted before the filter, and the tee otherwise. *)
Theorem layout_follows_listing_position
        (fuel : nat) (f : FS) (name : string) (opts : list Opt)
        (t : TreeFS) (err : option error)
        (Hopts : Forall package_opt opts)
        (Hrun : New fuel f name opts = Some (t, err)) :
  exists items,
    walkItems fuel f t (walkRoot name) "" 0 = Some (items, err) /\
    tree t = name :: map (line t) items /\
    Forall (fun it =>
      line t it = it_prefix it ++ it_connector it ++ " "
                  ++ displayed t (it_dir it) (Name (it_entry it)) /\
      reaches f t (walkRoot name) (it_depth it) (it_dir it) (it_prefix it) /\
      (exists segs,
          it_prefix it = String.concat "" segs /\
          List.length segs = it_depth it /\
          Forall (fun s => s = pipePrefix \/ s = spacePrefix) segs) /\
      exists entries,
        ReadDir f (it_dir it) = inl entries /\
        nth_error entries (it_index it) = Some (it_entry it) /\
        (it_connector it = elbowConnector \/ it_connector it = teeConnector) /\
        (len entries < 2 ^ 63 ->
         (it_connector it = elbowConnector <->
          S (it_index it) = List.length entries))) items.
Proof.
  destruct (New_traversal _ _ _ _ _ _ Hopts Hrun) as (_ & items & Hw & Ht & _ & _).
  exists items. split; [exact Hw|]. split; [exact Ht|].
  assert (Hall : Forall (item_listed f (walkRoot name) t) items).
  { eapply (walkItems_listed f t (walkRoot name) fuel); [constructor | | exact Hw].
    intros Hpos. cbn. lia. }
  eapply Forall_impl; [|exact Hall].
  intros it (_ & Hreach & (entries & Hlist & Hnth & Hconn) & _).
  split; [reflexivity|]. split; [exact Hreach|].
  split; [eapply reaches_segments; exact Hreach|].
  exists entries. split; [exact Hlist|]. split; [exact Hnth|]. split.
  - rewrite Hconn. unfold connectorAt. destruct (_ =? _); auto.
  - intros Hlen. rewrite Hconn.
    apply connectorAt_last; [exact Hlen|].
    apply nth_error_Some. congruence.
Qed.

(** The package's own test tree. *)
Lemma layout_follows_listing_position_witness :
  let t := report (New 4 mapfs_plain "." []) in
  exists items,
    walkItems 4 mapfs_plain t "." "" 0 = Some (items, None) /\
    tree t = "." :: map (line t) items /\
    Forall (fun it =>
      line t it = it_prefix it ++ it_connector it ++ " "
                  ++ displayed t (it_dir it) (Name (it_entry it)) /\
      reaches mapfs_plain t "." (it_depth it) (it_dir it) (it_prefix it) /\
      (exists segs,
          it_prefix it = String.concat "" segs /\
          List.length segs = it_depth it /\
          Forall (fun s => s = pipePrefix \/ s = spacePrefix) segs) /\
      exists entries,
        ReadDir mapfs_plain (it_dir it) = inl entries /\
        nth_error entries (it_index it) = Some (it_entry it) /\
        (it_connector it = elbowConnector \/ it_connector it = teeConnector) /\
        (len entries < 2 ^ 63 ->
         (it_connector it = elbowConnector <->
          S (it_index it) = List.length entries))) items.
Proof.
  apply (layout_follows_listing_position 4 mapfs_plain "." [] _ None).
  - constructor.
  - vm_compute. reflexivity.
Defined.

(** X9. What a report never shows.  The entries displayed, those of the
    traversal [walkItems], are entries of the listings of the directories
    reached.  Unless [Hidden] is among the options, none of them has a name
    that starts with a dot, the names ["."] and ["..."] apart; with
    [DirOnly] among the options every one of them is a directory.  This
    holds for the lines of a failed render too. *)
Theorem filters_bound_the_report
        (fuel : nat) (f : FS) (name : string) (opts : list Opt)
        (t : TreeFS) (err : option error)
        (Hopts : Forall package_opt opts)
        (Hrun : New fuel f name opts = Some (t, err)) :
  exists items,
    walkItems fuel f t (walkRoot name) "" 0 = Some (items, err) /\
    tree t = name :: map (line t) items /\
    Forall (fun it =>
      item_listed f (walkRoot name) t it /\
      (~ In Hidden opts ->
       HasPrefix (Name (it_entry it)) "." = true ->
       Name (it_entry it) = "." \/ Name (it_entry it) = "...") /\
      (In DirOnly opts -> IsDir (it_entry it) = true)) items.
Proof.
  destruct (New_traversal _ _ _ _ _ _ Hopts Hrun) as (_ & items & Hw & Ht & _ & _).
  destruct (New_flags _ _ _ _ _ _ Hopts Hrun) as (Hh & Hd & _).
  exists items. split; [exact Hw|]. split; [exact Ht|].
  assert (Hall : Forall (item_listed f (walkRoot name) t) items).
  { eapply (walkItems_listed f t (walkRoot name) fuel); [constructor | | exact Hw].
    intros Hpos. cbn. lia. }
  eapply Forall_impl; [|exact Hall].
  intros it Hit. split; [exact Hit|]. destruct Hit as (Hallow & _). split.
  - intros Hno Hdot.
    assert (Hhid : hidden t = false).
    { destruct (hidden t); [|reflexivity]. exfalso. apply Hno, Hh. reflexivity. }
    unfold allow in Hallow. rewrite Hdot, Hhid in Hallow. cbn [andb negb] in Hallow.
    destruct (String.eqb_spec (Name (it_entry it)) ".") as [E|_]; [now left|].
    destruct (String.eqb_spec (Name (it_entry it)) "...") as [E|_]; [now right|].
    discriminate Hallow.
  - intros Hin. apply (allow_dirOnly t); [|exact Hallow]. now apply Hd.
Qed.

(** A render of directories only, hidden ones left out. *)
Lemma filters_bound_the_report_witness :
  let t := report (New 4 mapfs_plain "." [DirOnly]) in
  exists items,
    walkItems 4 mapfs_plain t "." "" 0 = Some (items, None) /\
    tree t = "." :: map (line t) items /\
    Forall (fun it =>
      item_listed mapfs_plain "." t it /\
      (~ In Hidden [DirOnly] ->
       HasPrefix (Name (it_entry it)) "." = true ->
       Name (it_entry it) = "." \/ Name (it_entry it) = "...") /\
      (In DirOnly [DirOnly] -> IsDir (it_entry it) = true)) items.
Proof.
  apply (filters_bound_the_report 4 mapfs_plain "." [DirOnly] _ None).
  - repeat constructor.
  - vm_compute. reflexivity.
Defined.

(** ** The command *)

Lemma NewMulti_loop_first_failure fuel before d after tb e :
  Forall (fun a => exists r, renders_to fuel a r) before ->
  New fuel (Fsys d) (Arg_Name d) (Opts d) = Some (tb, Some e) ->
  forall acc, exists t,
    NewMulti_loop fuel (before ++ d :: after)%list acc = Some (t, Some e).
Proof.
  intros Hb Hd. induction Hb as [|a before (r & Hr) _ IH]; intros acc.
  - cbn [app NewMulti_loop]. rewrite Hd. eauto.
  - cbn [app NewMulti_loop]. unfold renders_to in Hr. rewrite Hr. apply IH.
Qed.

Lemma options_package fl :
  GoInt.in_range (multi.maxDepthLevel fl) -> Forall package_opt (multi.options fl).
Proof.
  intros H. unfold multi.options.
  destruct (multi.hidden fl), (multi.dirOnly fl), (multi.fullFilePath fl);
    cbn [app]; repeat (constructor; try exact H).
Qed.

Lemma options_DirOnly fl : multi.dirOnly fl = true -> In DirOnly (multi.options fl).
Proof.
  intros H. unfold multi.options. rewrite H.
  destruct (multi.hidden fl), (multi.fullFilePath fl); cbn; tauto.
Qed.

Lemma nfiles_all_dirs items :
  Forall (fun it => IsDir (it_entry it) = true) items -> nfiles items = 0%nat.
Proof.
  unfold nfiles. induction 1 as [|it items H _ IH]; [reflexivity|].
  cbn [filter]. now rewrite H.
Qed.

Lemma New_dirOnly_no_files fuel f name opts t err :
  Forall package_opt opts -> In DirOnly opts ->
  New fuel f name opts = Some (t, err) -> NFiles t = 0.
Proof.
  intros Hopts Hin Hrun.
  destruct (New_items _ _ _ _ _ _ Hopts Hrun) as (_ & items & _ & _ & Hf & Hall).
  destruct (New_flags _ _ _ _ _ _ Hopts Hrun) as (_ & Hd & _).
  rewrite Hf, nfiles_all_dirs; [reflexivity|].
  eapply Forall_impl; [|exact Hall].
  intros it (Hallow & _). apply (allow_dirOnly t); [now apply Hd | exact Hallow].
Qed.

Lemma sumZ_zero (l : list Z) : Forall (fun z => z = 0) l -> sumZ l = 0.
Proof.
  induction 1 as [|z l -> _ IH]; [reflexivity|].
  unfold sumZ in *. cbn [fold_right]. now rewrite IH.
Qed.

Lemma main_operands fuel DirFS fl a args :
  multi.main fuel DirFS fl (a :: args) =
  match NewMulti fuel (map (fun d => mkArg (DirFS d) d (multi.options fl)) (a :: args)) with
  | None => None
  | Some (_, Some err) => Some (multi.Exited 1 "" (Error err ++ nl))
  | Some (tfs, None) => Some (multi.Exited 0 (TreeFS_String tfs ++ nl) "")
  end.
Proof.
  unfold multi.main.
  assert (H : (len (a :: args) <? 1) = false).
  { apply Z.ltb_ge. unfold len. cbn [List.length]. lia. }
  now rewrite H.
Qed.

(** X10. The command panics exactly when it is given no operand: the usage
    branch indexes the empty operand list for the program name, so the
    usage line is never written. *)
Theorem main_panics_without_operands
        (fuel : nat) (DirFS : string -> FS) (fl : multi.flags) (args : list string) :
  multi.main fuel DirFS fl args = Some multi.Panicked <-> args = [].
Proof.
  split.
  - destruct args as [|a args]; [reflexivity|].
    rewrite main_operands.
    destruct (NewMulti fuel _) as [[t [e|]]|]; discriminate.
  - intros ->. reflexivity.
Qed.

(** X11. The command is all or nothing.  When an operand fails to render
    after others rendered well, nothing is written to the standard output:
    the error text of the first failing operand and a line feed go to the
    standard error, the exit status is 1, and the operands after it are not
    looked at. *)
Theorem main_reports_first_failure
        (fuel : nat) (DirFS : string -> FS) (fl : multi.flags)
        (before : list string) (d : string) (after : list string)
        (tb : TreeFS) (e : error)
        (Hbefore : Forall (fun a => exists r,
                      New fuel (DirFS a) a (multi.options fl) = Some (r, None)) before)
        (Hfail : New fuel (DirFS d) d (multi.options fl) = Some (tb, Some e)) :
  multi.main fuel DirFS fl (before ++ d :: after)
  = Some (multi.Exited 1 "" (Error e ++ nl)).
Proof.
  set (mk := fun d => mkArg (DirFS d) d (multi.options fl)).
  destruct (NewMulti_loop_first_failure fuel (map mk before) (mk d) (map mk after)
              tb e) with (acc := zeroTreeFS) as (t & Ht).
  - apply Forall_map. eapply Forall_impl; [|exact Hbefore].
    intros a (r & Hr). exists r. exact Hr.
  - exact Hfail.
  - assert (Hrun : NewMulti fuel (map mk (before ++ d :: after)) = Some (t, Some e)).
    { unfold NewMulti. rewrite map_app. exact Ht. }
    destruct (before ++ d :: after)%list as [|a args] eqn:E.
    + destruct before; discriminate E.
    + rewrite main_operands. fold mk. now rewrite Hrun.
Qed.

(** The second of three operands cannot be read. *)
Lemma main_reports_first_failure_witness :
  multi.main 4 dirfs_lost (multi.mkFlags false false false (-1))
             (["."] ++ "../lost" :: ["."])
  = Some (multi.Exited 1 "" ("open .: permission denied" ++ nl)).
Proof.
  apply (main_reports_first_failure 4 dirfs_lost (multi.mkFlags false false false (-1))
           ["."] "../lost" ["."]
           (report (New 4 (dirfs_lost "../lost") "../lost"
                        (multi.options (multi.mkFlags false false false (-1)))))
           (mkError "open .: permission denied")).
  - constructor; [|constructor].
    exists (report (New 4 mapfs_plain "." [Level (-1)])). vm_compute. reflexivity.
  - vm_compute. reflexivity.
Defined.

(** X12. The command hands [New] the file system [os.DirFS(d)] together
    with the name [d]: what it lists is the path [d] inside the directory
    [d] (the path ["."] when [d] is ["."] or contains ["../"]).  When that
    path cannot be listed there, the command fails with the error of that
    listing, whatever the directory [d] itself holds. *)
Theorem main_lists_operand_inside_itself
        (fuel : nat) (DirFS : string -> FS) (fl : multi.flags)
        (d : string) (e : error)
        (Hint : GoInt.in_range (multi.maxDepthLevel fl))
        (Hread : ReadDir (DirFS d) (walkRoot d) = inr e) :
  multi.main (S fuel) DirFS fl [d] = Some (multi.Exited 1 "" (Error e ++ nl)).
Proof.
  pose proof (options_package fl Hint) as Hopts.
  destruct (New_init_fields (DirFS d) d (multi.options fl) Hopts)
    as (Hfs & _ & _ & _ & _ & Hlv).
  assert (Hnew : New (S fuel) (DirFS d) d (multi.options fl)
                 = Some (New_init (DirFS d) d (multi.options fl), Some e)).
  { rewrite New_unfold. cbn [treeFSWithPrefix]. unfold treeFSWithPrefix_body.
    assert (Hg : (0 <? level (New_init (DirFS d) d (multi.options fl)))
                 && (0 =? level (New_init (DirFS d) d (multi.options fl))) = false).
    { destruct (Z.eqb_spec 0 (level (New_init (DirFS d) d (multi.options fl))))
        as [<-|_]; [reflexivity | apply andb_false_r]. }
    rewrite Hg, Hfs, Hread. reflexivity. }
  rewrite main_operands. unfold NewMulti. cbn [map NewMulti_loop Fsys Arg_Name Opts].
  now rewrite Hnew.
Qed.

(** The directory [src] holds one file and no directory [src]. *)
Lemma main_lists_operand_inside_itself_witness :
  ReadDir (dirfs_leaf "src") "." = inl [file "readme"] /\
  multi.main 1 dirfs_leaf (multi.mkFlags true false false 3) ["src"]
  = Some (multi.Exited 1 "" ("open src: file does not exist" ++ nl)).
Proof.
  split; [reflexivity|].
  apply (main_lists_operand_inside_itself 0 dirfs_leaf
           (multi.mkFlags true false false 3) "src"
           (mkError "open src: file does not exist")).
  - unfold GoInt.in_range. cbn. lia.
  - reflexivity.
Defined.

Lemma Forall2_operands fuel (DirFS : string -> FS) opts args reports :
  Forall2 (fun d r => New fuel (DirFS d) d opts = Some (r, None)) args reports ->
  Forall2 (renders_to fuel) (map (fun d => mkArg (DirFS d) d opts) args) reports.
Proof.
  induction 1 as [|d r args reports H _ IH]; cbn [map]; constructor; assumption.
Qed.

(** X13. What the command prints when every operand renders.  The
    standard output is the lines of the renders, one after the other and
    joined by line feeds, an empty line, and one summary for all of them:
    the sums of the directory and file counts.  The summary names the files
    even under [-d], where it reads "0 files"; the exit status is 0 and
    nothing goes to the standard error. *)
Theorem main_prints_aggregate
        (fuel : nat) (DirFS : string -> FS) (fl : multi.flags)
        (args : list string) (reports : list TreeFS)
        (Hint : GoInt.in_range (multi.maxDepthLevel fl))
        (Hargs : args <> [])
        (Hall : Forall2 (fun d r =>
                   New fuel (DirFS d) d (multi.options fl) = Some (r, None))
                        args reports)
        (Hlen : len (List.concat (map tree reports)) < 2 ^ 63) :
  let D := sumZ (map NDirs reports) in
  let F := sumZ (map NFiles reports) in
  multi.main fuel DirFS fl args
  = Some (multi.Exited 0
            (strings_Join (List.concat (map tree reports)) nl ++ nl ++ nl
             ++ itoa D ++ " " ++ (if D =? 1 then "directory" else "directories")
             ++ ", " ++ itoa F ++ " " ++ (if F =? 1 then "file" else "files")
             ++ nl) "") /\
  (multi.dirOnly fl = true -> F = 0).
Proof.
  intros D F.
  pose proof (options_package fl Hint) as Hopts.
  set (mk := fun d => mkArg (DirFS d) d (multi.options fl)).
  split.
  - destruct (NewMulti_loop_ok fuel (map mk args) reports) with (acc := zeroTreeFS)
      as (t & Hloop & Ht & Hd & Hf).
    + apply Forall_map, Forall_forall. intros a _. exact Hopts.
    + apply Forall2_operands, Hall.
    + cbn. lia.
    + cbn. lia.
    + cbn. lia.
    + cbn [tree zeroTreeFS]. exact Hlen.
    + specialize (Hloop []). rewrite app_nil_r in Hloop. cbn [NewMulti_loop] in Hloop.
      pose proof (NewMulti_dirOnly_off fuel (map mk args) t None Hloop) as Hoff.
      destruct args as [|a args]; [congruence|].
      rewrite main_operands. fold mk. unfold NewMulti. rewrite Hloop.
      unfold TreeFS_String, TreeFS_Graph, TreeFS_Meta.
      rewrite Hoff, Ht, Hd, Hf. cbn [tree NDirs NFiles zeroTreeFS app].
      rewrite !Z.add_0_l. fold D F.
      repeat rewrite string_app_assoc. reflexivity.
  - intros Hdir. unfold F. apply sumZ_zero, Forall_map.
    clear Hargs Hlen D F.
    induction Hall as [|d r args' reports Hr _ IH]; constructor; [|exact IH].
    eapply New_dirOnly_no_files; [exact Hopts | | exact Hr].
    now apply options_DirOnly.
Qed.

(** Two operands under [-d]. *)
Lemma main_prints_aggregate_witness :
  multi.main 4 dirfs_lost (multi.mkFlags false true false (-1)) ["."; "../other"]
  = Some (multi.Exited 0
".
├── b
│   └── d
└── c
../other
├── b
│   └── d
└── c

6 directories, 0 files
" "").
Proof.
  pose (fl := multi.mkFlags false true false (-1)).
  destruct (main_prints_aggregate 4 dirfs_lost fl ["."; "../other"]
              [report (New 4 mapfs_plain "." (multi.options fl));
               report (New 4 mapfs_plain "../other" (multi.options fl))])
    as (Hout & _).
  - unfold GoInt.in_range. cbn. lia.
  - discriminate.
  - constructor; [vm_compute; reflexivity|].
    constructor; [vm_compute; reflexivity | constructor].
  - vm_compute. reflexivity.
  - fold fl. rewrite Hout. vm_compute. reflexivity.
Defined.

(** ** Paths of plain names *)

Lemma string_app_nil_r (s : string) : s ++ "" = s.
Proof. induction s as [|c s IH]; cbn; [reflexivity | now rewrite IH]. Qed.

Lemma list_ascii_app (a b : string) :
  list_ascii_of_string (a ++ b)
  = (list_ascii_of_string a ++ list_ascii_of_string b)%list.
Proof. induction a as [|c a IH]; cbn; [reflexivity | now rewrite IH]. Qed.

Lemma string_length_app (a b : string) :
  String.length (a ++ b) = (String.length a + String.length b)%nat.
Proof. induction a as [|c a IH]; cbn; [reflexivity | now rewrite IH]. Qed.

Lemma plainName_inv n :
  plainName n = true -> n <> "" /\ n <> "." /\ n <> ".." /\ noSlash n = true.
Proof.
  unfold plainName. intros H.
  apply andb_true_iff in H. destruct H as (H & Hns).
  apply andb_true_iff in H. destruct H as (H & Hdd).
  apply andb_true_iff in H. destruct H as (Hne & Hd).
  apply negb_true_iff, String.eqb_neq in Hne, Hd, Hdd. auto.
Qed.

Lemma noSlash_cons c r :
  noSlash (String c r) = true -> path.isSlash c = false /\ noSlash r = true.
Proof.
  cbn [noSlash]. intros H. apply andb_true_iff in H. destruct H as (Hc & Hr).
  apply negb_true_iff in Hc. auto.
Qed.

Lemma copyElem_app s suffix out :
  noSlash s = true -> path.endOrSlash suffix = true ->
  path.copyElem (s ++ suffix) out
  = (suffix, (List.rev (list_ascii_of_string s) ++ out)%list).
Proof.
  revert out. induction s as [|c r IH]; intros out Hs Hsuf.
  - cbn [String.append list_ascii_of_string List.rev app].
    destruct suffix as [|c s]; [reflexivity|].
    cbn [path.endOrSlash] in Hsuf. cbn [path.copyElem]. now rewrite Hsuf.
  - destruct (noSlash_cons _ _ Hs) as (Hc & Hr).
    cbn [String.append path.copyElem list_ascii_of_string List.rev].
    rewrite Hc, IH by assumption. now rewrite <- app_assoc.
Qed.

Lemma cleanLoop_plain_elem fuel s suffix out dotdot :
  plainName s = true -> path.endOrSlash suffix = true ->
  path.cleanLoop (S fuel) false (s ++ suffix) out dotdot =
  path.cleanLoop fuel false suffix
    (List.rev (list_ascii_of_string s) ++
     (if negb (List.length out =? 0)%nat then "/"%char :: out else out))%list
    dotdot.
Proof.
  intros Hp Hsuf. destruct (plainName_inv _ Hp) as (Hne & Hd & Hdd & Hns).
  destruct s as [|c r]; [congruence|].
  destruct (noSlash_cons _ _ Hns) as (Hc & Hr).
  assert (Hfirst : path.isDot c && path.endOrSlash (r ++ suffix) = false).
  { destruct (path.isDot c) eqn:Hdot; [|reflexivity]. cbn [andb].
    destruct r as [|c1 r2].
    - exfalso. apply Hd. unfold path.isDot in Hdot.
      apply Ascii.eqb_eq in Hdot. now subst.
    - cbn [String.append path.endOrSlash]. now destruct (noSlash_cons _ _ Hr). }
  assert (Hsecond : path.isDot c && path.startsDot (r ++ suffix)
                    && path.endOrSlash (path.advance (r ++ suffix)) = false).
  { destruct (path.isDot c) eqn:Hdot; [|reflexivity]. cbn [andb].
    destruct r as [|c1 r2].
    - cbn [String.append]. destruct suffix as [|c2 s2]; [reflexivity|].
      cbn [path.endOrSlash] in Hsuf. cbn [path.startsDot].
      unfold path.isSlash in Hsuf. apply Ascii.eqb_eq in Hsuf. now subst.
    - cbn [String.append path.startsDot path.advance].
      destruct (path.isDot c1) eqn:Hdot1; [|reflexivity]. cbn [andb].
      destruct (noSlash_cons _ _ Hr) as (_ & Hr2).
      destruct r2 as [|c2 r3].
      + exfalso. apply Hdd. unfold path.isDot in Hdot, Hdot1.
        apply Ascii.eqb_eq in Hdot, Hdot1. now subst.
      + cbn [String.append path.endOrSlash]. now destruct (noSlash_cons _ _ Hr2). }
  cbn [String.append path.cleanLoop]. rewrite Hc, Hfirst, Hsecond.
  cbn [andb orb negb].
  change (String c (r ++ suffix)) with (String c r ++ suffix).
  now rewrite copyElem_app.
Qed.

Lemma joined_cons s s' rest :
  joined (s :: s' :: rest) = s ++ "/" ++ joined (s' :: rest).
Proof. reflexivity. Qed.

Lemma joined_snoc segs n :
  segs <> [] -> joined (segs ++ [n]) = joined segs ++ "/" ++ n.
Proof.
  induction segs as [|s segs IH]; [congruence|]. intros _.
  destruct segs as [|s' rest]; [reflexivity|].
  change ((s :: s' :: rest) ++ [n])%list with (s :: s' :: (rest ++ [n]))%list.
  rewrite !joined_cons.
  change (s' :: (rest ++ [n]))%list with ((s' :: rest) ++ [n])%list.
  rewrite IH by discriminate. now rewrite !string_app_assoc.
Qed.

Lemma plainName_length s : plainName s = true -> (1 <= String.length s)%nat.
Proof.
  intros H. destruct (plainName_inv _ H) as (Hne & _).
  destruct s; [congruence | cbn; lia].
Qed.

Lemma joined_length segs :
  Forall (fun s => plainName s = true) segs ->
  (2 * List.length segs <= S (String.length (joined segs)))%nat.
Proof.
  induction 1 as [|s segs Hs _ IH]; [cbn; lia|].
  pose proof (plainName_length _ Hs).
  destruct segs as [|s' rest]; [cbn [joined String.concat List.length]; lia|].
  rewrite joined_cons, !string_length_app.
  cbn [List.length String.length] in *. lia.
Qed.

Lemma cleanLoop_joined segs :
  Forall (fun s => plainName s = true) segs -> segs <> [] ->
  forall fuel out dotdot,
    (2 * List.length segs <= S fuel)%nat ->
    path.cleanLoop fuel false (joined segs) out dotdot =
    (List.rev (list_ascii_of_string (joined segs)) ++
     (if negb (List.length out =? 0)%nat then "/"%char :: out else out))%list.
Proof.
  induction 1 as [|s segs Hs Hsegs IH]; [congruence|].
  intros _ fuel out dotdot Hfuel.
  destruct segs as [|s' rest].
  - cbn [joined String.concat].
    destruct fuel as [|fuel]; [cbn in Hfuel; lia|].
    rewrite <- (string_app_nil_r s) at 1.
    rewrite cleanLoop_plain_elem by auto.
    destruct fuel; reflexivity.
  - rewrite joined_cons.
    destruct fuel as [|[|fuel]]; try (cbn [List.length] in Hfuel; lia).
    rewrite cleanLoop_plain_elem by auto.
    change ("/" ++ joined (s' :: rest)) with (String "/"%char (joined (s' :: rest))).
    cbn [path.cleanLoop]. change (path.isSlash "/") with true. cbn iota.
    rewrite IH; [|discriminate | cbn [List.length] in *; lia].
    rewrite list_ascii_app. cbn [list_ascii_of_string].
    rewrite rev_app_distr. cbn [List.rev]. rewrite <- !app_assoc. cbn [app].
    f_equal.
    destruct (plainName_inv _ Hs) as (Hne & _).
    destruct s as [|c r]; [congruence|].
    cbn [list_ascii_of_string List.rev]. rewrite !length_app. cbn [List.length].
    replace (_ =? 0)%nat with false by (symmetry; apply Nat.eqb_neq; lia).
    cbn [negb]. now rewrite <- !app_assoc.
Qed.

Lemma joined_head s segs :
  plainName s = true ->
  exists c r, joined (s :: segs) = String c r /\ path.isSlash c = false.
Proof.
  intros H. destruct (plainName_inv _ H) as (Hne & _ & _ & Hns).
  destruct s as [|c r]; [congruence|].
  destruct (noSlash_cons _ _ Hns) as (Hc & _).
  destruct segs as [|s' rest].
  - exists c, r. auto.
  - exists c, (r ++ "/" ++ joined (s' :: rest)). auto.
Qed.

(** [path.Clean] leaves a path of plain names as it is. *)
Lemma Clean_joined segs :
  Forall (fun s => plainName s = true) segs -> segs <> [] ->
  path.Clean (joined segs) = joined segs.
Proof.
  intros Hp Hne. pose proof (joined_length segs Hp) as Hlen.
  destruct segs as [|s segs]; [congruence|].
  destruct (joined_head s segs (Forall_inv Hp)) as (c & r & Heq & Hc).
  assert (Hclean : path.Clean (String c r) =
                   let out := path.cleanLoop (S (String.length (String c r))) false
                                             (String c r) [] 0 in
                   match out with
                   | [] => "."
                   | _ :: _ => string_of_list_ascii (List.rev out)
                   end).
  { unfold path.Clean. rewrite Hc. reflexivity. }
  rewrite Heq, Hclean, <- Heq. cbv zeta.
  rewrite cleanLoop_joined by (auto; lia).
  cbn [List.length Nat.eqb negb]. rewrite app_nil_r.
  destruct (List.rev (list_ascii_of_string (joined (s :: segs)))) as [|x l] eqn:Hrev.
  - apply (f_equal (@List.length ascii)) in Hrev.
    rewrite length_rev, Heq in Hrev. discriminate.
  - rewrite <- Hrev, rev_involutive. apply string_of_list_ascii_of_string.
Qed.

(** Joining a path of plain names with one more plain name appends it. *)
Lemma Join_joined segs n :
  Forall (fun s => plainName s = true) segs -> segs <> [] ->
  plainName n = true ->
  path.Join [joined segs; n] = joined (segs ++ [n]).
Proof.
  intros Hp Hne Hn.
  rewrite <- (Clean_joined (segs ++ [n])); [|apply Forall_app; auto | now destruct segs].
  rewrite joined_snoc by exact Hne.
  destruct segs as [|s segs]; [congruence|].
  destruct (joined_head s segs (Forall_inv Hp)) as (c & r & -> & _).
  unfold path.Join.
  cbn [fold_left String.length Nat.add Nat.eqb Nat.ltb Nat.leb orb negb String.eqb].
  cbn [String.length orb String.append]. now rewrite !string_app_assoc.
Qed.

Lemma Join_pathOf segs n :
  Forall (fun s => plainName s = true) segs -> plainName n = true ->
  path.Join [pathOf segs; n] = joined (segs ++ [n]).
Proof.
  intros Hp Hn. destruct segs as [|s segs].
  - apply Join_dot_plain, Hn.
  - apply Join_joined; auto. discriminate.
Qed.

Lemma nested_snoc f base segs n :
  nested f base segs ->
  (exists entries e,
      ReadDir f (pathOf (base ++ segs)) = inl entries /\ In e entries /\
      Name e = n /\ IsDir e = true) ->
  nested f base (segs ++ [n]).
Proof.
  revert base. induction segs as [|s rest IH]; intros base Hn Hlast.
  - cbn. rewrite app_nil_r in Hlast. auto.
  - cbn [nested app] in *. destruct Hn as (H1 & H2). split; [exact H1|].
    apply IH; [exact H2|]. now rewrite <- app_assoc.
Qed.

Lemma reaches_joined f t rsegs k d prefix :
  (forall p entries e,
      ReadDir f p = inl entries -> In e entries -> plainName (Name e) = true) ->
  Forall (fun s => plainName s = true) rsegs ->
  reaches f t (pathOf rsegs) k d prefix ->
  exists segs,
    List.length segs = k /\ Forall (fun s => plainName s = true) segs /\
    nested f rsegs segs /\
    d = pathOf (rsegs ++ segs).
Proof.
  intros Hnames Hr.
  induction 1 as [|k d prefix entries i e _ (segs & Hk & Hs & Hn & ->) Hl Hnth Hd _].
  - exists []. rewrite app_nil_r. cbn. auto.
  - assert (Hp : plainName (Name e) = true).
    { eapply Hnames; [exact Hl | eapply nth_error_In; exact Hnth]. }
    exists (segs ++ [Name e])%list.
    rewrite length_app. cbn [List.length]. split; [lia|].
    split; [apply Forall_app; auto|]. split.
    + apply nested_snoc; [exact Hn|].
      exists entries, e. split; [exact Hl|].
      split; [eapply nth_error_In; exact Hnth | auto].
    + rewrite Join_pathOf by (try apply Forall_app; auto).
      rewrite app_assoc.
      destruct (rsegs ++ segs)%list; reflexivity.
Qed.

Lemma New_full_line fuel f name opts t err :
  Forall package_opt opts -> In FullPathPrefix opts ->
  New fuel f name opts = Some (t, err) ->
  forall it,
    line t it = it_prefix it ++ it_connector it ++ " "
                ++ (if substituted name then name ++ "/" else "")
                ++ path.Join [it_dir it; Name (it_entry it)].
Proof.
  intros Hopts Hfull Hrun it.
  destruct (New_items _ _ _ _ _ _ Hopts Hrun) as ((_ & Hp & _) & _).
  destruct (New_flags _ _ _ _ _ _ Hopts Hrun) as (_ & _ & Hf).
  destruct (New_init_fields f name opts Hopts) as (_ & _ & Hpp & _).
  rewrite Hpp in Hp.
  unfold line, entryLine, displayed.
  rewrite (proj2 Hf Hfull), Hp. cbn [negb].
  destruct (substituted name) eqn:Hs.
  - assert (Hne : (name =? "")%string = false).
    { destruct name; [discriminate Hs | reflexivity]. }
    rewrite Hne. cbn [negb]. f_equal. f_equal. f_equal.
    now rewrite string_app_assoc.
  - reflexivity.
Qed.

(** X14. Full paths spell the descent.  On a file system whose entries
    carry proper base names (not empty, no slash, neither [.] nor [..]),
    rendered with [FullPathPrefix] from a root that is the current directory
    or a path of such names, every entry displayed (an entry of the traversal
    [walkItems]) was listed in a directory that is the root path followed by
    the names of directories nested in one another, as many as the depth of
    the entry; its line shows those names and its own, separated by slashes,
    after the supplied name and a slash when the root was substituted.  So
    the path shown for an entry is the path of its directory, a slash and
    its name. *)
Theorem full_paths_spell_the_descent
        (fuel : nat) (f : FS) (name : string) (opts : list Opt)
        (t : TreeFS) (err : option error) (rsegs : list string)
        (Hopts : Forall package_opt opts)
        (Hfull : In FullPathPrefix opts)
        (Hrun : New fuel f name opts = Some (t, err))
        (Hnames : forall p entries e,
            ReadDir f p = inl entries -> In e entries ->
            plainName (Name e) = true)
        (Hrsegs : Forall (fun s => plainName s = true) rsegs)
        (Hroot : walkRoot name = pathOf rsegs) :
  exists items,
    walkItems fuel f t (walkRoot name) "" 0 = Some (items, err) /\
    tree t = name :: map (line t) items /\
    Forall (fun it =>
      exists segs,
        List.length segs = it_depth it /\
        Forall (fun s => plainName s = true) segs /\
        nested f rsegs segs /\
        it_dir it = pathOf (rsegs ++ segs) /\
        (exists entries,
            ReadDir f (it_dir it) = inl entries /\
            nth_error entries (it_index it) = Some (it_entry it)) /\
        line t it = it_prefix it ++ it_connector it ++ " "
                    ++ (if substituted name then name ++ "/" else "")
                    ++ joined (rsegs ++ segs ++ [Name (it_entry it)])) items.
Proof.
  destruct (New_traversal _ _ _ _ _ _ Hopts Hrun) as (_ & items & Hw & Ht & _ & _).
  exists items. split; [exact Hw|]. split; [exact Ht|].
  assert (Hall : Forall (item_listed f (walkRoot name) t) items).
  { eapply (walkItems_listed f t (walkRoot name) fuel); [constructor | | exact Hw].
    intros Hpos. cbn. lia. }
  eapply Forall_impl; [|exact Hall].
  intros it (_ & Hreach & (entries & Hlist & Hnth & _) & _).
  rewrite Hroot in Hreach.
  destruct (reaches_joined _ _ _ _ _ _ Hnames Hrsegs Hreach)
    as (segs & Hk & Hs & Hn & Hd).
  exists segs. split; [exact Hk|]. split; [exact Hs|]. split; [exact Hn|].
  split; [exact Hd|]. split; [exists entries; auto|].
  rewrite (New_full_line _ _ _ _ _ _ Hopts Hfull Hrun it), Hd.
  rewrite Join_pathOf.
  - now rewrite <- app_assoc.
  - apply Forall_app. auto.
  - eapply Hnames; [exact Hlist | eapply nth_error_In; exact Hnth].
Qed.

(** The package's plain tree under the root name [../x]. *)
Lemma full_paths_spell_the_descent_witness :
  let t := report (New 4 mapfs_plain "../x" [FullPathPrefix]) in
  exists items,
    walkItems 4 mapfs_plain t "." "" 0 = Some (items, None) /\
    tree t = "../x" :: map (line t) items /\
    Forall (fun it =>
      exists segs,
        List.length segs = it_depth it /\
        Forall (fun s => plainName s = true) segs /\
        nested mapfs_plain [] segs /\
        it_dir it = pathOf ([] ++ segs) /\
        (exists entries,
            ReadDir mapfs_plain (it_dir it) = inl entries /\
            nth_error entries (it_index it) = Some (it_entry it)) /\
        line t it = it_prefix it ++ it_connector it ++ " "
                    ++ ("../x" ++ "/")
                    ++ joined ([] ++ segs ++ [Name (it_entry it)])) items.
Proof.
  apply (full_paths_spell_the_descent 4 mapfs_plain "../x" [FullPathPrefix] _ None []).
  - repeat constructor.
  - now left.
  - vm_compute. reflexivity.
  - intros p entries e Hl Hin.
    unfold ReadDir, mapfs_plain, listingFS in Hl. cbn [lookupDir] in Hl.
    repeat match type of Hl with
           | context [(?k =? p)%string] => destruct (k =? p)%string
           end;
      inversion Hl; subst entries; cbn [In] in Hin;
      repeat (destruct Hin as [<-|Hin]; [reflexivity|]); destruct Hin.
  - constructor.
  - reflexivity.
Defined.


Lemma treeFSWithPrefix_grows fuel t name prefix lvl t' err :
  treeFSWithPrefix fuel t name prefix lvl = Some (t', err) ->
  same_cfg t t' /\ incl (tree t) (tree t').
Proof.
  intros H. split; [eapply treeFSWithPrefix_same_cfg; exact H|].
  assert (Hrefl : cfg_sim t t) by (unfold cfg_sim; auto 10).
  pose proof (treeFSWithPrefix_sim fuel t t name prefix lvl Hrefl) as Hs.
  rewrite H in Hs. destruct Hs as (_ & _ & _ & lines & d & n & Ht & _).
  rewrite Ht. apply incl_appl, incl_refl.
Qed.





Lemma rangeEntries_complete (self : walker) name prefix lvl t0 all :
  (forall t nm pf lv t' err,
      self t nm pf lv = Some (t', err) -> same_cfg t t' /\ incl (tree t) (tree t')) ->
  forall entries i t t',
    skipn i all = entries -> same_cfg t0 t ->
    rangeEntries self name prefix lvl (len all) (Z.of_nat i) entries t
      = Some (t', None) ->
    incl (tree t) (tree t') /\
    forall j e,
      (i <= j)%nat -> nth_error all j = Some e -> allow t0 e = true ->
      In (entryLine t0 prefix (connectorAt (Z.of_nat j) (len all)) name (Name e))
         (tree t') /\
      (IsDir e = true ->
       exists t2 t3,
         same_cfg t0 t2 /\
         self t2 (path.Join [name; Name e])
              (prefix ++ continuationAt (Z.of_nat j) (len all)) (GoInt.add lvl 1)
           = Some (t3, None) /\
         incl (tree t3) (tree t')).
Proof.
  intros Hself. induction entries as [|entry rest IH]; intros i t t' Hskip Hcfg Hrun.
  - cbn in Hrun. injection Hrun as <-. split; [apply incl_refl|].
    intros j e Hij Hnth _. exfalso.
    assert (Hj : (j < List.length all)%nat) by (apply nth_error_Some; congruence).
    apply (f_equal (@List.length DirEntry)) in Hskip.
    rewrite length_skipn in Hskip. cbn in Hskip. lia.
  - destruct (skipn_cons_nth _ _ _ _ Hskip) as (Hnth & Hrest).
    cbn [rangeEntries] in Hrun.
    replace (Z.of_nat i + 1) with (Z.of_nat (S i)) in Hrun by lia.
    rewrite (same_cfg_allow _ _ _ Hcfg) in Hrun.
    destruct (allow t0 entry) eqn:Hallow; cbn [negb] in Hrun.
    2:{ destruct (IH (S i) t t' Hrest Hcfg Hrun) as (Hincl & Hall).
        split; [exact Hincl|].
        intros j e Hij Hj Ha. destruct (Nat.eq_dec j i) as [->|Hne]; [congruence|].
        apply Hall; [lia | assumption | assumption]. }
    fold (connectorAt (Z.of_nat i) (len all)) in Hrun.
    set (conn := connectorAt (Z.of_nat i) (len all)) in *.
    destruct (IsDir entry) eqn:Hdir.
    + step_addDir_in Hrun. rewrite continuation_prefix in Hrun.
      match type of Hrun with
      | match self ?x ?nm ?pf ?lv with _ => _ end = _ =>
          set (t1 := x) in *;
          destruct (self t1 nm pf lv) as [[t2 [e2|]]|] eqn:Hcall
      end; try discriminate.
      assert (Hc1 : same_cfg t0 t1).
      { eapply same_cfg_trans; [exact Hcfg|]. subst t1.
        eapply same_cfg_trans; [|apply append_fields]. unfold same_cfg; cbn; tauto. }
      assert (Ht1 : tree t1
                    = (tree t ++ [entryLine t0 prefix conn name (Name entry)])%list).
      { subst t1. rewrite append_tree. cbn [tree set_NDirs]. f_equal. f_equal.
        apply entryLine_same_cfg.
        eapply same_cfg_trans; [exact Hcfg|]. unfold same_cfg; cbn; tauto. }
      destruct (Hself _ _ _ _ _ _ Hcall) as (Hc12 & Hi12).
      destruct (IH (S i) t2 t' Hrest (same_cfg_trans _ _ _ Hc1 Hc12) Hrun)
        as (Hincl & Hall).
      split.
      * intros x Hx. apply Hincl, Hi12. rewrite Ht1. apply in_or_app. now left.
      * intros j e Hij Hj Ha. destruct (Nat.eq_dec j i) as [->|Hne].
        -- assert (e = entry) by congruence. subst e. split.
           ++ apply Hincl, Hi12. rewrite Ht1. apply in_or_app. right. now left.
           ++ intros _. exists t1, t2. auto.
        -- apply Hall; [lia | assumption | assumption].
    + match type of Hrun with
      | rangeEntries _ _ _ _ _ _ _ ?x = _ => set (t1 := x) in *
      end.
      assert (Hc1 : same_cfg t0 t1).
      { eapply same_cfg_trans; [exact Hcfg|]. subst t1.
        eapply same_cfg_trans; [|apply append_fields]. unfold same_cfg; cbn; tauto. }
      assert (Ht1 : tree t1
                    = (tree t ++ [entryLine t0 prefix conn name (Name entry)])%list).
      { subst t1. rewrite append_tree. cbn [tree set_NFiles]. f_equal. f_equal.
        apply entryLine_same_cfg.
        eapply same_cfg_trans; [exact Hcfg|]. unfold same_cfg; cbn; tauto. }
      destruct (IH (S i) t1 t' Hrest Hc1 Hrun) as (Hincl & Hall).
      split.
      * intros x Hx. apply Hincl. rewrite Ht1. apply in_or_app. now left.
      * intros j e Hij Hj Ha. destruct (Nat.eq_dec j i) as [->|Hne].
        -- assert (e = entry) by congruence. subst e. split.
           ++ apply Hincl. rewrite Ht1. apply in_or_app. right. now left.
           ++ congruence.
        -- apply Hall; [lia | assumption | assumption].
Qed.

Lemma treeFSWithPrefix_complete f fuel :
  forall t name prefix lvl k t',
    fsys t = Some f -> depth_ok (level t) k lvl ->
    treeFSWithPrefix fuel t name prefix lvl = Some (t', None) ->
    forall k' d' pf' entries j e,
      descent f t k name prefix k' d' pf' ->
      (0 < level t -> Z.of_nat k' < level t) ->
      ReadDir f d' = inl entries -> nth_error entries j = Some e ->
      allow t e = true ->
      In (entryLine t pf' (connectorAt (Z.of_nat j) (len entries)) d' (Name e))
         (tree t').
Proof.
  induction fuel as [|fuel IH];
    intros t name prefix lvl k t' Hfs Hdepth Hrun k' d' pf' entries j e
           Hdesc Hlim Hread Hnth Hallow; [discriminate|].
  cbn [treeFSWithPrefix] in Hrun. unfold treeFSWithPrefix_body in Hrun.
  pose proof (descent_depth _ _ _ _ _ _ _ _ Hdesc) as Hkk.
  destruct ((0 <? level t) && (lvl =? level t)) eqn:Hguard.
  { exfalso. apply andb_true_iff in Hguard. destruct Hguard as (H1 & H2).
    apply Z.ltb_lt in H1. apply Z.eqb_eq in H2.
    destruct (Hdepth H1) as (Hk & _). specialize (Hlim H1). lia. }
  rewrite Hfs in Hrun.
  destruct (ReadDir f name) as [all|er] eqn:Hlist; [|discriminate].
  destruct (rangeEntries_complete (treeFSWithPrefix fuel) name prefix lvl t all
              (fun t nm pf lv t' err => treeFSWithPrefix_grows fuel t nm pf lv t' err)
              all 0%nat t t' eq_refl (same_cfg_refl t) Hrun) as (_ & Hall).
  inversion Hdesc as [k0 d0 pf0|k0 d0 pf0 entries0 i0 e0 k1 d1 pf1 Hl0 Hn0 Hd0 Ha0 Hrest];
    subst.
  - rewrite Hlist in Hread. injection Hread as <-.
    apply Hall; [lia | assumption | assumption].
  - rewrite Hlist in Hl0. injection Hl0 as <-.
    destruct (Hall i0 e0 ltac:(lia) Hn0 Ha0) as (_ & Hsub).
    destruct (Hsub Hd0) as (t2 & t3 & Hc2 & Hcall & Hincl).
    pose proof Hc2 as (Hf2 & _ & _ & _ & _ & Hl2).
    apply Hincl. rewrite <- (entryLine_same_cfg t t2) by exact Hc2.
    eapply (IH t2 _ _ (GoInt.add lvl 1) (S k) t3); eauto.
    + congruence.
    + rewrite Hl2. intros Hpos. destruct (Hdepth Hpos) as (Hk & Hle & Hbig).
      assert (Hlt : lvl < level t).
      { apply andb_false_iff in Hguard. destruct Hguard as [H|H].
        - apply Z.ltb_ge in H. lia.
        - apply Z.eqb_neq in H. lia. }
      unfold GoInt.add. rewrite wrap_small by (unfold GoInt.in_range; lia). lia.
    + eapply descent_same_cfg; eauto.
    + now rewrite Hl2.
    + now rewrite (same_cfg_allow _ _ _ Hc2).
Qed.

(** X15. Nothing is left out.  In a successful render, every entry that
    passes the filter has its line in the report, in every directory the
    walk descends to (through directories that pass the filter) and that
    lies above the limit: drawn with the prefix of its directory and the
    connector of its position in the listing. *)
Theorem nothing_is_omitted
        (fuel : nat) (f : FS) (name : string) (opts : list Opt) (t : TreeFS)
        (k : nat) (d pf : string) (entries : list DirEntry) (j : nat) (e : DirEntry)
        (Hopts : Forall package_opt opts)
        (Hrun : New fuel f name opts = Some (t, None))
        (Hreach : reaches f t (walkRoot name) k d pf)
        (Hlimit : 0 < level t -> Z.of_nat k < level t)
        (Hlist : ReadDir f d = inl entries)
        (Hnth : nth_error entries j = Some e)
        (Hallow : allow t e = true) :
  In (entryLine t pf (connectorAt (Z.of_nat j) (len entries)) d (Name e)) (tree t).
Proof.
  destruct (New_items _ _ _ _ _ _ Hopts Hrun) as (Hc & _).
  destruct (New_init_fields f name opts Hopts) as (Hfs & _).
  rewrite New_unfold in Hrun.
  rewrite (entryLine_same_cfg (New_init f name opts) t) by exact Hc.
  eapply (treeFSWithPrefix_complete f fuel (New_init f name opts) _ _ 0 0%nat t);
    eauto.
  - intros Hpos. destruct (New_init_fields f name opts Hopts)
      as (_ & _ & _ & _ & _ & Hlv). cbn. lia.
  - apply reaches_descent. eapply reaches_same_cfg; eauto.
  - destruct Hc as (_ & _ & _ & _ & _ & Hl). now rewrite <- Hl.
  - now rewrite <- (same_cfg_allow _ _ _ Hc).
Qed.

(** The file [b2.test] of the package's plain tree, one directory down. *)
Lemma nothing_is_omitted_witness :
  In "│   ├── b2.test" (tree (report (New 4 mapfs_plain "." []))).
Proof.
  pose (t := report (New 4 mapfs_plain "." [])).
  pose (top := [file "a1.test"; file "a2.test"; file "a3.test"; dir "b"; dir "c"]).
  assert (Hreach : reaches mapfs_plain t "." 1 (path.Join ["."; Name (dir "b")])
                           ("" ++ continuationAt (Z.of_nat 3) (len top))).
  { apply (reaches_child mapfs_plain t "." 0 "." "" top 3 (dir "b")).
    - constructor.
    - vm_compute. reflexivity.
    - reflexivity.
    - reflexivity.
    - vm_compute. reflexivity. }
  assert (H := nothing_is_omitted 4 mapfs_plain "." [] t 1
                 (path.Join ["."; Name (dir "b")])
                 ("" ++ continuationAt (Z.of_nat 3) (len top))
                 [file "b1.test"; file "b2.test"; file "b3.test"; dir "d"] 1
                 (file "b2.test") (Forall_nil _)).
  vm_compute. vm_compute in H. apply H.
  - reflexivity.
  - vm_compute in Hreach. exact Hreach.
  - intros Hpos. discriminate Hpos.
  - reflexivity.
  - reflexivity.
  - reflexivity.
Defined.

(** ** The order of the lines *)

Lemma same_cfg_sim_clear t t1 : same_cfg t t1 -> cfg_sim t1 (clearAcc t).
Proof.
  intros (H1 & H2 & H3 & H4 & H5 & H6). unfold cfg_sim, clearAcc. cbn.
  repeat split; auto.
Qed.

Lemma rangeEntries_blocks fuel t name prefix lvl n :
  forall entries i ta t',
    same_cfg t ta ->
    rangeEntries (treeFSWithPrefix fuel) name prefix lvl n (Z.of_nat i) entries ta
      = Some (t', None) ->
    exists blocks,
      tree t' = (tree ta ++ List.concat blocks)%list /\
      Forall2 (entryBlock fuel t name prefix lvl n)
              (combine (seq i (List.length entries)) entries) blocks.
Proof.
  induction entries as [|entry rest IH]; intros i ta t' Hc Hrun.
  - cbn in Hrun. injection Hrun as <-. exists []. cbn. rewrite app_nil_r.
    split; [reflexivity | constructor].
  - cbn [rangeEntries] in Hrun.
    replace (Z.of_nat i + 1) with (Z.of_nat (S i)) in Hrun by lia.
    cbn [List.length seq combine].
    rewrite (same_cfg_allow _ _ _ Hc) in Hrun.
    destruct (allow t entry) eqn:Hallow; cbn [negb] in Hrun.
    2:{ destruct (IH (S i) ta t' Hc Hrun) as (blocks & Ht & Hall).
        exists ([] :: blocks). cbn [List.concat app]. split; [exact Ht|].
        constructor; [|exact Hall]. unfold entryBlock. now rewrite Hallow. }
    fold (connectorAt (Z.of_nat i) n) in Hrun.
    set (conn := connectorAt (Z.of_nat i) n) in *.
    destruct (IsDir entry) eqn:Hdir.
    + step_addDir_in Hrun. rewrite continuation_prefix in Hrun.
      match type of Hrun with
      | match treeFSWithPrefix _ ?x ?nm ?pf ?lv with _ => _ end = _ =>
          set (t1 := x) in *;
          destruct (treeFSWithPrefix fuel t1 nm pf lv) as [[t2 [e2|]]|] eqn:Hcall
      end; try discriminate.
      assert (Hc1 : same_cfg t t1).
      { eapply same_cfg_trans; [exact Hc|]. subst t1.
        eapply same_cfg_trans; [|apply append_fields]. unfold same_cfg; cbn; tauto. }
      assert (Ht1 : tree t1
                    = (tree ta ++ [entryLine t prefix conn name (Name entry)])%list).
      { subst t1. rewrite append_tree. cbn [tree set_NDirs]. f_equal. f_equal.
        apply entryLine_same_cfg.
        eapply same_cfg_trans; [exact Hc|]. unfold same_cfg; cbn; tauto. }
      pose proof (treeFSWithPrefix_sim fuel t1 (clearAcc t)
                    (path.Join [name; Name entry])
                    (prefix ++ continuationAt (Z.of_nat i) n) (GoInt.add lvl 1)
                    (same_cfg_sim_clear _ _ Hc1)) as Hsim.
      rewrite Hcall in Hsim.
      destruct (treeFSWithPrefix fuel (clearAcc t) (path.Join [name; Name entry])
                  (prefix ++ continuationAt (Z.of_nat i) n) (GoInt.add lvl 1))
        as [[d ed]|] eqn:Hd; cbn in Hsim; [|contradiction].
      destruct Hsim as (He & Hc12 & _ & lines & a & b & Ht2 & Htd & _).
      subst ed. cbn in Htd.
      destruct (IH (S i) t2 t' (same_cfg_trans _ _ _ Hc1 Hc12) Hrun)
        as (blocks & Ht & Hall).
      exists ((entryLine t prefix conn name (Name entry) :: tree d) :: blocks).
      split.
      * rewrite Ht, Ht2, Ht1, Htd. cbn [List.concat app].
        rewrite <- !app_assoc. reflexivity.
      * constructor; [|exact Hall]. unfold entryBlock. rewrite Hallow, Hdir.
        exists d. split; [exact Hd | reflexivity].
    + match type of Hrun with
      | rangeEntries _ _ _ _ _ _ _ ?x = _ => set (t1 := x) in *
      end.
      assert (Hc1 : same_cfg t t1).
      { eapply same_cfg_trans; [exact Hc|]. subst t1.
        eapply same_cfg_trans; [|apply append_fields]. unfold same_cfg; cbn; tauto. }
      assert (Ht1 : tree t1
                    = (tree ta ++ [entryLine t prefix conn name (Name entry)])%list).
      { subst t1. rewrite append_tree. cbn [tree set_NFiles]. f_equal. f_equal.
        apply entryLine_same_cfg.
        eapply same_cfg_trans; [exact Hc|]. unfold same_cfg; cbn; tauto. }
      destruct (IH (S i) t1 t' Hc1 Hrun) as (blocks & Ht & Hall).
      exists ([entryLine t prefix conn name (Name entry)] :: blocks).
      split.
      * rewrite Ht, Ht1. cbn [List.concat app]. rewrite <- !app_assoc. reflexivity.
      * constructor; [|exact Hall]. unfold entryBlock. now rewrite Hallow, Hdir.
Qed.

(** X16. The lines come in listing order, a directory's contents directly
    below it.  A call that lists a directory and returns without error has
    appended one block per entry of the listing, in the order of the
    listing: nothing for an entry the filter drops, the line of a file, and
    for a directory its line followed by exactly the lines that the walk of
    that directory gives on its own. *)
Theorem lines_follow_the_listing
        (fuel : nat) (t : TreeFS) (f : FS) (name prefix : string) (lvl : Z)
        (entries : list DirEntry) (t' : TreeFS)
        (Hfs : fsys t = Some f)
        (Hguard : ~ (0 < level t /\ lvl = level t))
        (Hlist : ReadDir f name = inl entries)
        (Hrun : treeFSWithPrefix (S fuel) t name prefix lvl = Some (t', None)) :
  exists blocks,
    tree t' = (tree t ++ List.concat blocks)%list /\
    Forall2 (entryBlock fuel t name prefix lvl (len entries))
            (combine (seq 0 (List.length entries)) entries) blocks.
Proof.
  cbn [treeFSWithPrefix] in Hrun. unfold treeFSWithPrefix_body in Hrun.
  assert (Hg : (0 <? level t) && (lvl =? level t) = false).
  { destruct (Z.ltb_spec 0 (level t)) as [Hpos|_]; [|reflexivity].
    destruct (Z.eqb_spec lvl (level t)) as [Heq|_]; [|reflexivity].
    exfalso. apply Hguard. auto. }
  rewrite Hg, Hfs, Hlist in Hrun.
  apply (rangeEntries_blocks fuel t name prefix lvl (len entries) entries 0%nat t t');
    [apply same_cfg_refl | exact Hrun].
Qed.

(** The root of the package's plain tree. *)
Lemma lines_follow_the_listing_witness :
  let t := mkTreeFS (Some mapfs_plain) ["."] "" 0 0 false false false 0 in
  let top := [file "a1.test"; file "a2.test"; file "a3.test"; dir "b"; dir "c"] in
  exists blocks,
    tree (report (treeFSWithPrefix 4 t "." "" 0)) = (["."] ++ List.concat blocks)%list /\
    Forall2 (entryBlock 3 t "." "" 0 (len top))
            (combine (seq 0 (List.length top)) top) blocks.
Proof.
  intros t top.
  apply (lines_follow_the_listing 3 t mapfs_plain "." "" 0 top).
  - reflexivity.
  - intros (H & _). cbn in H. lia.
  - reflexivity.
  - vm_compute. reflexivity.
Defined.

(** ** A render against the render with one more option *)

Lemma line_ext a b it :
  pathPrefix a = pathPrefix b -> fullPathPrefix a = fullPathPrefix b ->
  line a it = line b it.
Proof. intros Hp Hf. unfold line, entryLine, displayed. now rewrite Hp, Hf. Qed.

Lemma allow_ext t t' e :
  hidden t' = hidden t -> dirOnly t' = dirOnly t -> allow t' e = allow t e.
Proof. intros Hh Hd. unfold allow. now rewrite Hh, Hd. Qed.

Lemma entriesItems_depth_ge t (sub : string -> string -> itemsResult) dir prefix k n :
  (forall d p its e,
      sub d p = Some (its, e) -> Forall (fun it => (S k <= it_depth it)%nat) its) ->
  forall entries i items err,
    entriesItems sub t dir prefix k n i entries = Some (items, err) ->
    Forall (fun it => (k <= it_depth it)%nat) items.
Proof.
  intros Hsub. induction entries as [|entry rest IH]; intros i items err Hrun.
  - cbn in Hrun. injection Hrun as <- _. constructor.
  - cbn [entriesItems] in Hrun.
    destruct (allow t entry); [|now apply (IH (S i) items err)].
    assert (Hin : forall d p its e,
               sub d p = Some (its, e) -> Forall (fun it => (k <= it_depth it)%nat) its).
    { intros d p its e Hs. eapply Forall_impl; [|exact (Hsub d p its e Hs)].
      cbn. intros it H. lia. }
    destruct (IsDir entry).
    + destruct (sub (path.Join [dir; Name entry])
                    (prefix ++ continuationAt (Z.of_nat i) n))
        as [[inside [e|]]|] eqn:Hs; try discriminate.
      * injection Hrun as <- <-. constructor; [cbn; lia | eapply Hin; eauto].
      * destruct (entriesItems sub t dir prefix k n (S i) rest)
          as [[more err']|] eqn:Hm; [|discriminate].
        injection Hrun as <- <-. cbn [app]. constructor; [cbn; lia|].
        apply Forall_app. split; [eapply Hin; eauto | eapply IH; eauto].
    + destruct (entriesItems sub t dir prefix k n (S i) rest)
        as [[more err']|] eqn:Hm; [|discriminate].
      injection Hrun as <- <-. cbn [app]. constructor; [cbn; lia | eapply IH; eauto].
Qed.

Lemma walkItems_depth_ge f t fuel :
  forall dir prefix k items err,
    walkItems fuel f t dir prefix k = Some (items, err) ->
    Forall (fun it => (k <= it_depth it)%nat) items.
Proof.
  induction fuel as [|fuel IH]; intros dir prefix k items err Hrun; [discriminate|].
  cbn [walkItems] in Hrun.
  destruct ((0 <? level t) && (Z.of_nat k =? level t)).
  - injection Hrun as <- _. constructor.
  - destruct (ReadDir f dir) as [entries|er].
    + eapply entriesItems_depth_ge; [|exact Hrun].
      intros d p its e Hs. eapply IH; exact Hs.
    + injection Hrun as <- _. constructor.
Qed.

Lemma shallow_none L k items :
  L <= Z.of_nat k -> Forall (fun it => (k <= it_depth it)%nat) items ->
  filter (shallow L) items = [].
Proof.
  intros HL. induction 1 as [|it items Hd _ IH]; [reflexivity|].
  cbn [filter]. unfold shallow at 1.
  replace (_ <? L) with false by (symmetry; apply Z.ltb_ge; lia). exact IH.
Qed.

(** Under a limit the traversal gives the entries of the unlimited
    traversal that lie above the limit. *)
Lemma entriesItems_cut t tL (sub subL : string -> string -> itemsResult)
      dir prefix k n :
  hidden tL = hidden t -> dirOnly tL = dirOnly t ->
  Z.of_nat k < level tL ->
  (forall d p inside,
      sub d p = Some (inside, None) ->
      subL d p = Some (filter (shallow (level tL)) inside, None)) ->
  forall entries i items,
    entriesItems sub t dir prefix k n i entries = Some (items, None) ->
    entriesItems subL tL dir prefix k n i entries
    = Some (filter (shallow (level tL)) items, None).
Proof.
  intros Hh Hd Hk Hsub. induction entries as [|entry rest IH]; intros i items Hrun.
  - cbn in Hrun |- *. injection Hrun as <-. reflexivity.
  - cbn [entriesItems] in Hrun |- *. rewrite (allow_ext t tL entry Hh Hd).
    destruct (allow t entry); [|now apply IH].
    assert (Hsh : forall conn,
               shallow (level tL) (mkItem prefix conn dir k i entry) = true).
    { intros conn. unfold shallow. cbn. apply Z.ltb_lt. exact Hk. }
    destruct (IsDir entry).
    + destruct (sub (path.Join [dir; Name entry])
                    (prefix ++ continuationAt (Z.of_nat i) n))
        as [[inside [e|]]|] eqn:Hs; try discriminate.
      rewrite (Hsub _ _ _ Hs).
      destruct (entriesItems sub t dir prefix k n (S i) rest)
        as [[more err']|] eqn:Hm; [|discriminate].
      injection Hrun as <- ->. rewrite (IH (S i) more Hm).
      cbn [app filter]. now rewrite Hsh, filter_app.
    + destruct (entriesItems sub t dir prefix k n (S i) rest)
        as [[more err']|] eqn:Hm; [|discriminate].
      injection Hrun as <- ->. rewrite (IH (S i) more Hm).
      cbn [app filter]. now rewrite Hsh.
Qed.

Lemma walkItems_cut f t tL :
  hidden tL = hidden t -> dirOnly tL = dirOnly t ->
  level t <= 0 -> 0 < level tL ->
  forall fuel dir prefix k items,
    Z.of_nat k <= level tL ->
    walkItems fuel f t dir prefix k = Some (items, None) ->
    walkItems fuel f tL dir prefix k = Some (filter (shallow (level tL)) items, None).
Proof.
  intros Hh Hd Hunl Hlim. induction fuel as [|fuel IH];
    intros dir prefix k items Hk Hrun; [discriminate|].
  pose proof (walkItems_depth_ge _ _ _ _ _ _ _ _ Hrun) as Hge.
  cbn [walkItems] in Hrun |- *.
  assert (Hg : (0 <? level t) = false) by (apply Z.ltb_ge; lia).
  rewrite Hg in Hrun. cbn [andb] in Hrun.
  replace (0 <? level tL) with true by (symmetry; apply Z.ltb_lt; lia).
  cbn [andb].
  destruct (Z.eqb_spec (Z.of_nat k) (level tL)) as [Heq|Hne].
  - rewrite (shallow_none (level tL) k items); [reflexivity | lia | exact Hge].
  - destruct (ReadDir f dir) as [entries|er]; [|discriminate].
    eapply (entriesItems_cut t tL); eauto; [lia|].
    intros d p inside Hs. apply IH; [lia | exact Hs].
Qed.

(** With a stricter filter that lets the same directories through, the
    traversal gives the entries of the other traversal that the stricter
    filter keeps, and stops at the same error. *)
Lemma entriesItems_kept t t2 (sub sub2 : string -> string -> itemsResult)
      dir prefix k n :
  (forall e, allow t2 e = true -> allow t e = true) ->
  (forall e, IsDir e = true -> allow t2 e = allow t e) ->
  (forall d p inside err,
      sub d p = Some (inside, err) ->
      sub2 d p = Some (filter (kept t2) inside, err)) ->
  forall entries i items err,
    entriesItems sub t dir prefix k n i entries = Some (items, err) ->
    entriesItems sub2 t2 dir prefix k n i entries
    = Some (filter (kept t2) items, err).
Proof.
  intros Hsubset Hdirs Hsub.
  induction entries as [|entry rest IH]; intros i items err Hrun.
  - cbn in Hrun |- *. injection Hrun as <- <-. reflexivity.
  - cbn [entriesItems] in Hrun |- *.
    destruct (allow t entry) eqn:Hallow.
    2:{ assert (Ha2 : allow t2 entry = false).
        { destruct (allow t2 entry) eqn:E; [|reflexivity].
          apply Hsubset in E. congruence. }
        rewrite Ha2. now apply IH. }
    destruct (IsDir entry) eqn:Hdir.
    + rewrite (Hdirs entry Hdir), Hallow.
      assert (Hk : forall conn, kept t2 (mkItem prefix conn dir k i entry) = true).
      { intros conn. unfold kept. cbn. now rewrite (Hdirs entry Hdir). }
      destruct (sub (path.Join [dir; Name entry])
                    (prefix ++ continuationAt (Z.of_nat i) n))
        as [[inside e]|] eqn:Hs; [|discriminate].
      rewrite (Hsub _ _ _ _ Hs).
      destruct e as [e|].
      * injection Hrun as <- <-. cbn [filter]. now rewrite Hk.
      * destruct (entriesItems sub t dir prefix k n (S i) rest)
          as [[more err']|] eqn:Hm; [|discriminate].
        injection Hrun as <- <-. rewrite (IH (S i) more err' Hm).
        cbn [app filter]. now rewrite Hk, filter_app.
    + destruct (entriesItems sub t dir prefix k n (S i) rest)
        as [[more err']|] eqn:Hm; [|discriminate].
      injection Hrun as <- <-. cbn [app filter]. unfold kept at 1. cbn [it_entry].
      destruct (allow t2 entry).
      * now rewrite (IH (S i) more err' Hm).
      * now apply IH.
Qed.

Lemma walkItems_kept f t t2 :
  level t2 = level t ->
  (forall e, allow t2 e = true -> allow t e = true) ->
  (forall e, IsDir e = true -> allow t2 e = allow t e) ->
  forall fuel dir prefix k items err,
    walkItems fuel f t dir prefix k = Some (items, err) ->
    walkItems fuel f t2 dir prefix k = Some (filter (kept t2) items, err).
Proof.
  intros Hl Hsubset Hdirs. induction fuel as [|fuel IH];
    intros dir prefix k items err Hrun; [discriminate|].
  cbn [walkItems] in Hrun |- *. rewrite Hl.
  destruct ((0 <? level t) && (Z.of_nat k =? level t)).
  - injection Hrun as <- <-. reflexivity.
  - destruct (ReadDir f dir) as [entries|er].
    + eapply (entriesItems_kept t t2); eauto.
      intros d p inside e Hs. apply IH. exact Hs.
    + injection Hrun as <- <-. reflexivity.
Qed.

Lemma ndirs_isDirItem items : ndirs (filter isDirItem items) = ndirs items.
Proof.
  unfold ndirs, isDirItem. induction items as [|it items IH]; [reflexivity|].
  cbn [filter]. destruct (IsDir (it_entry it)) eqn:E.
  - cbn [filter]. rewrite E. cbn [List.length]. now rewrite IH.
  - exact IH.
Qed.

Lemma nfiles_isDirItem items : nfiles (filter isDirItem items) = 0%nat.
Proof.
  apply nfiles_all_dirs. apply Forall_forall. intros it Hin.
  apply filter_In in Hin. apply Hin.
Qed.

(** What one more option changes in the accumulator [New] starts with. *)
Lemma New_init_Level f name opts L :
  0 < L ->
  let t0 := New_init f name opts in
  let t1 := New_init f name (opts ++ [Level L]) in
  fsys t1 = fsys t0 /\ level t1 = L /\ tree t1 = tree t0 /\
  NDirs t1 = NDirs t0 /\ NFiles t1 = NFiles t0 /\
  pathPrefix t1 = pathPrefix t0 /\ fullPathPrefix t1 = fullPathPrefix t0 /\
  hidden t1 = hidden t0 /\ dirOnly t1 = dirOnly t0.
Proof.
  intros HL. unfold New_init. rewrite applyOpts_app.
  cbn [applyOpts fold_left]. unfold Level.
  replace (L <=? 0) with false by (symmetry; apply Z.leb_gt; lia).
  destruct (substituted name); cbn; auto 10.
Qed.

Lemma New_init_DirOnly f name opts :
  let t0 := New_init f name opts in
  let tD := New_init f name (opts ++ [DirOnly]) in
  fsys tD = fsys t0 /\ level tD = level t0 /\ tree tD = tree t0 /\
  NDirs tD = NDirs t0 /\ NFiles tD = NFiles t0 /\
  pathPrefix tD = pathPrefix t0 /\ fullPathPrefix tD = fullPathPrefix t0 /\
  hidden tD = hidden t0 /\ dirOnly tD = true.
Proof.
  unfold New_init. rewrite applyOpts_app. cbn [applyOpts fold_left]. unfold DirOnly.
  destruct (substituted name); cbn; auto 10.
Qed.

Lemma New_init_FullPathPrefix f name opts :
  let t0 := New_init f name opts in
  let tF := New_init f name (opts ++ [FullPathPrefix]) in
  fsys tF = fsys t0 /\ level tF = level t0 /\ tree tF = tree t0 /\
  NDirs tF = NDirs t0 /\ NFiles tF = NFiles t0 /\
  hidden tF = hidden t0 /\ dirOnly tF = dirOnly t0.
Proof.
  unfold New_init. rewrite applyOpts_app. cbn [applyOpts fold_left].
  unfold FullPathPrefix. destruct (substituted name); cbn; auto 10.
Qed.

Lemma New_listed fuel f name opts t err items :
  Forall package_opt opts ->
  New fuel f name opts = Some (t, err) ->
  walkItems fuel f t (walkRoot name) "" 0 = Some (items, err) ->
  Forall (item_listed f (walkRoot name) t) items.
Proof.
  intros Hopts Hrun Hw.
  eapply (walkItems_listed f t (walkRoot name) fuel); [constructor | | exact Hw].
  intros Hpos. cbn. lia.
Qed.

(** X17. A limit cuts the unlimited report, it does not redraw it.  When
    the render without a limit succeeds, displaying the entries of the
    traversal [walkItems] (each an entry of the listing of a directory
    reached from the root through as many directories as its depth says),
    the render with [Level L] added succeeds as well, on the same recursion
    budget, and displays exactly those of these entries that lie fewer than
    [L] directories below the root, in the same order and with the same
    lines; its counters count them. *)
Theorem limit_cuts_the_report
        (fuel : nat) (f : FS) (name : string) (opts : list Opt) (L : Z)
        (t : TreeFS)
        (Hopts : Forall package_opt opts)
        (Hunl : level (New_init f name opts) = 0)
        (HL : 0 < L < 2 ^ 63)
        (Hrun : New fuel f name opts = Some (t, None))
        (Hlen : len (tree t) < 2 ^ 63) :
  exists items tL,
    walkItems fuel f t (walkRoot name) "" 0 = Some (items, None) /\
    tree t = name :: map (line t) items /\
    Forall (item_listed f (walkRoot name) t) items /\
    New fuel f name (opts ++ [Level L]) = Some (tL, None) /\
    walkItems fuel f tL (walkRoot name) "" 0
    = Some (filter (shallow L) items, None) /\
    tree tL = name :: map (line t) (filter (shallow L) items) /\
    NDirs tL = Z.of_nat (ndirs (filter (shallow L) items)) /\
    NFiles tL = Z.of_nat (nfiles (filter (shallow L) items)).
Proof.
  destruct (New_init_Level f name opts L ltac:(lia))
    as (_ & HlL & _ & _ & _ & Hp1 & Hfp1 & Hh1 & Hd1).
  destruct (New_traversal _ _ _ _ _ _ Hopts Hrun) as (Hc & items & Hw & Ht & _ & _).
  set (t0 := New_init f name opts) in *.
  set (t1 := New_init f name (opts ++ [Level L])) in *.
  assert (Hopts1 : Forall package_opt (opts ++ [Level L])).
  { apply Forall_app. split; [exact Hopts|].
    constructor; [apply opt_Level; unfold GoInt.in_range; lia | constructor]. }
  assert (Hw1 : walkItems fuel f t1 (walkRoot name) "" 0
                = Some (filter (shallow L) items, None)).
  { assert (H0 : level t0 <= 0) by lia.
    assert (H1 : 0 < level t1) by lia.
    assert (H2 : Z.of_nat 0 <= level t1) by lia.
    assert (Hw0 : walkItems fuel f t0 (walkRoot name) "" 0 = Some (items, None))
      by now rewrite <- (walkItems_same_cfg f t0 t fuel _ _ _ Hc).
    rewrite <- HlL.
    exact (walkItems_cut f t0 t1 Hh1 Hd1 H0 H1 fuel _ _ _ _ H2 Hw0). }
  destruct (New_of_traversal _ _ _ _ _ _ Hopts1 Hw1)
    as (tL & HrunL & HcL & HtL & HdL & HfL).
  fold t1 in HcL.
  exists items, tL. split; [exact Hw|]. split; [exact Ht|].
  split; [exact (New_listed _ _ _ _ _ _ _ Hopts Hrun Hw)|]. split; [exact HrunL|].
  split; [now rewrite (walkItems_same_cfg f t1 tL fuel _ _ _ HcL)|].
  split.
  - rewrite HtL. f_equal. apply map_ext. intros it. apply line_ext.
    + destruct HcL as (_ & -> & _). destruct Hc as (_ & -> & _). exact Hp1.
    + destruct HcL as (_ & _ & _ & _ & -> & _).
      destruct Hc as (_ & _ & _ & _ & -> & _). exact Hfp1.
  - assert (Hitems : Z.of_nat (List.length items) < 2 ^ 63).
    { unfold len in Hlen. rewrite Ht in Hlen. cbn [List.length] in Hlen.
      rewrite length_map in Hlen. lia. }
    pose proof (ndirs_nfiles (filter (shallow L) items)) as Hsum.
    pose proof (filter_length_le (shallow L) items) as Hle.
    rewrite HdL, HfL, !bumpN_exact by lia. split; lia.
Qed.

(** The package's deep tree, cut at two levels. *)
Lemma limit_cuts_the_report_witness :
  let t := report (New 5 mapfs_deep "." []) in
  exists items tL,
    walkItems 5 mapfs_deep t "." "" 0 = Some (items, None) /\
    tree t = "." :: map (line t) items /\
    Forall (item_listed mapfs_deep "." t) items /\
    New 5 mapfs_deep "." ([] ++ [Level 2]) = Some (tL, None) /\
    walkItems 5 mapfs_deep tL "." "" 0 = Some (filter (shallow 2) items, None) /\
    tree tL = "." :: map (line t) (filter (shallow 2) items) /\
    NDirs tL = Z.of_nat (ndirs (filter (shallow 2) items)) /\
    NFiles tL = Z.of_nat (nfiles (filter (shallow 2) items)).
Proof.
  apply (limit_cuts_the_report 5 mapfs_deep "." [] 2).
  - constructor.
  - reflexivity.
  - lia.
  - vm_compute. reflexivity.
  - vm_compute. reflexivity.
Defined.

(** X18. [DirOnly] cuts the report, it does not redraw it.  Whatever the
    render without [DirOnly] returns, having displayed the entries of the
    traversal [walkItems] (each an entry of a listing of the file system),
    the render with [DirOnly] added returns the same error or none and
    displays exactly those of these entries that the file system lists as
    directories, in the same order and with the same lines, prefixes and
    connectors included (so the last directory shown keeps a tee when a file
    followed it); it counts the same directories and no file. *)
Theorem dir_only_cuts_the_report
        (fuel : nat) (f : FS) (name : string) (opts : list Opt)
        (t : TreeFS) (err : option error)
        (Hopts : Forall package_opt opts)
        (Hplain : ~ In DirOnly opts)
        (Hrun : New fuel f name opts = Some (t, err)) :
  exists items tD,
    walkItems fuel f t (walkRoot name) "" 0 = Some (items, err) /\
    tree t = name :: map (line t) items /\
    Forall (item_listed f (walkRoot name) t) items /\
    New fuel f name (opts ++ [DirOnly]) = Some (tD, err) /\
    walkItems fuel f tD (walkRoot name) "" 0
    = Some (filter isDirItem items, err) /\
    tree tD = name :: map (line t) (filter isDirItem items) /\
    NDirs tD = NDirs t /\ NFiles tD = 0.
Proof.
  destruct (New_init_DirOnly f name opts)
    as (_ & Hl1 & _ & _ & _ & Hp1 & Hfp1 & Hh1 & Hdo).
  destruct (New_traversal _ _ _ _ _ _ Hopts Hrun) as (Hc & items & Hw & Ht & Hd & Hf).
  pose proof (New_listed _ _ _ _ _ _ _ Hopts Hrun Hw) as Hall.
  set (t0 := New_init f name opts) in *.
  set (tD0 := New_init f name (opts ++ [DirOnly])) in *.
  assert (Hoff : dirOnly t0 = false).
  { destruct (dirOnly t0) eqn:E; [|reflexivity]. exfalso. apply Hplain.
    subst t0. unfold New_init in E.
    destruct (applyOpts_flags opts Hopts
                (mkTreeFS (Some f) [name] "" 0 0 false false false 0))
      as (_ & Ad & _).
    destruct (substituted name); cbn in E; apply Ad in E;
      destruct E as [E|E]; auto; discriminate E. }
  assert (Hallow : forall e, allow tD0 e = allow t0 e && IsDir e).
  { intros e. unfold allow. rewrite Hh1, Hdo, Hoff.
    destruct (_ && negb (hidden t0)); destruct (IsDir e); reflexivity. }
  assert (Hopts1 : Forall package_opt (opts ++ [DirOnly])).
  { apply Forall_app. split; [exact Hopts | repeat constructor]. }
  assert (Hfilter : filter (kept tD0) items = filter isDirItem items).
  { apply filter_ext_in. intros it Hin. unfold kept, isDirItem.
    rewrite Hallow. rewrite Forall_forall in Hall.
    destruct (Hall it Hin) as (Ha & _).
    rewrite (same_cfg_allow _ _ _ Hc) in Ha. now rewrite Ha. }
  assert (Hw1 : walkItems fuel f tD0 (walkRoot name) "" 0
                = Some (filter isDirItem items, err)).
  { rewrite <- Hfilter. apply (walkItems_kept f t0 tD0 Hl1).
    - intros e He. rewrite Hallow in He. now apply andb_true_iff in He.
    - intros e He. rewrite Hallow, He. apply andb_true_r.
    - now rewrite <- (walkItems_same_cfg f t0 t fuel _ _ _ Hc). }
  destruct (New_of_traversal _ _ _ _ _ _ Hopts1 Hw1)
    as (tD & HrunD & HcD & HtD & HdD & HfD).
  fold tD0 in HcD.
  exists items, tD. split; [exact Hw|]. split; [exact Ht|]. split; [exact Hall|].
  split; [exact HrunD|].
  split; [now rewrite (walkItems_same_cfg f tD0 tD fuel _ _ _ HcD)|].
  split; [|split].
  - rewrite HtD. f_equal. apply map_ext. intros it. apply line_ext.
    + destruct HcD as (_ & -> & _). destruct Hc as (_ & -> & _). exact Hp1.
    + destruct HcD as (_ & _ & _ & _ & -> & _).
      destruct Hc as (_ & _ & _ & _ & -> & _). exact Hfp1.
  - now rewrite HdD, ndirs_isDirItem, Hd.
  - now rewrite HfD, nfiles_isDirItem.
Qed.

(** The package's plain tree. *)
Lemma dir_only_cuts_the_report_witness :
  let t := report (New 4 mapfs_plain "." []) in
  exists items tD,
    walkItems 4 mapfs_plain t "." "" 0 = Some (items, None) /\
    tree t = "." :: map (line t) items /\
    Forall (item_listed mapfs_plain "." t) items /\
    New 4 mapfs_plain "." ([] ++ [DirOnly]) = Some (tD, None) /\
    walkItems 4 mapfs_plain tD "." "" 0 = Some (filter isDirItem items, None) /\
    tree tD = "." :: map (line t) (filter isDirItem items) /\
    NDirs tD = NDirs t /\ NFiles tD = 0.
Proof.
  apply (dir_only_cuts_the_report 4 mapfs_plain "." []).
  - constructor.
  - intros H. destruct H.
  - vm_compute. reflexivity.
Defined.

(** X19. [FullPathPrefix] changes the names and nothing else.  Whatever a
    render returns, having displayed the entries of the traversal
    [walkItems], the render with [FullPathPrefix] added returns the same
    error or none and the same counters and displays the same entries in
    the same order with the same prefixes and connectors.  Each entry is an
    entry of the listing of its directory, and that directory is reached
    from the walk root by joining, one directory after the other, the name
    of a directory entry to the path so far; the line shows the path of
    the directory joined with the entry name, after the supplied root name
    and a slash when the root was substituted. *)
Theorem full_path_changes_names_only
        (fuel : nat) (f : FS) (name : string) (opts : list Opt)
        (t : TreeFS) (err : option error)
        (Hopts : Forall package_opt opts)
        (Hrun : New fuel f name opts = Some (t, err)) :
  exists items tF,
    walkItems fuel f t (walkRoot name) "" 0 = Some (items, err) /\
    tree t = name :: map (line t) items /\
    New fuel f name (opts ++ [FullPathPrefix]) = Some (tF, err) /\
    walkItems fuel f tF (walkRoot name) "" 0 = Some (items, err) /\
    tree tF = name :: map (line tF) items /\
    NDirs tF = NDirs t /\ NFiles tF = NFiles t /\
    Forall (fun it =>
              item_listed f (walkRoot name) tF it /\
              line tF it = it_prefix it ++ it_connector it ++ " "
                           ++ (if substituted name then name ++ "/" else "")
                           ++ path.Join [it_dir it; Name (it_entry it)]) items.
Proof.
  destruct (New_init_FullPathPrefix f name opts)
    as (_ & Hl1 & _ & _ & _ & Hh1 & Hd1).
  destruct (New_traversal _ _ _ _ _ _ Hopts Hrun) as (Hc & items & Hw & Ht & Hd & Hf).
  set (t0 := New_init f name opts) in *.
  set (tF0 := New_init f name (opts ++ [FullPathPrefix])) in *.
  assert (Hopts1 : Forall package_opt (opts ++ [FullPathPrefix])).
  { apply Forall_app. split; [exact Hopts | repeat constructor]. }
  assert (Hw1 : walkItems fuel f tF0 (walkRoot name) "" 0 = Some (items, err)).
  { rewrite (walkItems_ext f t0 tF0 Hh1 Hd1 Hl1).
    now rewrite <- (walkItems_same_cfg f t0 t fuel _ _ _ Hc). }
  destruct (New_of_traversal _ _ _ _ _ _ Hopts1 Hw1)
    as (tF & HrunF & HcF & HtF & HdF & HfF).
  fold tF0 in HcF.
  assert (HwF : walkItems fuel f tF (walkRoot name) "" 0 = Some (items, err))
    by now rewrite (walkItems_same_cfg f tF0 tF fuel _ _ _ HcF).
  exists items, tF. split; [exact Hw|]. split; [exact Ht|]. split; [exact HrunF|].
  split; [exact HwF|]. split; [exact HtF|].
  split; [now rewrite HdF, Hd|]. split; [now rewrite HfF, Hf|].
  pose proof (New_listed _ _ _ _ _ _ _ Hopts1 HrunF HwF) as Hall.
  eapply Forall_impl; [|exact Hall]. intros it Hit. split; [exact Hit|].
  apply (New_full_line fuel f name (opts ++ [FullPathPrefix]) tF err Hopts1);
    [|exact HrunF].
  apply in_or_app. right. now left.
Qed.

(** The package's plain tree. *)
Lemma full_path_changes_names_only_witness :
  let t := report (New 4 mapfs_plain "." []) in
  exists items tF,
    walkItems 4 mapfs_plain t "." "" 0 = Some (items, None) /\
    tree t = "." :: map (line t) items /\
    New 4 mapfs_plain "." ([] ++ [FullPathPrefix]) = Some (tF, None) /\
    walkItems 4 mapfs_plain tF "." "" 0 = Some (items, None) /\
    tree tF = "." :: map (line tF) items /\
    NDirs tF = NDirs t /\ NFiles tF = NFiles t /\
    Forall (fun it =>
              item_listed mapfs_plain "." tF it /\
              line tF it = it_prefix it ++ it_connector it ++ " "
                           ++ ("." ++ "/")
                           ++ path.Join [it_dir it; Name (it_entry it)]) items.
Proof.
  apply (full_path_changes_names_only 4 mapfs_plain "." []).
  - constructor.
  - vm_compute. reflexivity.
Defined.

(** ** The summary *)

(** X20. The summary of a report of [New]: the directory count and the
    word "directory" (when the count is 1) or "directories", followed,
    unless [dirOnly] is set, by a comma, the file count and the word "file"
    (when that count is 1) or "files"; the full report is the graph lines, a
    blank line and the summary.  A render given [DirOnly] has [dirOnly] set,
    counts no file and leaves the file clause out. *)
Theorem summary_line_format
        (fuel : nat) (f : FS) (name : string) (opts : list Opt) (t : TreeFS)
        (err : option error)
        (Hopts : Forall package_opt opts)
        (Hrun : New fuel f name opts = Some (t, err)) :
  TreeFS_Meta t =
    itoa (NDirs t) ++ " " ++ (if NDirs t =? 1 then "directory" else "directories")
    ++ (if dirOnly t then ""
        else ", " ++ itoa (NFiles t) ++ " "
                  ++ (if NFiles t =? 1 then "file" else "files")) /\
  TreeFS_String t = String.concat nl (tree t) ++ nl ++ nl ++ TreeFS_Meta t /\
  (In DirOnly opts -> dirOnly t = true) /\
  (dirOnly t = true ->
   NFiles t = 0 /\
   TreeFS_Meta t =
     itoa (NDirs t) ++ " " ++ (if NDirs t =? 1 then "directory" else "directories")).
Proof.
  assert (Hmeta : TreeFS_Meta t =
    itoa (NDirs t) ++ " " ++ (if NDirs t =? 1 then "directory" else "directories")
    ++ (if dirOnly t then ""
        else ", " ++ itoa (NFiles t) ++ " "
                  ++ (if NFiles t =? 1 then "file" else "files"))).
  { unfold TreeFS_Meta. destruct (dirOnly t); [|reflexivity].
    destruct (NDirs t =? 1); cbn; reflexivity. }
  destruct (New_items _ _ _ _ _ _ Hopts Hrun) as (Hc & items & Ht & Hd & Hf & Hok).
  repeat split.
  - exact Hmeta.
  - intros Hin. destruct Hc as (_ & _ & _ & -> & _).
    unfold New_init. destruct (substituted name); cbn [dirOnly set_pathPrefix];
      now apply applyOpts_DirOnly.
  - assert (Hnf : nfiles items = 0%nat).
    { unfold nfiles. clear Ht Hd Hf.
      induction Hok as [|it items (Ha & _) _ IH]; [reflexivity|].
      cbn [filter]. rewrite (allow_dirOnly t _ H Ha). exact IH. }
    rewrite Hf, Hnf. reflexivity.
  - unfold TreeFS_Meta. now rewrite H.
Qed.

(** The package's directories-only test: three directories, no file clause. *)
Lemma summary_line_format_witness :
  let t := report (New 4 mapfs_plain "." [DirOnly]) in
  NFiles t = 0 /\ TreeFS_Meta t = "3 directories".
Proof.
  pose proof (summary_line_format 4 mapfs_plain "." [DirOnly]
                (report (New 4 mapfs_plain "." [DirOnly])) None) as H.
  destruct H as (_ & _ & Hset & Hzero).
  - repeat constructor.
  - vm_compute. reflexivity.
  - destruct (Hzero (Hset (or_introl eq_refl))) as (H0 & Hm).
    split; [exact H0|]. rewrite Hm. vm_compute. reflexivity.
Defined.

